(** * hivewrite: translation-hub metadata, retry and validation logic

    A shallow embedding of the TypeScript sources under [src/lib]
    (translation-metadata, github, fork-management, validation, translation,
    file-processing) together with the properties the specification states
    about them, followed by further parts of the same sources, of config,
    api-utils and the autosave hook, with properties read off the code.

    Conventions of the embedding.
    - A JavaScript [number] that the code only uses as an integer (counters,
      word counts, HTTP status codes, millisecond clocks) is a [Z].  The one
      place where the code leaves the integers, the percentage of
      [calculateStats], is computed on IEEE-754 binary64 values
      ([spec_float] with [prec = 53], [emax = 1024]).  Sums of word counts
      are the sums of the doubles as long as the counts are not negative
      and stay below [2^53] ([add_of_int]); the theorems about them say
      so.
    - [new Date()] is an input: every function that reads the clock takes the
      readings as arguments, in the order the code takes them.  An ISO
      timestamp is represented by the instant it denotes (milliseconds), for
      which [toISOString] is an order-preserving rendering.
    - A thrown exception is the [Err] case of [result].
    - A JavaScript object used as a record of properties is an association
      list of its own properties in creation order (the order [Object.values]
      follows for names that are not array indices).  A lookup or an
      assignment that would reach [Object.prototype] (a name such as
      [constructor] or [__proto__] that the object does not hold itself) is
      outside of what the list stands for: the theorems that look a name
      up or create a property exclude these names ([ObjectPrototype.has]),
      and the table of languages, which the code indexes with any string,
      answers for them ([LANGUAGE_MAP]).
    - Strings that are scanned character by character are lists of UTF-16
      code units ([jsstring]); strings that are only stored and compared are
      [string]. *)

From Stdlib Require Import ZArith List String Ascii Bool Lia QArith Qround.
From Stdlib Require Import Floats.SpecFloat.
From stdpp Require Import gmap strings list.

Import ListNotations.

Inductive result (E A : Type) : Type :=
| Ok (a : A)
| Err (e : E).
Arguments Ok {E A} a.
Arguments Err {E A} e.

(** ** JavaScript strings as code-unit sequences *)
Module Js.

Abbreviation jsstring := (list N) (only parsing).

(** A literal: the code units of an ASCII string. *)
Definition lit (s : string) : jsstring :=
  List.map N_of_ascii (list_ascii_of_string s).

(** [WhiteSpace] and [LineTerminator] code units, the set [String.prototype.trim]
    strips. *)
Definition is_ws (c : N) : bool :=
  existsb (N.eqb c)
    [9; 10; 11; 12; 13; 32; 160; 5760; 8192; 8193; 8194; 8195; 8196; 8197;
     8198; 8199; 8200; 8201; 8202; 8232; 8233; 8239; 8287; 12288; 65279]%N.

Fixpoint trimStart (s : jsstring) : jsstring :=
  match s with
  | c :: s' => if is_ws c then trimStart s' else s
  | [] => []
  end.

Definition trimEnd (s : jsstring) : jsstring := rev (trimStart (rev s)).

Definition trim (s : jsstring) : jsstring := trimEnd (trimStart s).

Fixpoint startsWith (s p : jsstring) : bool :=
  match p, s with
  | [], _ => true
  | c :: p', d :: s' => N.eqb c d && startsWith s' p'
  | _ :: _, [] => false
  end.

Fixpoint includes (s p : jsstring) : bool :=
  startsWith s p ||
  match s with
  | [] => false
  | _ :: s' => includes s' p
  end.

Definition eqb (s t : jsstring) : bool := bool_decide (s = t).

(** [s.split(sep)] for a one-unit separator: never the empty array. *)
Fixpoint split (sep : N) (s : jsstring) : list jsstring :=
  match s with
  | [] => [[]]
  | c :: s' =>
      if N.eqb c sep then [] :: split sep s'
      else match split sep s' with
           | w :: ws => (c :: w) :: ws
           | [] => [[c]]
           end
  end.

(** [parts.join('')]. *)
Definition join (parts : list jsstring) : jsstring := concat parts.

(** [s.slice(from, to)] for [0 <= from], [0 <= to]. *)
Definition slice (from to : nat) (s : jsstring) : jsstring :=
  firstn (to - from) (skipn from s).

Definition is_letter (c : N) : bool :=
  ((65 <=? c) && (c <=? 90) || (97 <=? c) && (c <=? 122))%N.

(** [/[a-zA-Z]{3,}/.test(s)]: three letters in a row somewhere. *)
Fixpoint has_three_letters (s : jsstring) : bool :=
  match s with
  | a :: ((b :: c :: _) as s') =>
      is_letter a && is_letter b && is_letter c || has_three_letters s'
  | _ => false
  end.

End Js.

(** ** fork-management.ts *)
Module ForkManagement.
Local Open Scope Z_scope.

Inductive SyncStatus := behind | ahead | diverged | identical.

Record ApiCommit := {
  c_sha : string;
  c_message : string;
  c_author_name : option string;
  c_author_date : option string
}.

(** The fields of [comparison.data] the function reads; each may be absent. *)
Record Comparison := {
  behind_by : option Z;
  ahead_by : option Z;
  commits : option (list ApiCommit)
}.

Record CommitSummary := {
  sha : string;
  message : string;
  author : string;
  date : string
}.

Record SyncStatusResponse := {
  status : SyncStatus;
  behindBy : Z;
  aheadBy : Z;
  commitList : list CommitSummary
}.

(** [x || 0] on an optional number. *)
Definition or_zero (x : option Z) : Z :=
  match x with
  | Some v => v
  | None => 0
  end.

(** [s || d] on an optional string: the empty string is falsy too. *)
Definition or_string (x : option string) (d : string) : string :=
  match x with
  | Some v => if String.eqb v "" then d else v
  | None => d
  end.

(** The four-way [if] chain of [checkForkSyncStatus]. *)
Definition classify (behindBy aheadBy : Z) : SyncStatus :=
  if (behindBy =? 0) && (aheadBy =? 0) then identical
  else if (0 <? behindBy) && (aheadBy =? 0) then behind
  else if (behindBy =? 0) && (0 <? aheadBy) then ahead
  else diverged.

Definition summarize (c : ApiCommit) : CommitSummary :=
  {| sha := c_sha c;
     message := c_message c;
     author := or_string (c_author_name c) "Unknown";
     date := or_string (c_author_date c) "" |}.

(** [checkForkSyncStatus], given what [githubClient.compareCommits] produced:
    the comparison, or the message of the error it threw. *)
Definition checkForkSyncStatus (compared : result string Comparison)
  : result string SyncStatusResponse :=
  match compared with
  | Err msg => Err ("Failed to check sync status: " ++ msg)%string
  | Ok data =>
      let behindBy := or_zero (behind_by data) in
      let aheadBy := or_zero (ahead_by data) in
      Ok {| status := classify behindBy aheadBy;
            behindBy := behindBy;
            aheadBy := aheadBy;
            commitList :=
              match commits data with
              | Some cs => List.map summarize cs
              | None => []
              end |}
  end.

End ForkManagement.

(** ** github.ts: the request wrapper of [GitHubClient] *)
Module GitHub.
Local Open Scope Z_scope.

Record GitHubErrorResponse := { resp_message : string }.

(** What the wrapped operation rejects with: [status] and [response] are
    both optional on the error object. *)
Record Thrown := {
  thrown_status : option Z;
  thrown_response : option GitHubErrorResponse
}.

Record GitHubError := {
  status : Z;
  response : GitHubErrorResponse;
  message : string
}.

Inductive RequestError :=
| Typed (e : GitHubError)
| Unexpected.                (* Error('Unexpected error in request') *)

Record GitHubClientOptions := {
  opt_maxRetries : option Z;
  opt_retryDelay : option Z
}.

Record GitHubClient := {
  maxRetries : Z;
  retryDelay : Z
}.

(** [x || d] on an optional number: [undefined] and [0] give [d]. *)
Definition or_default (x : option Z) (d : Z) : Z :=
  match x with
  | Some v => if v =? 0 then d else v
  | None => d
  end.

Definition constructor (options : GitHubClientOptions) : GitHubClient :=
  {| maxRetries := or_default (opt_maxRetries options) 3;
     retryDelay := or_default (opt_retryDelay options) 1000 |}.

(** [createGitHubClient(token)]: no retry option given. *)
Definition createGitHubClient : GitHubClient :=
  constructor {| opt_maxRetries := None; opt_retryDelay := None |}.

Definition isRetryableStatus (status : Z) : bool :=
  existsb (Z.eqb status) [500; 502; 503; 504].

Definition userMessage (status : Z) : string :=
  if status =? 401 then "Your session expired. Please log in again."
  else if status =? 403 then "API rate limit exceeded. Please try again in a few minutes."
  else if status =? 404 then "File or repository not found. Please sync your fork."
  else if status =? 409 then "This file was updated by someone else. Please refresh."
  else if status =? 422 then "Invalid file content. Please check your changes."
  else if status =? 500 then "GitHub is experiencing issues. Your work is saved locally."
  else "An error occurred. Please try again.".

Definition handleError (error : Thrown) : GitHubError :=
  let status := or_default (thrown_status error) 500 in
  {| status := status;
     response :=
       match thrown_response error with
       | Some r => r
       | None => {| resp_message := "Unknown error" |}
       end;
     message := userMessage status |}.

(** What one run of [request] does to the outside world, in order. *)
Inductive Event :=
| Call                              (* one invocation of the wrapped operation *)
| Log (attempt : Z) (delay : Z)     (* console.log of the retry *)
| Sleep (ms : Z)
| Warn (msg : string).              (* rate-limit warning *)

Definition calls (trace : list Event) : nat :=
  List.length (List.filter (fun e => match e with Call => true | _ => false end) trace).

Section Request.
(** The response type of the wrapped operation, and the warnings
    [checkRateLimits] emits for a response (none when it carries no
    headers). *)
Variable T : Type.
Variable checkRateLimits : T -> list string.

(** The wrapped operation: the outcome of its [k]-th invocation. *)
Variable fn : nat -> result Thrown T.

(** The body of the [for] loop at [attempt], with [remaining] iterations
    before [attempt < maxAttempts] fails. *)
Fixpoint request_loop (client : GitHubClient) (maxAttempts : Z)
    (remaining : nat) (attempt : Z) : list Event * result RequestError T :=
  match remaining with
  | O => ([], Err Unexpected)
  | S remaining' =>
      match fn (Z.to_nat attempt) with
      | Ok response =>
          (Call :: List.map Warn (checkRateLimits response), Ok response)
      | Err error =>
          let isRetryable := isRetryableStatus (or_default (thrown_status error) 0) in
          let isLastAttempt := attempt =? maxAttempts - 1 in
          if isRetryable && negb isLastAttempt then
            let delay := 2 ^ attempt * retryDelay client in
            let '(trace, res) :=
              request_loop client maxAttempts remaining' (attempt + 1) in
            (Call :: Log (attempt + 1) delay :: Sleep delay :: trace, res)
          else ([Call], Err (Typed (handleError error)))
      end
  end.

Definition request (client : GitHubClient) (retries : option Z)
  : list Event * result RequestError T :=
  let maxAttempts :=
    match retries with
    | Some r => r
    | None => maxRetries client
    end in
  request_loop client maxAttempts (Z.to_nat maxAttempts) 0.
End Request.

End GitHub.

(** ** validation.ts *)
Module Validation.
Import Js.
Local Open Scope Z_scope.

(** *** [path.basename] (Node, POSIX flavour)

    The library scans the path from its last code unit: trailing slashes are
    skipped, [end] is set at the first other unit, and the scan stops at the
    next slash.  [i] is the number of units still to visit. *)
Definition slash : N := 47%N.

Fixpoint basename_scan (path : jsstring) (i : nat) (end_ : option nat)
    (matchedSlash : bool) : nat * option nat :=
  match i with
  | O => (O, end_)
  | S j =>
      if bool_decide (path !! j = Some slash) then
        if negb matchedSlash then (S j, end_)
        else basename_scan path j end_ matchedSlash
      else
        match end_ with
        | None => basename_scan path j (Some (S j)) false
        | Some _ => basename_scan path j end_ matchedSlash
        end
  end.

Definition basename (path : jsstring) : jsstring :=
  match basename_scan path (List.length path) None true with
  | (_, None) => []
  | (start, Some e) => slice start e path
  end.

Definition sanitizeFilename (filename : jsstring) : result string jsstring :=
  let normalized := basename filename in
  if negb (eqb normalized filename) then
    Err "Invalid filename: path traversal detected"%string
  else if includes normalized (lit "..") || includes normalized (lit "/")
          || includes normalized (lit "\") then
    Err "Invalid filename: contains prohibited characters"%string
  else if eqb normalized [] || eqb (trim normalized) [] then
    Err "Invalid filename: cannot be empty"%string
  else Ok normalized.

(** *** The in-memory rate limiter *)
Record RateEntry := { count : Z; resetAt : Z }.

Record RateLimitResult := {
  success : bool;
  limit : Z;
  remaining : Z;
  reset : Z
}.

(** [checkRateLimit], with the clock reading [now] and the module-level
    [rateLimitStore] made explicit. *)
Definition checkRateLimit (now : Z) (identifier : string) (limit windowMs : Z)
    (store : gmap string RateEntry) : RateLimitResult * gmap string RateEntry :=
  let existing := store !! identifier in
  let expired :=
    match existing with
    | Some e => resetAt e <? now
    | None => false
    end in
  let store := if expired then delete identifier store else store in
  match existing with
  | Some e =>
      if resetAt e <? now then
        ({| success := true; limit := limit; remaining := limit - 1;
            reset := now + windowMs |},
         <[identifier := {| count := 1; resetAt := now + windowMs |}]> store)
      else
        let e' := {| count := count e + 1; resetAt := resetAt e |} in
        let store := <[identifier := e']> store in
        if limit <? count e' then
          ({| success := false; limit := limit; remaining := 0;
              reset := resetAt e' |}, store)
        else
          ({| success := true; limit := limit; remaining := limit - count e';
              reset := resetAt e' |}, store)
  | None =>
      ({| success := true; limit := limit; remaining := limit - 1;
          reset := now + windowMs |},
       <[identifier := {| count := 1; resetAt := now + windowMs |}]> store)
  end.

(** A run of calls, each with its own clock reading, identifier, limit and
    window length, threading the store; the results come back in order. *)
Record RateCall := {
  at_time : Z;
  who : string;
  with_limit : Z;
  with_window : Z
}.

Fixpoint run (calls : list RateCall) (store : gmap string RateEntry)
  : list RateLimitResult * gmap string RateEntry :=
  match calls with
  | [] => ([], store)
  | c :: rest =>
      let '(r, store') :=
        checkRateLimit (at_time c) (who c) (with_limit c) (with_window c) store in
      let '(rs, store'') := run rest store' in
      (r :: rs, store'')
  end.

End Validation.

(** ** The members every plain object inherits *)
Module ObjectPrototype.

(** The property names of [Object.prototype].  On a plain object [o] that
    has no own property [k], the lookup [o[k]] finds the member of this name
    (a function, or for [__proto__] the prototype itself: a truthy value
    either way), and the assignment [o['__proto__'] = v] runs the setter of
    the prototype instead of creating a property. *)
Definition members : list string :=
  ["constructor"; "__defineGetter__"; "__defineSetter__"; "hasOwnProperty";
   "__lookupGetter__"; "__lookupSetter__"; "isPrototypeOf"; "propertyIsEnumerable";
   "toString"; "valueOf"; "__proto__"; "toLocaleString"]%string.

Definition has (k : string) : bool := existsb (String.eqb k) members.

End ObjectPrototype.

(** ** translation.ts: markdown segmentation around the translation service *)
Module Translation.
Import Js.

Definition newline : N := 10%N.
Definition fence : jsstring := lit "```".

(** [line.trim().startsWith('```')] *)
Definition is_fence_line (line : jsstring) : bool := startsWith (trim line) fence.

Definition nonempty (s : jsstring) : bool :=
  match s with
  | [] => false
  | _ :: _ => true
  end.

(** The three variables the loop of [splitMarkdownSections] updates. *)
Record SplitState := {
  sections : list jsstring;
  currentSection : jsstring;
  inCodeBlock : bool
}.

(** [sections.push({content: currentSection}); currentSection = ''] *)
Definition push (st : SplitState) : SplitState :=
  {| sections := sections st ++ [currentSection st];
     currentSection := [];
     inCodeBlock := inCodeBlock st |}.

(** [currentSection += line + '\n'] *)
Definition append_line (line : jsstring) (st : SplitState) : SplitState :=
  {| sections := sections st;
     currentSection := currentSection st ++ line ++ [newline];
     inCodeBlock := inCodeBlock st |}.

Definition toggle (st : SplitState) : SplitState :=
  {| sections := sections st;
     currentSection := currentSection st;
     inCodeBlock := negb (inCodeBlock st) |}.

(** One iteration of [for (const line of lines)]. *)
Definition split_step (st : SplitState) (line : jsstring) : SplitState :=
  if is_fence_line line then
    let st := if nonempty (currentSection st) then push st else st in
    let st := append_line line (toggle st) in
    if negb (inCodeBlock st) then push st else st
  else if inCodeBlock st then append_line line st
  else
    let st := append_line line st in
    if eqb (trim line) [] || startsWith (trim line) (lit "#") then
      if nonempty (trim (currentSection st)) then push st else st
    else st.

Definition split_init : SplitState :=
  {| sections := []; currentSection := []; inCodeBlock := false |}.

Definition splitMarkdownSections (markdown : jsstring) : list jsstring :=
  let st := fold_left split_step (split newline markdown) split_init in
  if nonempty (trim (currentSection st)) then sections st ++ [currentSection st]
  else sections st.

Definition shouldSkipTranslation (content : jsstring) : bool :=
  let trimmed := trim content in
  if startsWith trimmed fence || includes trimmed fence then true
  else if startsWith trimmed (lit "http://") || startsWith trimmed (lit "https://") then true
  else if negb (nonempty trimmed) then true
  else if negb (has_three_letters trimmed) then true
  else false.

(** What [LANGUAGE_MAP[languageCode]] evaluates to when it is not
    [undefined]: a DeepL code of the table, or, the table being a plain
    object, the member of [Object.prototype] of that name. *)
Inductive MapValue :=
| Code (deeplLang : string)
| Member (name : string).

Definition LANGUAGE_MAP (languageCode : string) : option MapValue :=
  List.fold_right
    (fun '(code, target) rest =>
       if String.eqb languageCode code then Some (Code target) else rest)
    (if ObjectPrototype.has languageCode then Some (Member languageCode) else None)
    [("es-ES", "ES"); ("ar-SA", "AR"); ("fr-FR", "FR"); ("de-DE", "DE");
     ("zh-CN", "ZH"); ("ja-JP", "JA"); ("pt-BR", "PT-BR"); ("he-IL", "HE");
     ("it-IT", "IT"); ("ko-KR", "KO"); ("nl-NL", "NL"); ("pl-PL", "PL");
     ("ru-RU", "RU"); ("tr-TR", "TR")]%string.

Section Service.
(** The DeepL client: absent without an API key; otherwise, for a text and
    the value [getTargetLanguage] found in [LANGUAGE_MAP] (the code hands it
    on as it is), the translated text or the message of the error it
    threw. *)
Variable translator : option (jsstring -> MapValue -> result string jsstring).

Definition translateText (text : jsstring) (targetLanguage : string)
  : result string jsstring :=
  let wrap msg := Err ("Failed to translate text: " ++ msg)%string in
  match translator with
  | None =>
      wrap "DeepL API key not configured. Please set DEEPL_API_KEY environment variable."%string
  | Some deepl =>
      match LANGUAGE_MAP targetLanguage with
      | None => wrap ("Unsupported language: " ++ targetLanguage)%string
      | Some deeplLang =>
          match deepl text deeplLang with
          | Ok text' => Ok text'
          | Err msg => wrap msg
          end
      end
  end.

Definition translateSection (targetLanguage : string) (content : jsstring)
  : result string jsstring :=
  if shouldSkipTranslation content then Ok content
  else translateText content targetLanguage.

(** [Promise.all] over the sections: every result, in order, when all
    sections fulfil.  Otherwise it rejects with the reason of the section
    that rejected first in time, which the code does not decide: the
    reasons of all the rejected sections are given, in section order. *)
Fixpoint all_sections (targetLanguage : string) (secs : list jsstring)
  : result (list string) (list jsstring) :=
  match secs with
  | [] => Ok []
  | s :: rest =>
      match translateSection targetLanguage s, all_sections targetLanguage rest with
      | Ok t, Ok ts => Ok (t :: ts)
      | Ok _, Err msgs => Err msgs
      | Err msg, Ok _ => Err [msg]
      | Err msg, Err msgs => Err (msg :: msgs)
      end
  end.

(** [translateMarkdown]: the translated document, or the messages the error
    it throws can carry, one for each section that was rejected. *)
Definition translateMarkdown (markdown : jsstring) (targetLanguage : string)
  : result (list string) jsstring :=
  match all_sections targetLanguage (splitMarkdownSections markdown) with
  | Ok translatedSections => Ok (join translatedSections)
  | Err msgs =>
      Err (List.map (fun msg => "Failed to translate markdown: " ++ msg)%string msgs)
  end.
End Service.

End Translation.

(** ** JavaScript numbers where the code leaves the integers *)
Module Number.
Local Open Scope Z_scope.

Definition prec : Z := 53.
Definition emax : Z := 1024.

(** The double nearest to an integer (exact below [2^53]). *)
Definition of_int (z : Z) : spec_float := binary_normalize prec emax z 0 false.

Definition div : spec_float -> spec_float -> spec_float := SFdiv prec emax.
Definition mul : spec_float -> spec_float -> spec_float := SFmul prec emax.
Definition add : spec_float -> spec_float -> spec_float := SFadd prec emax.

(** The rational a finite double stands for. *)
Definition value (s : bool) (m : positive) (e : Z) : Q :=
  (inject_Z (cond_Zopp s (Z.pos m)) * 2 ^ e)%Q.

(** [Math.round]: the integer nearest to [x], a tie going towards
    [+Infinity]; zeros, infinities and NaN are returned as they are, and a
    result of zero keeps the sign of [x]. *)
Definition Math_round (x : spec_float) : spec_float :=
  match x with
  | S754_finite s m e =>
      let n := Qfloor (value s m e + (1 # 2))%Q in
      if n =? 0 then S754_zero s else of_int n
  | _ => x
  end.

End Number.

(** ** Objects used as string-keyed records *)
Module Obj.
Section Obj.
Context {V : Type}.

(** [o[k]] for an own property [k], and [None] when [o] has no own
    property [k]: the lookup of the code then gives [undefined], unless [k]
    is a member of [Object.prototype] ([ObjectPrototype.has]), which it
    finds instead. *)
Fixpoint get (k : string) (o : list (string * V)) : option V :=
  match o with
  | [] => None
  | (k', v) :: o' => if String.eqb k' k then Some v else get k o'
  end.

(** [o[k] = v] for a [k] other than [__proto__] (that assignment creates no
    property): an existing property keeps its place, a new one goes
    last. *)
Fixpoint set (k : string) (v : V) (o : list (string * V)) : list (string * V) :=
  match o with
  | [] => [(k, v)]
  | (k', v') :: o' =>
      if String.eqb k' k then (k', v) :: o' else (k', v') :: set k v o'
  end.

Definition keys (o : list (string * V)) : list string := List.map fst o.
Definition values (o : list (string * V)) : list V := List.map snd o.
End Obj.
End Obj.

(** ** translation-metadata.ts *)
Module Metadata.
Local Open Scope Z_scope.

Inductive FileStatus := not_started | in_progress | complete.

Definition status_eqb (a b : FileStatus) : bool :=
  match a, b with
  | not_started, not_started | in_progress, in_progress | complete, complete => true
  | _, _ => false
  end.

Inductive Direction := ltr | rtl.

Record TranslationFileMetadata := {
  status : FileStatus;
  lastUpdated : option Z;
  lastContributor : option string;
  lastCommitSha : option string;
  prNumber : option Z;
  prUrl : option string;
  wordCount : Z;
  machineTranslated : bool;
  humanReviewed : bool
}.

(** [Partial<TranslationFileMetadata>]: each property present or not. *)
Record PartialFileMetadata := {
  u_status : option FileStatus;
  u_lastUpdated : option (option Z);
  u_lastContributor : option (option string);
  u_lastCommitSha : option (option string);
  u_prNumber : option (option Z);
  u_prUrl : option (option string);
  u_wordCount : option Z;
  u_machineTranslated : option bool;
  u_humanReviewed : option bool
}.

Record TranslationStats := {
  totalFiles : Z;
  completed : Z;
  inProgress : Z;
  notStarted : Z;
  percentComplete : spec_float;
  totalWords : Z;
  translatedWords : Z;
  contributors : list string
}.

Record TranslationMeta := {
  machineTranslationService : string;
  machineTranslationDate : Z;
  sourceCommitSha : string;
  notes : string
}.

Record TranslationMetadata := {
  version : string;
  language : string;
  languageName : string;
  direction : Direction;
  project : string;
  coordinator : string;
  initialized : Z;
  docLastUpdated : Z;           (* the document's own [lastUpdated] *)
  files : list (string * TranslationFileMetadata);
  stats : TranslationStats;
  meta : TranslationMeta
}.

(** The entry both [createInitialTranslationMetadata] and
    [updateFileMetadata] start a file from; they differ in
    [machineTranslated]. *)
Definition blank_entry (machine : bool) : TranslationFileMetadata :=
  {| status := not_started;
     lastUpdated := None;
     lastContributor := None;
     lastCommitSha := None;
     prNumber := None;
     prUrl := None;
     wordCount := 0;
     machineTranslated := machine;
     humanReviewed := false |}.

(** [createInitialTranslationMetadata]; its [project] argument is not used
    by the code and is left out, and [now] is the one clock reading.  Each
    assignment [filesMetadata[filename] = ...] creates or replaces a
    property, as it does for a [filename] other than [__proto__]. *)
Definition createInitialTranslationMetadata (now : Z)
    (projectSlug languageCode languageName : string) (direction : Direction)
    (coordinator : string) (files : list string) (sourceCommitSha : string)
  : TranslationMetadata :=
  let filesMetadata :=
    fold_left (fun acc filename => Obj.set filename (blank_entry true) acc) files [] in
  let stats :=
    {| totalFiles := Z.of_nat (List.length files);
       completed := 0;
       inProgress := 0;
       notStarted := Z.of_nat (List.length files);
       percentComplete := Number.of_int 0;
       totalWords := 0;
       translatedWords := 0;
       contributors := [] |} in
  {| version := "1.0";
     language := languageCode;
     languageName := languageName;
     direction := direction;
     project := projectSlug;
     coordinator := coordinator;
     initialized := now;
     docLastUpdated := now;
     files := filesMetadata;
     stats := stats;
     meta := {| machineTranslationService := "DeepL";
                machineTranslationDate := now;
                sourceCommitSha := sourceCommitSha;
                notes := "Initialized with machine translation" |} |}.

(** [fileArray.filter(f => f.status === s).length] *)
Definition count_status (s : FileStatus) (fileArray : list TranslationFileMetadata) : Z :=
  Z.of_nat (List.length (List.filter (fun f => status_eqb (status f) s) fileArray)).

(** [fileArray.reduce((sum, f) => sum + f.wordCount, 0)] on integers: the
    sum the code computes as long as the additions are exact
    ([safe_words]). *)
Definition sum_words (fileArray : list TranslationFileMetadata) : Z :=
  fold_left (fun sum f => sum + wordCount f) fileArray 0.

(** The same [reduce] on the doubles the code adds. *)
Definition sum_words_double (fileArray : list TranslationFileMetadata) : spec_float :=
  fold_left (fun sum f => Number.add sum (Number.of_int (wordCount f))) fileArray
    (Number.of_int 0).

(** Word counts whose additions are exact: none is negative and their sum
    is a safe integer, one below [2^53]. *)
Definition safe_words (fileArray : list TranslationFileMetadata) : bool :=
  forallb (fun f => 0 <=? wordCount f) fileArray && (sum_words fileArray <? 2 ^ 53).

(** [contributorsSet.add(c)]: a [Set] keeps first-insertion order. *)
Definition set_add (c : string) (s : list string) : list string :=
  if existsb (String.eqb c) s then s else s ++ [c].

(** [if (f.lastContributor) contributorsSet.add(f.lastContributor)]: [null]
    and the empty string are both falsy. *)
Definition add_contributor (s : list string) (f : TranslationFileMetadata) : list string :=
  match lastContributor f with
  | Some c => if String.eqb c "" then s else set_add c s
  | None => s
  end.

Definition calculateStats (files : list (string * TranslationFileMetadata))
  : TranslationStats :=
  let fileArray := Obj.values files in
  let totalFiles := Z.of_nat (List.length fileArray) in
  let completed := count_status complete fileArray in
  let inProgress := count_status in_progress fileArray in
  let notStarted := count_status not_started fileArray in
  let percentComplete :=
    if 0 <? totalFiles then
      Number.Math_round
        (Number.mul (Number.div (Number.of_int completed) (Number.of_int totalFiles))
                    (Number.of_int 100))
    else Number.of_int 0 in
  let totalWords := sum_words fileArray in
  let translatedWords :=
    sum_words (List.filter (fun f => status_eqb (status f) complete) fileArray) in
  let contributorsSet := fold_left add_contributor fileArray [] in
  {| totalFiles := totalFiles;
     completed := completed;
     inProgress := inProgress;
     notStarted := notStarted;
     percentComplete := percentComplete;
     totalWords := totalWords;
     translatedWords := translatedWords;
     contributors := contributorsSet |}.

Definition override {A : Type} (u : option A) (old : A) : A :=
  match u with
  | Some v => v
  | None => old
  end.

(** [{ ...entry, ...updates, lastUpdated: now }] *)
Definition merge_entry (now : Z) (entry : TranslationFileMetadata)
    (updates : PartialFileMetadata) : TranslationFileMetadata :=
  {| status := override (u_status updates) (status entry);
     lastUpdated := Some now;
     lastContributor := override (u_lastContributor updates) (lastContributor entry);
     lastCommitSha := override (u_lastCommitSha updates) (lastCommitSha entry);
     prNumber := override (u_prNumber updates) (prNumber entry);
     prUrl := override (u_prUrl updates) (prUrl entry);
     wordCount := override (u_wordCount updates) (wordCount entry);
     machineTranslated := override (u_machineTranslated updates) (machineTranslated entry);
     humanReviewed := override (u_humanReviewed updates) (humanReviewed entry) |}.

(** [updateFileMetadata]; [now_entry] and [now_doc] are the two clock
    readings, taken in this order.  The test [!updatedFiles[filename]] is
    the absence of an own property, as it is for a [filename] that is not a
    member of [Object.prototype]. *)
Definition updateFileMetadata (now_entry now_doc : Z) (metadata : TranslationMetadata)
    (filename : string) (updates : PartialFileMetadata) : TranslationMetadata :=
  let updatedFiles := files metadata in
  let updatedFiles :=
    match Obj.get filename updatedFiles with
    | None => Obj.set filename (blank_entry false) updatedFiles
    | Some _ => updatedFiles
    end in
  let updatedFiles :=
    match Obj.get filename updatedFiles with
    | Some entry => Obj.set filename (merge_entry now_entry entry updates) updatedFiles
    | None => updatedFiles  (* unreachable: the property was just created *)
    end in
  let stats := calculateStats updatedFiles in
  {| version := version metadata;
     language := language metadata;
     languageName := languageName metadata;
     direction := direction metadata;
     project := project metadata;
     coordinator := coordinator metadata;
     initialized := initialized metadata;
     docLastUpdated := now_doc;
     files := updatedFiles;
     stats := stats;
     meta := meta metadata |}.

End Metadata.

(** ** file-processing.ts: the word-count pass of [initializeLanguage] *)
Module FileProcessing.
Import Metadata.
Local Open Scope Z_scope.







End FileProcessing.

(** ** [updateFileMetadata] on the object graph

    The documents are JavaScript objects that share structure: the spread
    [{ ...metadata.files }] copies references to the file entries, not the
    entries.  This module runs [updateFileMetadata] on a store of objects, to
    state what the function leaves untouched; [Metadata.updateFileMetadata]
    is the same function on the values the objects stand for. *)
Module MetadataHeap.
Import Metadata.

(** References are positions in the store. *)
Abbreviation loc := nat (only parsing).

(** The top-level object: the nested objects are held by reference. *)
Record DocObject := {
  o_version : string;
  o_language : string;
  o_languageName : string;
  o_direction : Direction;
  o_project : string;
  o_coordinator : string;
  o_initialized : Z;
  o_lastUpdated : Z;
  o_files : loc;
  o_stats : loc;
  o_meta : loc
}.

Inductive cell :=
| FileCell (f : TranslationFileMetadata)
| FilesCell (props : list (string * loc))
| StatsCell (s : TranslationStats)
| MetaCell (m : TranslationMeta)
| DocCell (d : DocObject).

Abbreviation heap := (list cell) (only parsing).

(** Computations on the store; [None] is a [TypeError] (a reference that
    does not hold the kind of object the code expects). *)
Definition M (A : Type) : Type := heap -> option (A * heap).

#[global] Instance M_ret : MRet M := fun A a h => Some (a, h).
#[global] Instance M_bind : MBind M := fun A B f m h =>
  match m h with
  | Some (a, h') => f a h'
  | None => None
  end.

Definition alloc (c : cell) : M loc := fun h => Some (List.length h, h ++ [c]).

Definition read (l : loc) : M cell := fun h =>
  match h !! l with
  | Some c => Some (c, h)
  | None => None
  end.

Definition write (l : loc) (c : cell) : M unit := fun h =>
  match h !! l with
  | Some _ => Some (tt, <[l := c]> h)
  | None => None
  end.

Definition fail {A : Type} : M A := fun _ => None.

Definition read_doc (l : loc) : M DocObject :=
  c ← read l; match c with DocCell d => mret d | _ => fail end.

Definition read_props (l : loc) : M (list (string * loc)) :=
  c ← read l; match c with FilesCell props => mret props | _ => fail end.

Definition read_file (l : loc) : M TranslationFileMetadata :=
  c ← read l; match c with FileCell f => mret f | _ => fail end.

(** [obj[name] = ref] on the files object at [l]. *)
Definition set_prop (l : loc) (name : string) (ref : loc) : M unit :=
  props ← read_props l; write l (FilesCell (Obj.set name ref props)).

(** The entries behind a list of properties, in property order. *)
Fixpoint read_entries (props : list (string * loc))
  : M (list (string * TranslationFileMetadata)) :=
  match props with
  | [] => mret []
  | (name, l) :: rest =>
      f ← read_file l; fs ← read_entries rest; mret ((name, f) :: fs)
  end.

Definition updateFileMetadata (now_entry now_doc : Z) (metadata : loc)
    (filename : string) (updates : PartialFileMetadata) : M loc :=
  d ← read_doc metadata;
  props ← read_props (o_files d);
  updatedFiles ← alloc (FilesCell props);
  _ ← match Obj.get filename props with
      | None =>
          blank ← alloc (FileCell (blank_entry false));
          set_prop updatedFiles filename blank
      | Some _ => mret tt
      end;
  props ← read_props updatedFiles;
  match Obj.get filename props with
  | None => fail
  | Some current =>
      entry ← read_file current;
      merged ← alloc (FileCell (merge_entry now_entry entry updates));
      _ ← set_prop updatedFiles filename merged;
      props ← read_props updatedFiles;
      entries ← read_entries props;
      stats ← alloc (StatsCell (calculateStats entries));
      alloc (DocCell {| o_version := o_version d;
                        o_language := o_language d;
                        o_languageName := o_languageName d;
                        o_direction := o_direction d;
                        o_project := o_project d;
                        o_coordinator := o_coordinator d;
                        o_initialized := o_initialized d;
                        o_lastUpdated := now_doc;
                        o_files := updatedFiles;
                        o_stats := stats;
                        o_meta := o_meta d |})
  end.

(** The document value an object stands for in a store. *)
Definition denote (h : heap) (l : loc) : option TranslationMetadata :=
  match
    (d ← read_doc l;
     props ← read_props (o_files d);
     entries ← read_entries props;
     s ← (c ← read (o_stats d); match c with StatsCell s => mret s | _ => fail end);
     m ← (c ← read (o_meta d); match c with MetaCell m => mret m | _ => fail end);
     mret {| version := o_version d;
             language := o_language d;
             languageName := o_languageName d;
             direction := o_direction d;
             project := o_project d;
             coordinator := o_coordinator d;
             initialized := o_initialized d;
             docLastUpdated := o_lastUpdated d;
             files := entries;
             stats := s;
             meta := m |}) h
  with
  | Some (doc, _) => Some doc
  | None => None
  end.

End MetadataHeap.

(** * Reference definitions

    The specification's own wording of the quantities the code computes, to
    compare the code with. *)
Module Reference.
Import ForkManagement.

Definition status_of (r : result string SyncStatusResponse) : option SyncStatus :=
  match r with
  | Ok resp => Some (status resp)
  | Err _ => None
  end.

(** The four-way table, on commit counts. *)
Definition sync_table (behindBy aheadBy : nat) : SyncStatus :=
  match behindBy, aheadBy with
  | O, O => identical
  | S _, O => behind
  | O, S _ => ahead
  | S _, S _ => diverged
  end.

(** A count the platform may have left out. *)
Definition count_or_zero (x : option nat) : nat :=
  match x with
  | Some n => n
  | None => O
  end.

(** A rejection the retry loop considers transient. *)
Definition retryable (e : GitHub.Thrown) : Prop :=
  GitHub.isRetryableStatus (GitHub.or_default (GitHub.thrown_status e) 0) = true.

(** The [k]-th invocation of the wrapped operation rejects with this status. *)
Definition fails_with {T : Type} (fn : nat -> result GitHub.Thrown T)
    (status : Z) (k : nat) : Prop :=
  exists e, fn k = Err e /\ GitHub.thrown_status e = Some status.

(** A wrapped operation that rejects with [status] on its first [failures]
    invocations and resolves with [v] afterwards. *)
Definition flaky {T : Type} (status : Z) (failures : nat) (v : T)
    (k : nat) : result GitHub.Thrown T :=
  if (k <? failures)%nat
  then Err {| GitHub.thrown_status := Some status; GitHub.thrown_response := None |}
  else Ok v.

(** The [success] flags of the calls made for [identifier], in call order. *)
Fixpoint successes_of (identifier : string) (calls : list Validation.RateCall)
    (results : list Validation.RateLimitResult) : list bool :=
  match calls, results with
  | c :: cs, r :: rs =>
      if String.eqb (Validation.who c) identifier
      then Validation.success r :: successes_of identifier cs rs
      else successes_of identifier cs rs
  | _, _ => []
  end.

Definition count_true (l : list bool) : nat := List.length (List.filter id l).

(** The call finds no live window for its identifier, and so opens one. *)
Definition opens_window (store : gmap string Validation.RateEntry)
    (c : Validation.RateCall) : Prop :=
  match store !! Validation.who c with
  | None => True
  | Some e => (Validation.resetAt e < Validation.at_time c)%Z
  end.

(** If the call is for [identifier], it uses the limit [lim] and comes no
    later than the instant [closes] at which the window ends. *)
Definition in_window (identifier : string) (lim closes : Z)
    (c : Validation.RateCall) : Prop :=
  Validation.who c = identifier ->
  Validation.with_limit c = lim /\ (Validation.at_time c <= closes)%Z.


(** How many of the calls are for [identifier]. *)
Definition calls_for (identifier : string) (cs : list Validation.RateCall) : nat :=
  List.length (List.filter (fun c => String.eqb (Validation.who c) identifier) cs).

(** What a window that has already counted [count] calls answers to the next
    [n] calls. *)
Fixpoint window_outcomes (lim count : Z) (n : nat) : list bool :=
  match n with
  | O => []
  | S n' => negb (lim <? count + 1)%Z :: window_outcomes lim (count + 1) n'
  end.

(** *** The aggregation of the statistics, as the specification words it *)

(** How many entries satisfy [p]. *)
Fixpoint count_where (p : Metadata.TranslationFileMetadata -> bool)
    (l : list Metadata.TranslationFileMetadata) : Z :=
  match l with
  | [] => 0
  | f :: l' => ((if p f then 1 else 0) + count_where p l')%Z
  end.

(** The sum of [wordCount] over the entries that satisfy [p]. *)
Fixpoint words_where (p : Metadata.TranslationFileMetadata -> bool)
    (l : list Metadata.TranslationFileMetadata) : Z :=
  match l with
  | [] => 0
  | f :: l' => ((if p f then Metadata.wordCount f else 0) + words_where p l')%Z
  end.

Definition has_status (s : Metadata.FileStatus) (f : Metadata.TranslationFileMetadata) : bool :=
  Metadata.status_eqb (Metadata.status f) s.

Definition any_file (f : Metadata.TranslationFileMetadata) : bool := true.

(** The nearest integer, a tie going up. *)
Definition round_half_up (q : Q) : Z := Qfloor (q + (1 # 2)).

(** [completed / totalFiles * 100] as a rational number. *)
Definition exact_percent (completed totalFiles : Z) : Q :=
  (inject_Z completed / inject_Z totalFiles * 100)%Q.

(** The fields of an entry that the statistics read. *)
Definition counted_fields (f : Metadata.TranslationFileMetadata)
  : Metadata.FileStatus * Z * option string :=
  (Metadata.status f, Metadata.wordCount f, Metadata.lastContributor f).

(** An entry with its timestamp replaced. *)
Definition with_lastUpdated (t : option Z) (f : Metadata.TranslationFileMetadata)
  : Metadata.TranslationFileMetadata :=
  {| Metadata.status := Metadata.status f;
     Metadata.lastUpdated := t;
     Metadata.lastContributor := Metadata.lastContributor f;
     Metadata.lastCommitSha := Metadata.lastCommitSha f;
     Metadata.prNumber := Metadata.prNumber f;
     Metadata.prUrl := Metadata.prUrl f;
     Metadata.wordCount := Metadata.wordCount f;
     Metadata.machineTranslated := Metadata.machineTranslated f;
     Metadata.humanReviewed := Metadata.humanReviewed f |}.

(** Structural equality of doubles (not the IEEE comparison: the zeros
    differ, NaN equals itself). *)
Definition same_double (x y : spec_float) : bool :=
  match x, y with
  | S754_zero s, S754_zero s' => Bool.eqb s s'
  | S754_infinity s, S754_infinity s' => Bool.eqb s s'
  | S754_nan, S754_nan => true
  | S754_finite s m e, S754_finite s' m' e' =>
      Bool.eqb s s' && Pos.eqb m m' && Z.eqb e e'
  | _, _ => false
  end.

(** The percentage as [calculateStats] computes it from the two counts. *)
Definition percent_of (completed totalFiles : Z) : spec_float :=
  Number.Math_round
    (Number.mul (Number.div (Number.of_int completed) (Number.of_int totalFiles))
                (Number.of_int 100)).

(** Every count of completed files out of a total of at most [bound] files
    (and at least one) passes the check [P]. *)
Definition all_counts (P : Z -> Z -> bool) (bound : nat) : bool :=
  forallb (fun t =>
    forallb (fun c => P (Z.of_nat c) (Z.of_nat (S t))) (seq 0 (S (S t))))
    (seq 0 bound).

(** The computed percentage is the exact one. *)
Definition percent_exact (completed totalFiles : Z) : bool :=
  same_double (percent_of completed totalFiles)
    (Number.of_int (round_half_up (exact_percent completed totalFiles))).

(** The exact percentage [100 * completed / totalFiles] falls half-way
    between two integers. *)
Definition is_tie (completed totalFiles : Z) : bool :=
  ((200 * completed) mod (2 * totalFiles) =? totalFiles)%Z.

(** The computed percentage is the exact one, or one below it at a tie. *)
Definition percent_near (completed totalFiles : Z) : bool :=
  percent_exact completed totalFiles
  || is_tie completed totalFiles
     && same_double (percent_of completed totalFiles)
          (Number.of_int (round_half_up (exact_percent completed totalFiles) - 1)).

(** A file name for each index: ["faa.md"], ["fab.md"], ... *)
Definition file_name (i : nat) : string :=
  String "f" (String (ascii_of_nat (97 + i / 26))
             (String (ascii_of_nat (97 + i mod 26)) ".md")).

(** [n] files, the first [k] of them complete and the others not started. *)
Definition some_complete (k n : nat) : list (string * Metadata.TranslationFileMetadata) :=
  List.map (fun i =>
    (file_name i,
     {| Metadata.status := if (i <? k)%nat then Metadata.complete else Metadata.not_started;
        Metadata.lastUpdated := None;
        Metadata.lastContributor := None;
        Metadata.lastCommitSha := None;
        Metadata.prNumber := None;
        Metadata.prUrl := None;
        Metadata.wordCount := 0;
        Metadata.machineTranslated := true;
        Metadata.humanReviewed := false |}))
    (seq 0 n).

(** The partial update [{ status: s }]. *)
Definition only_status (s : Metadata.FileStatus) : Metadata.PartialFileMetadata :=
  {| Metadata.u_status := Some s;
     Metadata.u_lastUpdated := None;
     Metadata.u_lastContributor := None;
     Metadata.u_lastCommitSha := None;
     Metadata.u_prNumber := None;
     Metadata.u_prUrl := None;
     Metadata.u_wordCount := None;
     Metadata.u_machineTranslated := None;
     Metadata.u_humanReviewed := None |}.





(** The entries a list of properties stands for in a store. *)
Definition entries_of (h : list MetadataHeap.cell) (props : list (string * nat))
    (entries : list (string * Metadata.TranslationFileMetadata)) : Prop :=
  Forall2 (fun p e => fst p = fst e /\ h !! snd p = Some (MetadataHeap.FileCell (snd e))) props entries.


(** A document of two files, and a store that holds it at reference 5. *)
Definition sample_document : Metadata.TranslationMetadata :=
  Metadata.createInitialTranslationMetadata 0 "docs" "es-ES" "Spanish" Metadata.ltr
    "maria" ["intro.md"; "setup.md"]%string "abc123".

Definition sample_store : list MetadataHeap.cell :=
  [MetadataHeap.MetaCell (Metadata.meta sample_document);
   MetadataHeap.StatsCell (Metadata.stats sample_document);
   MetadataHeap.FileCell (Metadata.blank_entry true);
   MetadataHeap.FileCell (Metadata.blank_entry true);
   MetadataHeap.FilesCell [("intro.md"%string, 2%nat); ("setup.md"%string, 3%nat)];
   MetadataHeap.DocCell
     {| MetadataHeap.o_version := "1.0";
        MetadataHeap.o_language := "es-ES";
        MetadataHeap.o_languageName := "Spanish";
        MetadataHeap.o_direction := Metadata.ltr;
        MetadataHeap.o_project := "docs";
        MetadataHeap.o_coordinator := "maria";
        MetadataHeap.o_initialized := 0;
        MetadataHeap.o_lastUpdated := 0;
        MetadataHeap.o_files := 4;
        MetadataHeap.o_stats := 1;
        MetadataHeap.o_meta := 0 |}].

(** *** Markdown documents as lines *)

(** The lines of a document, joined by newlines. *)
Fixpoint join_lines (lines : list Js.jsstring) : Js.jsstring :=
  match lines with
  | [] => []
  | [l] => l
  | l :: rest => l ++ Translation.newline :: join_lines rest
  end.

Definition no_newline (line : Js.jsstring) : Prop :=
  forallb (fun c => negb (N.eqb c Translation.newline)) line = true.

(** How many of the lines open or close a fence. *)
Definition fences (lines : list Js.jsstring) : nat :=
  List.length (List.filter Translation.is_fence_line lines).

(** The splitter's state with sections put in front of those it has
    collected. *)
Definition prepend (S : list Js.jsstring) (st : Translation.SplitState)
  : Translation.SplitState :=
  {| Translation.sections := S ++ Translation.sections st;
     Translation.currentSection := Translation.currentSection st;
     Translation.inCodeBlock := Translation.inCodeBlock st |}.

(** The text of consecutive lines, each followed by a newline. *)
Definition text_of (lines : list Js.jsstring) : Js.jsstring :=
  concat (List.map (fun l => l ++ [Translation.newline]) lines).

(** The section the splitter closes when a fence line arrives. *)
Definition flush (st : Translation.SplitState) : list Js.jsstring :=
  if Translation.nonempty (Translation.currentSection st)
  then [Translation.currentSection st] else [].

(** The last step of [splitMarkdownSections]. *)
Definition finish (st : Translation.SplitState) : list Js.jsstring :=
  if Translation.nonempty (Js.trim (Translation.currentSection st))
  then Translation.sections st ++ [Translation.currentSection st]
  else Translation.sections st.

(** A translator that marks what it was given. *)
Definition marking_translator
  : option (Js.jsstring -> Translation.MapValue -> result string Js.jsstring) :=
  Some (fun text target =>
          match target with
          | Translation.Code deeplLang =>
              Ok (Js.lit "<" ++ Js.lit deeplLang ++ Js.lit ">" ++ text)
          | Translation.Member _ => Err "targetLang is not a language code"%string
          end).

(** A translator that answers the same text whatever it is given. *)
Definition constant_translator (answer : Js.jsstring)
  : option (Js.jsstring -> Translation.MapValue -> result string Js.jsstring) :=
  Some (fun _ _ => Ok answer).

(** A document with a fenced code block after a paragraph that begins with
    an inline code span. *)
Definition after_inline_span : list Js.jsstring :=
  [Js.lit "```npm``` is the tool to use"; Js.lit "";
   Js.lit "```"; Js.lit "some example text"; Js.lit "```"].

End Reference.

(** * Further parts of the sources *)

(** ** More of [String.prototype]: [indexOf] and [replace] with a string pattern *)
Module JsText.
Import Js.

(** [s.indexOf(p)]: the first position at which [p] occurs. *)
Fixpoint indexOf (s p : jsstring) : option nat :=
  if startsWith s p then Some O
  else match s with
       | [] => None
       | _ :: s' => option_map S (indexOf s' p)
       end.

Definition dollar : N := 36%N.

(** [GetSubstitution] for a string pattern (no captures): in the replacement
    text, [$$] stands for a dollar sign, [$&] for the matched text, [$`] for
    the text before the match and [$'] for the text after it; every other
    unit, a dollar sign followed by anything else included, stands for
    itself. *)
Fixpoint getSubstitution (matched before after template : jsstring) : jsstring :=
  match template with
  | [] => []
  | c :: t =>
      if N.eqb c dollar then
        match t with
        | d :: t' =>
            if N.eqb d dollar then dollar :: getSubstitution matched before after t'
            else if N.eqb d 38 then matched ++ getSubstitution matched before after t'
            else if N.eqb d 96 then before ++ getSubstitution matched before after t'
            else if N.eqb d 39 then after ++ getSubstitution matched before after t'
            else c :: getSubstitution matched before after t
        | [] => [c]
        end
      else c :: getSubstitution matched before after t
  end.

(** [s.replace(pattern, replacement)] with a string pattern: the first
    occurrence only. *)
Definition replace (s pattern replacement : jsstring) : jsstring :=
  match indexOf s pattern with
  | None => s
  | Some pos =>
      let before := firstn pos s in
      let after := skipn (pos + List.length pattern) s in
      before ++ getSubstitution pattern before after replacement ++ after
  end.

End JsText.

(** ** Regular expressions, as far as the patterns of the sources go

    Character classes, sequence, alternative and repetition; a pattern
    anchored at both ends ([/^r$/], no flags) accepts a string when the whole
    string is in the language of [r], which is what the matcher decides by
    derivatives. *)
Module Regex.
Import Js.

Inductive regex :=
| Never
| Eps
| Class (p : N -> bool)
| Seq (r s : regex)
| Alt (r s : regex)
| Star (r : regex).

(** [r+] and a literal text. *)
Definition Plus (r : regex) : regex := Seq r (Star r).
Definition Chr (c : N) : regex := Class (N.eqb c).
Fixpoint Lit (s : jsstring) : regex :=
  match s with
  | [] => Eps
  | c :: s' => Seq (Chr c) (Lit s')
  end.

Fixpoint nullable (r : regex) : bool :=
  match r with
  | Never => false
  | Eps => true
  | Class _ => false
  | Seq r s => nullable r && nullable s
  | Alt r s => nullable r || nullable s
  | Star _ => true
  end.

Fixpoint deriv (c : N) (r : regex) : regex :=
  match r with
  | Never => Never
  | Eps => Never
  | Class p => if p c then Eps else Never
  | Seq r s =>
      if nullable r then Alt (Seq (deriv c r) s) (deriv c s)
      else Seq (deriv c r) s
  | Alt r s => Alt (deriv c r) (deriv c s)
  | Star r => Seq (deriv c r) (Star r)
  end.

(** [/^r$/.test(s)] *)
Fixpoint test (r : regex) (s : jsstring) : bool :=
  match s with
  | [] => nullable r
  | c :: s' => test (deriv c r) s'
  end.

(** The language of a pattern: the strings it matches in full. *)
Inductive lang : regex -> jsstring -> Prop :=
| lang_eps : lang Eps []
| lang_class p c : p c = true -> lang (Class p) [c]
| lang_seq r s u v : lang r u -> lang s v -> lang (Seq r s) (u ++ v)
| lang_alt_l r s u : lang r u -> lang (Alt r s) u
| lang_alt_r r s u : lang s u -> lang (Alt r s) u
| lang_star_nil r : lang (Star r) []
| lang_star_more r u v : lang r u -> lang (Star r) v -> lang (Star r) (u ++ v).

(** The character classes the patterns use. *)
Definition lower (c : N) : bool := ((97 <=? c) && (c <=? 122))%N.
Definition upper (c : N) : bool := ((65 <=? c) && (c <=? 90))%N.
Definition digit (c : N) : bool := ((48 <=? c) && (c <=? 57))%N.
(** [\w] *)
Definition word (c : N) : bool := lower c || upper c || digit c || N.eqb c 95.

End Regex.

(** ** validation.ts: the filename schema and the admin check *)
Module Schemas.
Import Js Regex.

(** [/^[a-zA-Z0-9_.-]+\.md$/], [min(1)], [max(255)] *)
Definition filenameChar (c : N) : bool :=
  lower c || upper c || digit c || N.eqb c 95 || N.eqb c 46 || N.eqb c 45.

Definition filenameSchema (s : jsstring) : bool :=
  test (Seq (Plus (Class filenameChar)) (Lit (lit ".md"))) s
  && (1 <=? List.length s) && (List.length s <=? 255).

End Schemas.

Module Authorization.
Import Js.

Definition comma : N := 44%N.

(** [isProjectAdmin] of validation.ts; [ADMIN_USERS] is the environment
    variable, [None] when it is not set. *)
Definition isProjectAdmin (ADMIN_USERS : option jsstring)
    (username projectSlug : jsstring) : bool :=
  let adminUsers :=
    match ADMIN_USERS with
    | Some v => List.map trim (split comma v)
    | None => []
    end in
  existsb (eqb username) adminUsers.

Definition requireProjectAdmin (ADMIN_USERS : option jsstring)
    (username projectSlug : jsstring) : result string unit :=
  if negb (isProjectAdmin ADMIN_USERS username projectSlug)
  then Err "Unauthorized: Admin access required"%string
  else Ok tt.

End Authorization.

(** ** config.ts *)
Module Config.
Import Js JsText.

Record ProjectConfig := {
  slug : jsstring;
  name : jsstring;
  githubRepo : jsstring;
  sourceBranch : jsstring;
  sourceFolder : jsstring;
  translationFolder : jsstring;
  tmpFolder : jsstring;
  filePattern : jsstring;
  priorityFiles : list jsstring
}.

(** [/^[\w-]+\/[\w-]+$/], the repository format [validateProjectConfig]
    requires. *)
Definition repoChar (c : N) : bool := Regex.word c || N.eqb c 45.

Definition repoPattern (s : jsstring) : bool :=
  Regex.test (Regex.Seq (Regex.Plus (Regex.Class repoChar))
               (Regex.Seq (Regex.Chr Validation.slash) (Regex.Plus (Regex.Class repoChar)))) s.

Definition getTmpFolderPath (project : ProjectConfig) (languageCode : jsstring)
  : jsstring :=
  replace (tmpFolder project) (lit "{language}") languageCode.

(** The empty string and [undefined] are both falsy. *)
Definition truthy (x : option jsstring) : bool :=
  match x with
  | Some (_ :: _) => true
  | _ => false
  end.

(** [parseGitHubRepo]: the thrown [ConfigError] is given by its message. *)
Definition parseGitHubRepo (githubRepo : jsstring)
  : result jsstring (jsstring * jsstring) :=
  let parts := split Validation.slash githubRepo in
  match parts !! 0%nat, parts !! 1%nat with
  | Some owner, Some repo =>
      if negb (truthy (Some owner)) || negb (truthy (Some repo))
      then Err (lit "Invalid GitHub repo format: " ++ githubRepo)
      else Ok (owner, repo)
  | _, _ => Err (lit "Invalid GitHub repo format: " ++ githubRepo)
  end.

Definition getSourceFilePath (project : ProjectConfig) (filename : jsstring) : jsstring :=
  replace (sourceFolder project ++ lit "/" ++ filename) (lit "//") (lit "/").

Definition getTranslationFilePath (project : ProjectConfig)
    (languageCode filename : jsstring) : jsstring :=
  replace (translationFolder project ++ lit "/" ++ languageCode ++ lit "/" ++ filename)
    (lit "//") (lit "/").

Definition getMachineTranslationFilePath (project : ProjectConfig)
    (languageCode filename : jsstring) : jsstring :=
  let tmpFolder := getTmpFolderPath project languageCode in
  replace (tmpFolder ++ lit "/" ++ filename) (lit "//") (lit "/").

Definition getTranslationMetadataPath (project : ProjectConfig)
    (languageCode : jsstring) : jsstring :=
  replace (translationFolder project ++ lit "/" ++ languageCode ++ lit "/translation.json")
    (lit "//") (lit "/").

(** [isProjectAdmin] of config.ts: the entries are not trimmed. *)
Definition isProjectAdmin (ADMIN_USERS : option jsstring)
    (username projectSlug : jsstring) : bool :=
  let adminUsers :=
    match ADMIN_USERS with
    | Some v => split Authorization.comma v
    | None => []
    end in
  existsb (eqb username) adminUsers.

End Config.

(** ** Sample values *)
Module Samples.
Import Js.

Definition sample_project : Config.ProjectConfig :=
  {| Config.slug := lit "top10";
     Config.name := lit "OWASP Top 10";
     Config.githubRepo := lit "OWASP/Top10";
     Config.sourceBranch := lit "master";
     Config.sourceFolder := lit "2021/docs/";
     Config.translationFolder := lit "2021/docs";
     Config.tmpFolder := lit "tmp/{language}/";
     Config.filePattern := lit "*.md";
     Config.priorityFiles := [lit "index.md"] |}.

End Samples.

(** ** github.ts: the rate-limit headers of a response *)
Module RateHeaders.
Import Js.
Local Open Scope Z_scope.

(** The value of a digit in the given radix (10 or 16). *)
Definition digit_value (radix : Z) (c : N) : option Z :=
  let c := Z.of_N c in
  if (48 <=? c) && (c <=? 57) then Some (c - 48)
  else if (radix =? 16) && (97 <=? c) && (c <=? 102) then Some (c - 87)
  else if (radix =? 16) && (65 <=? c) && (c <=? 70) then Some (c - 55)
  else None.

(** The digits at the front of [s], read in [radix], on top of [acc];
    [seen] tells whether a digit has been read. *)
Fixpoint read_digits (radix : Z) (s : jsstring) (acc : Z) (seen : bool) : option Z :=
  match s with
  | c :: s' =>
      match digit_value radix c with
      | Some d => read_digits radix s' (acc * radix + d) true
      | None => if seen then Some acc else None
      end
  | [] => if seen then Some acc else None
  end.

(** [parseInt(s)] with no radix given: leading white space, a sign, an
    optional [0x] prefix, then digits; [None] is [NaN].  The result is the
    integer read; the number [parseInt] returns is the double nearest to it,
    which compares with [0] and [100] as the integer does. *)
Definition parseInt (s : jsstring) : option Z :=
  let s := trimStart s in
  let '(sign, s) :=
    match s with
    | c :: r => if N.eqb c 45 then (-1, r) else if N.eqb c 43 then (1, r) else (1, s)
    | [] => (1, s)
    end in
  let '(radix, s) :=
    if startsWith s (lit "0x") || startsWith s (lit "0X") then (16, skipn 2 s)
    else (10, s) in
  option_map (Z.mul sign) (read_digits radix s 0 false).

Inductive Warning :=
| LowQuota (remaining : jsstring)     (* Low API quota: ... requests remaining *)
| Exceeded (reset : jsstring).        (* Rate limit exceeded. Resets at ... *)

Definition below (x : option Z) (bound : Z) : bool :=
  match x with
  | Some v => v <? bound
  | None => false
  end.

Definition is_zero (x : option Z) : bool :=
  match x with
  | Some v => v =? 0
  | None => false
  end.

(** [checkRateLimits(headers)]: the two headers it reads, each absent or a
    string, and the warnings it shows, in order. *)
Definition checkRateLimits (remaining reset : option jsstring) : list Warning :=
  let RATE_LIMIT_WARNING_THRESHOLD := 100 in
  (match remaining with
   | Some r =>
       if Config.truthy remaining && below (parseInt r) RATE_LIMIT_WARNING_THRESHOLD
       then [LowQuota r] else []
   | None => []
   end)
  ++
  (match remaining, reset with
   | Some r, Some t =>
       if Config.truthy remaining && is_zero (parseInt r) && Config.truthy reset
       then [Exceeded t] else []
   | _, _ => []
   end).

End RateHeaders.

(** ** fork-management.ts: the status summary *)
Module ForkStatus.
Import Js ForkManagement.
Local Open Scope Z_scope.

Record ForkStatusSummary := {
  hasFork : bool;
  syncStatus : option SyncStatusResponse;
  needsSync : bool;
  forkUrl : jsstring
}.

(** [getForkStatus], given what [githubClient.getFork] produced (a fork,
    [null], or the message of the error it threw) and what the comparison of
    the two branches produced. *)
Definition getForkStatus {Fork : Type} (fork : result string (option Fork))
    (compared : result string Comparison)
    (username upstreamOwner repo : jsstring) : result string ForkStatusSummary :=
  match fork with
  | Err msg => Err msg
  | Ok None =>
      Ok {| hasFork := false;
            syncStatus := None;
            needsSync := false;
            forkUrl := lit "https://github.com/" ++ upstreamOwner ++ lit "/" ++ repo |}
  | Ok (Some _) =>
      match checkForkSyncStatus compared with
      | Err msg => Err msg
      | Ok syncStatus =>
          Ok {| hasFork := true;
                syncStatus := Some syncStatus;
                needsSync := 0 <? behindBy syncStatus;
                forkUrl := lit "https://github.com/" ++ username ++ lit "/" ++ repo |}
      end
  end.

End ForkStatus.

(** ** Notions the further properties are stated with *)
Module Notions.
Local Open Scope Z_scope.

(** Every entry of the rate-limit store has counted at least one call. *)
Definition counted_store (store : gmap string Validation.RateEntry) : Prop :=
  forall k e, store !! k = Some e -> 1 <= Validation.count e.

(** The pauses of a run of [request], in order. *)
Fixpoint sleeps (trace : list GitHub.Event) : list Z :=
  match trace with
  | GitHub.Sleep ms :: rest => ms :: sleeps rest
  | _ :: rest => sleeps rest
  | [] => []
  end.

(** 1 for [true], 0 for [false]. *)
Definition indicator (b : bool) : Z := if b then 1 else 0.

End Notions.

(** ** translation-metadata.ts: marking a file *)
Module MetadataOps.
Import Metadata.
Local Open Scope Z_scope.

(** [markFileInProgress], between its two calls to the repository:
    [loaded] is what [loadTranslationMetadata] returned ([None] for
    [null]), the result is the document handed to
    [saveTranslationMetadata], or the message of the error thrown. *)
Definition markFileInProgress (now_entry now_doc : Z)
    (loaded : option TranslationMetadata) (filename contributor commitSha : string)
  : result string TranslationMetadata :=
  match loaded with
  | None => Err "Translation metadata not found"%string
  | Some metadata =>
      Ok (updateFileMetadata now_entry now_doc metadata filename
            {| u_status := Some in_progress;
               u_lastUpdated := None;
               u_lastContributor := Some (Some contributor);
               u_lastCommitSha := Some (Some commitSha);
               u_prNumber := None;
               u_prUrl := None;
               u_wordCount := None;
               u_machineTranslated := None;
               u_humanReviewed := None |})
  end.

Definition markFileComplete (now_entry now_doc : Z)
    (loaded : option TranslationMetadata) (filename contributor commitSha : string)
    (prNumber : Z) (prUrl : string) : result string TranslationMetadata :=
  match loaded with
  | None => Err "Translation metadata not found"%string
  | Some metadata =>
      Ok (updateFileMetadata now_entry now_doc metadata filename
            {| u_status := Some complete;
               u_lastUpdated := None;
               u_lastContributor := Some (Some contributor);
               u_lastCommitSha := Some (Some commitSha);
               u_prNumber := Some (Some prNumber);
               u_prUrl := Some (Some prUrl);
               u_wordCount := None;
               u_machineTranslated := None;
               u_humanReviewed := Some true |})
  end.

End MetadataOps.

Module MetadataNotions.
Import Metadata.

(** Whether the files object has an entry of this status under the name. *)
Definition had_status (files : list (string * TranslationFileMetadata))
    (filename : string) (s : FileStatus) : bool :=
  match Obj.get filename files with
  | Some e => status_eqb (status e) s
  | None => false
  end.

(** The status an update leaves the file with. *)
Definition status_after (files : list (string * TranslationFileMetadata))
    (filename : string) (updates : PartialFileMetadata) : FileStatus :=
  override (u_status updates)
    (match Obj.get filename files with
     | Some e => status e
     | None => not_started
     end).

Definition is_absent {A : Type} (x : option A) : bool :=
  match x with
  | Some _ => false
  | None => true
  end.

End MetadataNotions.

(** ** translation-metadata.ts: [countWords]

    The function is a chain of global regular-expression replacements and a
    split.  A global replacement visits the text from left to right; at each
    position, if the pattern matches there, the match is replaced and the
    visit goes on after it, and if not, the unit is kept.  Each pattern is
    given by the length of its match at the front of a text. *)
Module WordCount.
Import Js JsText.

Definition backtick : N := 96%N.
Definition space : N := 32%N.

(** [s.replace(/pattern/g, replacement)]; [skip] units of a match are
    still to be dropped.  None of the patterns matches the empty text. *)
Fixpoint replaceAll (matchAt : jsstring -> option nat) (replacement : jsstring)
    (skip : nat) (s : jsstring) : jsstring :=
  match s with
  | [] => []
  | c :: s' =>
      match skip with
      | S k => replaceAll matchAt replacement k s'
      | O =>
          match matchAt s with
          | Some (S n) => replacement ++ replaceAll matchAt replacement n s'
          | _ => c :: replaceAll matchAt replacement O s'
          end
      end
  end.

(** [s.split(/pattern/)]: the pieces between the matches; [cur] is the
    piece being read. *)
Fixpoint splitBy (matchAt : jsstring -> option nat) (skip : nat) (cur : jsstring)
    (s : jsstring) : list jsstring :=
  match s with
  | [] => [cur]
  | c :: s' =>
      match skip with
      | S k => splitBy matchAt k cur s'
      | O =>
          match matchAt s with
          | Some (S n) => cur :: splitBy matchAt n [] s'
          | _ => splitBy matchAt O (cur ++ [c]) s'
          end
      end
  end.

(** How many units at the front of [s] satisfy [p]. *)
Fixpoint span_length (p : N -> bool) (s : jsstring) : nat :=
  match s with
  | c :: s' => if p c then S (span_length p s') else O
  | [] => O
  end.

(** [/```[\s\S]*?```/]: a fence, as little as possible, a fence. *)
Definition codeBlockAt (s : jsstring) : option nat :=
  if startsWith s Translation.fence
  then option_map (fun k => 3 + k + 3)%nat (indexOf (skipn 3 s) Translation.fence)
  else None.

(** [/`[^`]+`/]: a backtick, one or more other units, a backtick. *)
Definition inlineCodeAt (s : jsstring) : option nat :=
  match s with
  | c :: r =>
      if N.eqb c backtick then
        let n := span_length (fun d => negb (N.eqb d backtick)) r in
        match n, skipn n r with
        | S _, _ :: _ => Some (n + 2)%nat
        | _, _ => None
        end
      else None
  | [] => None
  end.

(** [/[#*_\[\]()]/] *)
Definition is_syntax (c : N) : bool :=
  existsb (N.eqb c) [35; 42; 95; 91; 93; 40; 41]%N.

Definition syntaxAt (s : jsstring) : option nat :=
  match s with
  | c :: _ => if is_syntax c then Some 1%nat else None
  | [] => None
  end.

(** [/\s+/] *)
Definition whiteSpaceAt (s : jsstring) : option nat :=
  match span_length is_ws s with
  | O => None
  | n => Some n
  end.

Definition countWords (content : jsstring) : Z :=
  let withoutCode := replaceAll codeBlockAt [] 0 content in
  let withoutInlineCode := replaceAll inlineCodeAt [] 0 withoutCode in
  let cleanText :=
    trim (replaceAll whiteSpaceAt [space] 0
            (replaceAll syntaxAt [space] 0 withoutInlineCode)) in
  let words :=
    List.filter (fun word => (0 <? List.length word)%nat)
      (splitBy whiteSpaceAt 0 [] cleanText) in
  Z.of_nat (List.length words).

End WordCount.

Module WordNotions.
Import Js.

(** The number of words of a text: of maximal stretches of units that
    satisfy [p]; [inside] tells whether the text starts in the middle of
    one. *)
Fixpoint runs (p : N -> bool) (inside : bool) (s : jsstring) : nat :=
  match s with
  | [] => O
  | c :: s' =>
      if p c then (if inside then O else 1%nat) + runs p true s'
      else runs p false s'
  end.

(** A unit that is neither white space nor markdown syntax. *)
Definition word_unit (c : N) : bool := negb (is_ws c) && negb (WordCount.is_syntax c).

End WordNotions.

Module SplitNotions.
Import Js Translation.

(** All the text the splitter holds: its sections, then the one it is
    reading. *)
Definition gathered (st : SplitState) : jsstring :=
  concat (sections st) ++ currentSection st.

(** The splitter holds whole lines only: every section, and the one it is
    reading unless that is empty, ends with a newline. *)
Definition whole_lines (st : SplitState) : Prop :=
  Forall (fun s => exists t, s = t ++ [newline]) (sections st)
  /\ (currentSection st = [] \/ exists t, currentSection st = t ++ [newline]).

(** A translation service that hands every text back unchanged. *)
Definition echo_translator
  : option (jsstring -> MapValue -> result string jsstring) :=
  Some (fun text _ => Ok text).

End SplitNotions.

(** ** file-processing.ts: the translation loop of [initializeLanguage] *)
Module Initialize.
Local Open Scope Z_scope.

Record SourceFile := { file_name : string; file_path : string }.

Inductive ProgressStatus :=
| translating
| complete
| error (msg : string).

(** One call of [options.onProgress]. *)
Record LanguageInitProgress := {
  progress_filename : string;
  progress_status : ProgressStatus
}.

(** The variables the loop of step 4 updates, and the calls of
    [onProgress] made so far. *)
Record LoopState := {
  filesProcessed : Z;
  errors : list string;
  progress : list LanguageInitProgress
}.

Record InitializeLanguageResult := {
  success : bool;
  result_filesProcessed : Z;
  result_errors : list string;
  branchUrl : string
}.

Section Loop.
(** What the body of the [try] does for a file between its two calls of
    [onProgress] (reading the file, translating it and writing the two
    copies): it completes, or throws an error with this message. *)
Variable processFile : SourceFile -> result string unit.

(** [options.onProgress]: absent, or a callback which, after the calls made
    to it so far, returns from the next one or throws an error with this
    message. *)
Variable onProgress
  : option (list LanguageInitProgress -> LanguageInitProgress -> result string unit).

(** [options.onProgress?.({ filename: file.name, status })]: the state
    after the call, and whether the call returned. *)
Definition report (file : SourceFile) (s : ProgressStatus) (st : LoopState)
  : LoopState * result string unit :=
  match onProgress with
  | None => (st, Ok tt)
  | Some callback =>
      let call := {| progress_filename := file_name file; progress_status := s |} in
      ({| filesProcessed := filesProcessed st;
          errors := errors st;
          progress := progress st ++ [call] |},
       callback (progress st) call)
  end.

(** The body of the [try] of step 4: a statement runs when those before it
    have not thrown. *)
Definition try_file (st : LoopState) (file : SourceFile)
  : LoopState * result string unit :=
  let '(st, called) := report file translating st in
  match called with
  | Err message => (st, Err message)
  | Ok _ =>
      match processFile file with
      | Err message => (st, Err message)
      | Ok _ =>
          report file complete
            {| filesProcessed := filesProcessed st + 1;
               errors := errors st;
               progress := progress st |}
      end
  end.

(** One iteration of [for (const file of sourceFiles)] in step 4: the [try]
    and its [catch].  An error thrown inside the [catch] leaves the loop. *)
Definition process_step (st : LoopState) (file : SourceFile)
  : LoopState * result string unit :=
  let '(st, tried) := try_file st file in
  match tried with
  | Ok _ => (st, Ok tt)
  | Err message =>
      let errorMsg := ("Failed to process " ++ file_name file ++ ": " ++ message)%string in
      report file (error errorMsg)
        {| filesProcessed := filesProcessed st;
           errors := errors st ++ [errorMsg];
           progress := progress st |}
  end.

Fixpoint process_files (sourceFiles : list SourceFile) (st : LoopState)
  : LoopState * result string unit :=
  match sourceFiles with
  | [] => (st, Ok tt)
  | file :: rest =>
      let '(st, stepped) := process_step st file in
      match stepped with
      | Ok _ => process_files rest st
      | Err message => (st, Err message)
      end
  end.

(** [initializeLanguage], given what its calls to the repository produced:
    the commit of the source branch, the creation of the translation branch
    (a failure comes with its status), the listing of the source files, the
    saving of the metadata; and whether the translation service is
    available.  The result comes with the calls of [onProgress]. *)
Definition initializeLanguage
    (sourceBranch : result string string)
    (createBranch : result (Z * string) unit)
    (sourceFiles : result string (list SourceFile))
    (isAvailable : bool)
    (saved : result string unit)
    (owner repo branchName : string)
  : list LanguageInitProgress * result string InitializeLanguageResult :=
  let failed message := Err ("Failed to initialize language: " ++ message)%string in
  match sourceBranch with
  | Err message => ([], failed message)
  | Ok _ =>
      match (match createBranch with
             | Err (status, message) => if status =? 422 then None else Some message
             | Ok _ => None
             end) with
      | Some message => ([], failed message)
      | None =>
          match sourceFiles with
          | Err message => ([], failed message)
          | Ok files =>
              if negb isAvailable then
                ([], failed "Translation service not available. Check DEEPL_API_KEY.")
              else
                let '(st, looped) :=
                  process_files files
                    {| filesProcessed := 0; errors := []; progress := [] |} in
                match looped with
                | Err message => (progress st, failed message)
                | Ok _ =>
                    match saved with
                    | Err message => (progress st, failed message)
                    | Ok _ =>
                        (progress st,
                         Ok {| success := (List.length (errors st) =? 0)%nat;
                               result_filesProcessed := filesProcessed st;
                               result_errors := errors st;
                               branchUrl := ("https://github.com/" ++ owner ++ "/" ++ repo
                                             ++ "/tree/" ++ branchName)%string |})
                    end
                end
          end
      end
  end.
End Loop.

End Initialize.

Module InitializeNotions.
Import Initialize.

(** The two calls of [onProgress] a file gets when the callback returns
    from every call. *)
Definition reports_of (processFile : SourceFile -> result string unit)
    (file : SourceFile) : list LanguageInitProgress :=
  [{| progress_filename := file_name file; progress_status := translating |};
   {| progress_filename := file_name file;
      progress_status :=
        match processFile file with
        | Ok _ => complete
        | Err message =>
            error ("Failed to process " ++ file_name file ++ ": " ++ message)%string
        end |}].

Definition processed (processFile : SourceFile -> result string unit)
    (file : SourceFile) : bool :=
  match processFile file with
  | Ok _ => true
  | Err _ => false
  end.

(** The callback is absent, or returns from every call. *)
Definition never_throws
    (onProgress : option (list LanguageInitProgress -> LanguageInitProgress
                          -> result string unit)) : Prop :=
  match onProgress with
  | None => True
  | Some callback => forall calls call, callback calls call = Ok tt
  end.

(** The calls such a callback gets for the files. *)
Definition calls_for_files
    (onProgress : option (list LanguageInitProgress -> LanguageInitProgress
                          -> result string unit))
    (processFile : SourceFile -> result string unit) (files : list SourceFile)
  : list LanguageInitProgress :=
  match onProgress with
  | None => []
  | Some _ => flat_map (reports_of processFile) files
  end.

End InitializeNotions.

(** ** api-utils.ts: turning a thrown error into a response *)
Module ApiUtils.
Import Js.
Local Open Scope Z_scope.

Inductive ErrorCode :=
| UNAUTHORIZED | FORBIDDEN | NOT_FOUND | VALIDATION_ERROR | INTERNAL_ERROR.

(** What [internalError] may attach: the stack and the name of the error. *)
Record ErrorDetails := { stack : option jsstring; name : option jsstring }.

(** The status and the JSON body of an error response; an [undefined]
    message or [details] is [None]. *)
Record ErrorResponse := {
  status : Z;
  code : ErrorCode;
  message : option jsstring;
  details : option ErrorDetails
}.

(** A thrown error object: its [message], [stack] and [name] may be
    missing. *)
Record Thrown := {
  thrown_message : option jsstring;
  thrown_stack : option jsstring;
  thrown_name : option jsstring
}.

(** [isProduction] is [process.env.NODE_ENV === 'production']. *)
Definition createErrorResponse (isProduction : bool) (code : ErrorCode)
    (message : option jsstring) (status : Z) (details : option ErrorDetails)
  : ErrorResponse :=
  {| status := status;
     code := code;
     message := message;
     details := if isProduction then None else details |}.

Definition unauthorized (isProduction : bool) : ErrorResponse :=
  createErrorResponse isProduction UNAUTHORIZED (Some (lit "Authentication required")) 401 None.

Definition forbidden (isProduction : bool) (message : option jsstring) : ErrorResponse :=
  createErrorResponse isProduction FORBIDDEN message 403 None.

Definition notFound (isProduction : bool) (message : option jsstring) : ErrorResponse :=
  createErrorResponse isProduction NOT_FOUND message 404 None.

Definition validationError (isProduction : bool) (message : option jsstring)
  : ErrorResponse :=
  createErrorResponse isProduction VALIDATION_ERROR message 400 None.

Definition internalError (isProduction : bool) (error : Thrown) : ErrorResponse :=
  createErrorResponse isProduction INTERNAL_ERROR
    (if isProduction then Some (lit "An internal error occurred") else thrown_message error)
    500
    (if isProduction then None
     else Some {| stack := thrown_stack error; name := thrown_name error |}).

(** [m?.startsWith(p)] and [m?.includes(p)] as conditions. *)
Definition message_startsWith (m : option jsstring) (p : jsstring) : bool :=
  match m with
  | Some s => startsWith s p
  | None => false
  end.

Definition message_includes (m : option jsstring) (p : jsstring) : bool :=
  match m with
  | Some s => includes s p
  | None => false
  end.

(** The [catch] of [withErrorHandling]: the response for a thrown error. *)
Definition handle (isProduction : bool) (error : Thrown) : ErrorResponse :=
  let m := thrown_message error in
  if bool_decide (m = Some (lit "Authentication required")) then unauthorized isProduction
  else if message_startsWith m (lit "Unauthorized") then forbidden isProduction m
  else if message_startsWith m (lit "Validation error") then validationError isProduction m
  else if message_includes m (lit "not found") then notFound isProduction m
  else internalError isProduction error.

(** [withErrorHandling(handler)], given what the handler did: returned a
    response, or threw. *)
Definition withErrorHandling {R : Type} (isProduction : bool)
    (outcome : result Thrown R) : R + ErrorResponse :=
  match outcome with
  | Ok response => inl response
  | Err error => inr (handle isProduction error)
  end.

End ApiUtils.

(** ** useAutosave.ts: the content hash of [generateFileHash] *)
Module Autosave.
Import Js.
Local Open Scope Z_scope.

(** [ToInt32]: the integer of the same residue modulo [2^32] between
    [-2^31] and [2^31 - 1]. *)
Definition toInt32 (z : Z) : Z := (z + 2 ^ 31) mod 2 ^ 32 - 2 ^ 31.

(** [hash = (hash << 5) - hash + char; hash = hash & hash] *)
Definition hash_step (hash : Z) (char : N) : Z :=
  let hash := toInt32 (Z.shiftl (toInt32 hash) 5) - hash + Z.of_N char in
  Z.land (toInt32 hash) (toInt32 hash).

(** The loop of [generateFileHash]: the number the function then renders in
    base 36. *)
Definition hash_value (content : jsstring) : Z :=
  fold_left hash_step content 0.

End Autosave.

Module AutosaveNotions.
Local Open Scope Z_scope.

(** The polynomial [c0 * 31^(n-1) + ... + c(n-1)] on top of [acc * 31^n]. *)
Definition polynomial (acc : Z) (content : list N) : Z :=
  fold_left (fun h c => 31 * h + Z.of_N c) content acc.

End AutosaveNotions.

Module InitializeSamples.
Import Initialize.

Definition sample_files : list SourceFile :=
  [{| file_name := "a.md"; file_path := "docs/a.md" |};
   {| file_name := "b.md"; file_path := "docs/b.md" |}].

(** Processing fails for ["b.md"] only. *)
Definition sample_processFile (f : SourceFile) : result string unit :=
  if String.eqb (file_name f) "b.md" then Err "HTTP 500"%string else Ok tt.

(** A callback that returns from every call. *)
Definition sample_onProgress
  : option (list LanguageInitProgress -> LanguageInitProgress -> result string unit) :=
  Some (fun _ _ => Ok tt).

Definition sample_result : InitializeLanguageResult :=
  {| success := false;
     result_filesProcessed := 1;
     result_errors := ["Failed to process b.md: HTTP 500"%string];
     branchUrl := "https://github.com/OWASP/Top10/tree/translations/es-ES" |}.

End InitializeSamples.

(** * Properties *)

(** ** Fork synchronisation status *)
Section ForkManagementFacts.
Import ForkManagement Reference.
Local Open Scope Z_scope.

Lemma classify_table (b a : nat) :
  classify (Z.of_nat b) (Z.of_nat a) = sync_table b a.
Proof.
  unfold classify.
  destruct b as [|b], a as [|a]; reflexivity.
Qed.

(** C5. Whatever commit list the comparison carries, the status that
    [checkForkSyncStatus] reports for the counts [(behindBy, aheadBy)] is the
    entry of the four-way table for that pair: [(0,0)] identical, [(>0,0)]
    behind, [(0,>0)] ahead, [(>0,>0)] diverged (a count the comparison does
    not carry reads as 0); the counts are reported back unchanged; in
    particular [(5,0)] is behind and [(2,3)] is diverged. *)
Theorem checkForkSyncStatus_table :
  (forall (b a : option nat) (cs : option (list ApiCommit)),
      let r := checkForkSyncStatus
                 (Ok {| behind_by := option_map Z.of_nat b;
                        ahead_by := option_map Z.of_nat a;
                        commits := cs |}) in
      status_of r = Some (sync_table (count_or_zero b) (count_or_zero a)) /\
      exists resp,
        r = Ok resp
        /\ behindBy resp = Z.of_nat (count_or_zero b)
        /\ aheadBy resp = Z.of_nat (count_or_zero a))
  /\ (forall cs,
        status_of (checkForkSyncStatus
                     (Ok {| behind_by := Some 5; ahead_by := Some 0; commits := cs |}))
        = Some behind)
  /\ (forall cs,
        status_of (checkForkSyncStatus
                     (Ok {| behind_by := Some 2; ahead_by := Some 3; commits := cs |}))
        = Some diverged).
Proof.
  split; [|split].
  - intros b a cs. cbn zeta.
    assert (Hb : or_zero (option_map Z.of_nat b) = Z.of_nat (count_or_zero b))
      by (destruct b; reflexivity).
    assert (Ha : or_zero (option_map Z.of_nat a) = Z.of_nat (count_or_zero a))
      by (destruct a; reflexivity).
    unfold checkForkSyncStatus. cbn [behind_by ahead_by commits status_of status].
    rewrite Hb, Ha, classify_table. split; [reflexivity|].
    eexists. split; [reflexivity|]. cbn. auto.
  - reflexivity.
  - reflexivity.
Qed.

End ForkManagementFacts.

(** ** Filename sanitisation *)
Section SanitizeFacts.
Import Js Validation.

Lemma sanitizeFilename_cases (filename : jsstring) :
  sanitizeFilename filename = Ok filename \/
  exists msg, sanitizeFilename filename = Err msg.
Proof.
  unfold sanitizeFilename.
  destruct (eqb (basename filename) filename) eqn:E; cbn [negb].
  - apply bool_decide_eq_true in E. rewrite E.
    repeat match goal with
           | |- context [if ?b then _ else _] => destruct b
           end; eauto.
  - right. eauto.
Qed.

(** C6. [sanitizeFilename] rejects ["../../etc/passwd"] with the
    path-traversal error; it does not return ["passwd"], and on no input does
    it return anything but the input itself. *)
Theorem sanitizeFilename_rejects_traversal :
  sanitizeFilename (lit "../../etc/passwd")
    = Err "Invalid filename: path traversal detected"%string
  /\ sanitizeFilename (lit "../../etc/passwd") <> Ok (lit "passwd")
  /\ basename (lit "../../etc/passwd") = lit "passwd"
  /\ (forall filename,
        sanitizeFilename filename = Ok filename \/
        exists msg, sanitizeFilename filename = Err msg).
Proof.
  split; [vm_compute; reflexivity|].
  split; [vm_compute; discriminate|].
  split; [vm_compute; reflexivity|].
  apply sanitizeFilename_cases.
Qed.

End SanitizeFacts.

(** ** The retry loop of [GitHubClient.request] *)
Section RequestFacts.
Import GitHub Reference.
Local Open Scope Z_scope.

Variable T : Type.
Variable checkRateLimits : T -> list string.
Variable fn : nat -> result Thrown T.

Lemma calls_success (response : T) :
  calls (Call :: List.map Warn (checkRateLimits response)) = 1%nat.
Proof.
  unfold calls. cbn. f_equal.
  induction (checkRateLimits response) as [|w ws IH]; [reflexivity|exact IH].
Qed.

Lemma calls_retry (attempt delay : Z) (trace : list Event) :
  calls (Call :: Log attempt delay :: Sleep delay :: trace) = S (calls trace).
Proof. reflexivity. Qed.

(** [k] retryable failures, then a success, inside the budget: the success
    comes back after [k + 1] invocations. *)
Lemma request_loop_recovers (client : GitHubClient) (maxAttempts : Z) (v : T) :
  forall (k remaining a : nat),
    (forall i, (i < k)%nat -> exists e, fn (a + i) = Err e /\ retryable e) ->
    fn (a + k) = Ok v ->
    (k < remaining)%nat ->
    maxAttempts = Z.of_nat a + Z.of_nat remaining ->
    exists trace,
      request_loop T checkRateLimits fn client maxAttempts remaining (Z.of_nat a)
        = (trace, Ok v)
      /\ calls trace = S k.
Proof.
  induction k as [|k IH]; intros remaining a Hfail Hok Hlt Hmax.
  - destruct remaining as [|r]; [lia|]. cbn [request_loop].
    rewrite Nat2Z.id. rewrite Nat.add_0_r in Hok. rewrite Hok.
    eexists. split; [reflexivity|]. apply calls_success.
  - destruct remaining as [|r]; [lia|]. cbn [request_loop].
    rewrite Nat2Z.id.
    destruct (Hfail 0%nat ltac:(lia)) as (e & He & Hre).
    rewrite Nat.add_0_r in He. rewrite He.
    unfold retryable in Hre. rewrite Hre.
    replace (Z.of_nat a =? maxAttempts - 1) with false
      by (symmetry; apply Z.eqb_neq; lia).
    cbn [negb andb].
    destruct (IH r (S a)) as (trace & Hrun & Hcalls).
    + intros i Hi. destruct (Hfail (S i) ltac:(lia)) as (e' & He' & Hre').
      exists e'. split; [|exact Hre'].
      rewrite <- He'. f_equal. lia.
    + rewrite <- Hok. f_equal. lia.
    + lia.
    + lia.
    + replace (Z.of_nat a + 1) with (Z.of_nat (S a)) by lia.
      rewrite Hrun. eexists. split; [reflexivity|].
      rewrite calls_retry. congruence.
Qed.

(** Retryable failures on every attempt of the budget: the last one is
    translated and thrown, after as many invocations as the budget has. *)
Lemma request_loop_exhausts (client : GitHubClient) (maxAttempts : Z) :
  forall (remaining a : nat),
    (forall i, (i <= remaining)%nat -> exists e, fn (a + i) = Err e /\ retryable e) ->
    maxAttempts = Z.of_nat a + Z.of_nat (S remaining) ->
    exists trace e,
      request_loop T checkRateLimits fn client maxAttempts (S remaining) (Z.of_nat a)
        = (trace, Err (Typed (handleError e)))
      /\ fn (a + remaining) = Err e
      /\ calls trace = S remaining.
Proof.
  induction remaining as [|r IH]; intros a Hfail Hmax.
  - cbn [request_loop]. rewrite Nat2Z.id.
    destruct (Hfail 0%nat ltac:(lia)) as (e & He & Hre).
    rewrite Nat.add_0_r in He |- *. rewrite He.
    replace (Z.of_nat a =? maxAttempts - 1) with true
      by (symmetry; apply Z.eqb_eq; lia).
    rewrite andb_false_r.
    exists [Call], e. auto.
  - cbn [request_loop]. rewrite Nat2Z.id.
    destruct (Hfail 0%nat ltac:(lia)) as (e & He & Hre).
    rewrite Nat.add_0_r in He. rewrite He.
    unfold retryable in Hre. rewrite Hre.
    replace (Z.of_nat a =? maxAttempts - 1) with false
      by (symmetry; apply Z.eqb_neq; lia).
    cbn [negb andb].
    destruct (IH (S a)) as (trace & e' & Hrun & He' & Hcalls).
    + intros i Hi. destruct (Hfail (S i) ltac:(lia)) as (e' & He' & Hre').
      exists e'. split; [|exact Hre'].
      rewrite <- He'. f_equal. lia.
    + lia.
    + replace (Z.of_nat a + 1) with (Z.of_nat (S a)) by lia.
      cbn [request_loop] in Hrun. rewrite Hrun.
      eexists _, e'. split; [reflexivity|]. split.
      * rewrite <- He'. f_equal. lia.
      * rewrite calls_retry. congruence.
Qed.

(** A failure that is not retryable is translated and thrown at once. *)
Lemma request_loop_gives_up (client : GitHubClient) (maxAttempts : Z)
    (remaining : nat) (e : Thrown) :
  fn 0%nat = Err e ->
  isRetryableStatus (or_default (thrown_status e) 0) = false ->
  request_loop T checkRateLimits fn client maxAttempts (S remaining) 0
    = ([Call], Err (Typed (handleError e))).
Proof.
  intros He Hno. cbn [request_loop]. change (Z.to_nat 0) with 0%nat.
  rewrite He, Hno. reflexivity.
Qed.

Lemma retryable_500 (e : Thrown) : thrown_status e = Some 500 -> retryable e.
Proof. intros H. unfold retryable. rewrite H. reflexivity. Qed.

End RequestFacts.

Section RequestBudget.
Import GitHub Reference.
Local Open Scope Z_scope.

(** C4 (amended). The default budget of [request] is three attempts in all.
    Under it, two 500 failures followed by a success surface the success
    after exactly 3 underlying calls; three 500 failures surface a typed
    [GitHubError] of status 500 after exactly 3 calls, whatever a 4th attempt
    would have returned; a 404 failure surfaces a typed [GitHubError] of
    status 404 after exactly 1 call.  With a budget of at least 4 attempts,
    three 500 failures followed by a success surface the success after
    exactly 4 calls. *)
Theorem request_retry_budget (T : Type) (checkRateLimits : T -> list string)
    (fn : nat -> result Thrown T) :
  let run := request T checkRateLimits fn createGitHubClient in
  (forall v,
      fails_with fn 500 0 -> fails_with fn 500 1 -> fn 2%nat = Ok v ->
      snd (run None) = Ok v /\ calls (fst (run None)) = 3%nat)
  /\ (fails_with fn 500 0 -> fails_with fn 500 1 -> fails_with fn 500 2 ->
      exists e, snd (run None) = Err (Typed e) /\ status e = 500
                /\ calls (fst (run None)) = 3%nat)
  /\ (forall v n,
      4 <= n ->
      fails_with fn 500 0 -> fails_with fn 500 1 -> fails_with fn 500 2 ->
      fn 3%nat = Ok v ->
      snd (run (Some n)) = Ok v /\ calls (fst (run (Some n))) = 4%nat)
  /\ (fails_with fn 404 0 ->
      exists e, snd (run None) = Err (Typed e) /\ status e = 404
                /\ calls (fst (run None)) = 1%nat).
Proof.
  intros run. subst run. unfold request.
  assert (Hthree : forall i, fails_with fn 500 0 -> fails_with fn 500 1 ->
            fails_with fn 500 2 -> (i <= 2)%nat ->
            exists e, fn (0 + i)%nat = Err e /\ retryable e).
  { intros i (e0 & H0 & S0) (e1 & H1 & S1) (e2 & H2 & S2) Hi.
    destruct i as [|[|[|i]]]; [| | |lia]; cbn [Nat.add];
      eauto using retryable_500. }
  split; [|split; [|split]].
  - intros v F0 F1 Hok.
    destruct (request_loop_recovers T checkRateLimits fn createGitHubClient 3 v
                2 3 0) as (trace & Hrun & Hcalls); try lia; try assumption.
    { intros i Hi. destruct F0 as (e0 & H0 & S0), F1 as (e1 & H1 & S1).
      destruct i as [|[|i]]; [| |lia]; cbn [Nat.add]; eauto using retryable_500. }
    cbn [maxRetries createGitHubClient constructor or_default opt_maxRetries].
    change (Z.to_nat 3) with 3%nat. change (Z.of_nat 0) with 0 in Hrun.
    rewrite Hrun. auto.
  - intros F0 F1 F2.
    destruct (request_loop_exhausts T checkRateLimits fn createGitHubClient 3 2 0)
      as (trace & e & Hrun & He & Hcalls); [auto|lia|].
    cbn [maxRetries createGitHubClient constructor or_default opt_maxRetries].
    change (Z.to_nat 3) with 3%nat. change (Z.of_nat 0) with 0 in Hrun.
    rewrite Hrun. exists (handleError e). cbn [fst snd].
    repeat split; [|exact Hcalls].
    destruct F2 as (e2 & H2 & S2). cbn [Nat.add] in He.
    assert (e = e2) by congruence. subst e2.
    unfold handleError. rewrite S2. reflexivity.
  - intros v n Hn F0 F1 F2 Hok.
    destruct (request_loop_recovers T checkRateLimits fn createGitHubClient n v
                3 (Z.to_nat n) 0) as (trace & Hrun & Hcalls);
      try lia; try assumption.
    { intros i Hi. apply Hthree; auto. lia. }
    change (Z.of_nat 0) with 0 in Hrun. rewrite Hrun. auto.
  - intros (e & He & Hst).
    cbn [maxRetries createGitHubClient constructor or_default opt_maxRetries].
    change (Z.to_nat 3) with 3%nat.
    rewrite (request_loop_gives_up T checkRateLimits fn createGitHubClient 3 2 e He)
      by (rewrite Hst; reflexivity).
    exists (handleError e). cbn [fst snd]. repeat split.
    unfold handleError. rewrite Hst. reflexivity.
Qed.

Lemma request_retry_budget_witness :
  let fn2 := flaky 500 2 tt in
  let fn3 := flaky 500 3 tt in
  let fn404 := flaky 404 1 tt in
  let run fn := request unit (fun _ => []) fn createGitHubClient in
  (snd (run fn2 None) = Ok tt /\ calls (fst (run fn2 None)) = 3%nat)
  /\ (exists e, snd (run fn3 None) = Err (Typed e) /\ status e = 500
                /\ calls (fst (run fn3 None)) = 3%nat)
  /\ (snd (run fn3 (Some 4)) = Ok tt /\ calls (fst (run fn3 (Some 4))) = 4%nat)
  /\ (exists e, snd (run fn404 None) = Err (Typed e) /\ status e = 404
                /\ calls (fst (run fn404 None)) = 1%nat).
Proof.
  intros fn2 fn3 fn404 run.
  assert (F : forall s n k, (k < n)%nat -> fails_with (flaky s n tt) s k).
  { intros s n k Hk. unfold fails_with, flaky.
    apply Nat.ltb_lt in Hk. rewrite Hk. eexists. split; reflexivity. }
  split; [|split; [|split]].
  - apply (proj1 (request_retry_budget unit (fun _ => []) fn2) tt);
      [apply F; lia | apply F; lia | reflexivity].
  - apply (proj1 (proj2 (request_retry_budget unit (fun _ => []) fn3)));
      apply F; lia.
  - apply (proj1 (proj2 (proj2 (request_retry_budget unit (fun _ => []) fn3))) tt 4);
      [lia | apply F; lia | apply F; lia | apply F; lia | reflexivity].
  - apply (proj2 (proj2 (proj2 (request_retry_budget unit (fun _ => []) fn404)))).
    apply F; lia.
Defined.

(** C4, as stated, fails: under the default budget an operation that fails
    with 500 three times and would succeed on a 4th attempt is called 3
    times, not 4, and the caller gets the typed error, not the success. *)
Lemma request_default_budget_counterexample :
  let r := request unit (fun _ => []) (flaky 500 3 tt) createGitHubClient None in
  calls (fst r) = 3%nat
  /\ snd r = Err (Typed {| status := 500;
                           response := {| resp_message := "Unknown error" |};
                           message := "GitHub is experiencing issues. Your work is saved locally." |})
  /\ ~ (snd r = Ok tt /\ calls (fst r) = 4%nat).
Proof.
  vm_compute. repeat split. intros [H _]. discriminate H.
Qed.

End RequestBudget.

(** ** The rate limiter *)
Section RateLimitFacts.
Import Validation Reference.
Local Open Scope Z_scope.

(** A call for one identifier leaves the entries of the others alone. *)
Lemma checkRateLimit_other (now : Z) (identifier other : string) (lim windowMs : Z)
    (store : gmap string RateEntry) :
  identifier <> other ->
  snd (checkRateLimit now identifier lim windowMs store) !! other = store !! other.
Proof.
  intros Hne. unfold checkRateLimit.
  destruct (store !! identifier) as [e|] eqn:E.
  - destruct (resetAt e <? now); cbn [snd].
    + rewrite lookup_insert_ne by exact Hne. apply lookup_delete_ne. exact Hne.
    + destruct (lim <? count {| count := count e + 1; resetAt := resetAt e |});
        cbn [snd]; apply lookup_insert_ne; exact Hne.
  - cbn [snd]. apply lookup_insert_ne. exact Hne.
Qed.

(** A call that opens a window succeeds, whatever the limit. *)
Lemma checkRateLimit_opens (c : RateCall) (store : gmap string RateEntry) :
  opens_window store c ->
  let '(r, store') :=
    checkRateLimit (at_time c) (who c) (with_limit c) (with_window c) store in
  success r = true /\
  store' !! who c = Some {| count := 1; resetAt := at_time c + with_window c |}.
Proof.
  unfold opens_window, checkRateLimit. intros H.
  destruct (store !! who c) as [e|] eqn:E.
  - apply Z.ltb_lt in H. rewrite H. split; [reflexivity|apply lookup_insert_eq].
  - split; [reflexivity|apply lookup_insert_eq].
Qed.

(** A call inside a live window is counted and compared with the limit. *)
Lemma checkRateLimit_counts (now : Z) (identifier : string) (lim windowMs k r : Z)
    (store : gmap string RateEntry) :
  store !! identifier = Some {| count := k; resetAt := r |} ->
  now <= r ->
  let '(res, store') := checkRateLimit now identifier lim windowMs store in
  success res = negb (lim <? k + 1) /\
  store' !! identifier = Some {| count := k + 1; resetAt := r |}.
Proof.
  intros E Hnow. unfold checkRateLimit. rewrite E. cbn [resetAt count].
  replace (r <? now) with false by (symmetry; apply Z.ltb_ge; lia).
  destruct (lim <? k + 1); (split; [reflexivity|apply lookup_insert_eq]).
Qed.

Lemma run_in_window (identifier : string) (lim r : Z) :
  forall (cs : list RateCall) (k : Z) (store : gmap string RateEntry),
    store !! identifier = Some {| count := k; resetAt := r |} ->
    Forall (in_window identifier lim r) cs ->
    successes_of identifier cs (fst (run cs store))
      = window_outcomes lim k (calls_for identifier cs).
Proof.
  induction cs as [|c cs IH]; intros k store E Hall; [reflexivity|].
  inversion Hall as [|c' cs' Hc Hcs]; subst c' cs'.
  cbn [run].
  destruct (checkRateLimit (at_time c) (who c) (with_limit c) (with_window c) store)
    as [res store'] eqn:Hstep.
  destruct (run cs store') as [rs store''] eqn:Hrun.
  cbn [fst successes_of]. unfold calls_for. cbn [List.filter].
  destruct (String.eqb (who c) identifier) eqn:Hwho.
  - apply String.eqb_eq in Hwho. destruct (Hc Hwho) as [Hlim Hnow].
    subst identifier lim.
    pose proof (checkRateLimit_counts (at_time c) (who c) (with_limit c)
                  (with_window c) k r store E Hnow) as Hcount.
    rewrite Hstep in Hcount. destruct Hcount as [Hs E'].
    cbn [List.length window_outcomes]. rewrite Hs. f_equal.
    specialize (IH (k + 1) store' E' Hcs). rewrite Hrun in IH. exact IH.
  - apply String.eqb_neq in Hwho.
    assert (E' : store' !! identifier = Some {| count := k; resetAt := r |}).
    { rewrite <- E. replace store' with
        (snd (checkRateLimit (at_time c) (who c) (with_limit c) (with_window c) store))
        by (rewrite Hstep; reflexivity).
      apply checkRateLimit_other. exact Hwho. }
    specialize (IH k store' E' Hcs). rewrite Hrun in IH. exact IH.
Qed.

End RateLimitFacts.

Section RateLimitWindow.
Import Validation Reference.
Local Open Scope Z_scope.

Lemma window_outcomes_lookup (lim : Z) :
  forall (n : nat) (k : Z) (i : nat) (b : bool),
    window_outcomes lim k n !! i = Some b ->
    b = negb (lim <? k + 1 + Z.of_nat i).
Proof.
  induction n as [|n IH]; intros k i b H; [discriminate H|].
  destruct i as [|i]; cbn in H.
  - injection H as <-. f_equal. f_equal. lia.
  - apply IH in H. rewrite H. f_equal. f_equal. lia.
Qed.

Lemma window_outcomes_length (lim : Z) :
  forall (n : nat) (k : Z), List.length (window_outcomes lim k n) = n.
Proof. induction n as [|n IH]; intros k; cbn; [reflexivity|]. now rewrite IH. Qed.

Lemma window_outcomes_count (lim : Z) :
  forall (n : nat) (k : Z),
    Z.of_nat (count_true (window_outcomes lim k n)) <= Z.max 0 (lim - k).
Proof.
  induction n as [|n IH]; intros k; [cbn; lia|].
  cbn [window_outcomes]. unfold count_true. cbn [List.filter].
  specialize (IH (k + 1)). unfold count_true in IH.
  destruct (lim <? k + 1) eqn:E; cbn [negb id List.length].
  - apply Z.ltb_lt in E. lia.
  - apply Z.ltb_ge in E. lia.
Qed.

(** C10 (amended). Take the calls made for one identifier from the call that
    opens a window up to the instant the window ends, every one with the same
    limit, interleaved at will with calls for other identifiers.  The
    opening call succeeds whatever the limit, and the [i]-th call after it
    succeeds exactly when [i + 1 <= limit]; so at most [max 1 limit] calls
    succeed (at most [limit] when [limit >= 1]), and once a call fails every
    later one fails. *)
Theorem checkRateLimit_window (identifier : string) (lim : Z)
    (store : gmap string RateEntry) (c0 : RateCall) (cs : list RateCall) :
  who c0 = identifier ->
  with_limit c0 = lim ->
  opens_window store c0 ->
  Forall (in_window identifier lim (at_time c0 + with_window c0)) cs ->
  let outs := successes_of identifier (c0 :: cs) (fst (run (c0 :: cs) store)) in
  List.length outs = S (calls_for identifier cs)
  /\ (forall i b, outs !! i = Some b ->
        b = (i =? 0)%nat || (Z.of_nat i + 1 <=? lim))
  /\ Z.of_nat (count_true outs) <= Z.max 1 lim
  /\ (1 <= lim -> Z.of_nat (count_true outs) <= lim)
  /\ (forall i j b, (i < j)%nat -> outs !! i = Some false -> outs !! j = Some b ->
        b = false).
Proof.
  intros Hwho Hlim Hopen Hall outs.
  assert (Houts : outs = true :: window_outcomes lim 1 (calls_for identifier cs)).
  { subst outs. cbn [run].
    pose proof (checkRateLimit_opens c0 store Hopen) as H0.
    destruct (checkRateLimit (at_time c0) (who c0) (with_limit c0) (with_window c0) store)
      as [res store'] eqn:Hstep.
    destruct H0 as [Hs E'].
    pose proof (run_in_window identifier lim (at_time c0 + with_window c0) cs 1 store') as Hrun.
    rewrite Hwho in E'. specialize (Hrun E' Hall).
    destruct (run cs store') as [rs store''].
    cbn [fst successes_of] in Hrun |- *.
    rewrite Hwho, String.eqb_refl, Hs, Hrun. reflexivity. }
  assert (Hlook : forall i b, outs !! i = Some b ->
            b = (i =? 0)%nat || (Z.of_nat i + 1 <=? lim)).
  { intros i b H. rewrite Houts in H. destruct i as [|i]; cbn in H.
    - injection H as <-. reflexivity.
    - apply window_outcomes_lookup in H. rewrite H. cbn [Nat.eqb orb].
      rewrite <- Z.leb_antisym. f_equal. lia. }
  assert (Hcount : Z.of_nat (count_true outs) <= Z.max 1 lim).
  { rewrite Houts. unfold count_true. cbn [List.filter id List.length].
    pose proof (window_outcomes_count lim (calls_for identifier cs) 1) as H.
    unfold count_true in H. lia. }
  split; [|split; [|split; [|split]]].
  - rewrite Houts. cbn [List.length]. now rewrite window_outcomes_length.
  - exact Hlook.
  - exact Hcount.
  - intros H1. lia.
  - intros i j b Hij Hi Hj.
    apply Hlook in Hi. apply Hlook in Hj.
    destruct i as [|i]; [discriminate Hi|]. destruct j as [|j]; [lia|].
    cbn [Nat.eqb orb] in Hi, Hj. symmetry in Hi. apply Z.leb_gt in Hi.
    rewrite Hj. apply Z.leb_gt. lia.
Qed.

Lemma checkRateLimit_window_witness :
  let c t := {| at_time := t; who := "alice"; with_limit := 2; with_window := 1000 |} in
  let d := {| at_time := 5; who := "bob"; with_limit := 1; with_window := 10 |} in
  let outs := successes_of "alice" [c 0; c 10; d; c 20; c 1000]
                (fst (run [c 0; c 10; d; c 20; c 1000] ∅)) in
  List.length outs = 4%nat
  /\ (forall i b, outs !! i = Some b ->
        b = (i =? 0)%nat || (Z.of_nat i + 1 <=? 2))
  /\ Z.of_nat (count_true outs) <= Z.max 1 2
  /\ (1 <= 2 -> Z.of_nat (count_true outs) <= 2)
  /\ (forall i j b, (i < j)%nat -> outs !! i = Some false -> outs !! j = Some b ->
        b = false).
Proof.
  intros c d.
  apply (checkRateLimit_window "alice" 2 ∅ (c 0) [c 10; d; c 20; c 1000]).
  - reflexivity.
  - reflexivity.
  - exact I.
  - repeat (constructor;
              [unfold in_window; cbn; intros H; try discriminate H; lia|]).
    constructor.
Defined.

(** C10, as stated, fails for a limit below one: with [limit = 0] the call
    that opens the window still succeeds, one success against a limit of
    none. *)
Lemma checkRateLimit_zero_limit_counterexample :
  let c := {| at_time := 0; who := "alice"; with_limit := 0; with_window := 1000 |} in
  let outs := successes_of "alice" [c] (fst (run [c] ∅)) in
  outs = [true] /\ ~ (Z.of_nat (count_true outs) <= 0).
Proof.
  vm_compute. split; [reflexivity|]. intros H. apply H. reflexivity.
Qed.

End RateLimitWindow.

(** ** Doubles: converting a positive integer never gives zero or NaN *)
Section NumberFacts.
Import Number Reference.
Local Open Scope Z_scope.

Lemma digits2_pos_size (p : positive) : digits2_pos p = Pos.size p.
Proof. induction p as [p IH|p IH|]; cbn; congruence. Qed.

Lemma digits2_pos_lower (p : positive) : 2 ^ (Z.pos (digits2_pos p) - 1) <= Z.pos p.
Proof.
  rewrite digits2_pos_size.
  pose proof (Pos.size_le p) as H.
  assert (H' : Z.pos (2 ^ Pos.size p) <= Z.pos p~0) by exact H.
  rewrite Pos2Z.inj_pow in H'.
  replace (Z.pos (Pos.size p)) with (Z.pos (Pos.size p) - 1 + 1) in H' by lia.
  rewrite Z.pow_add_r in H' by lia. change (2 ^ 1) with 2 in H'. lia.
Qed.









(** *** Sums of integers on doubles *)

Lemma digits2_pos_upper (p : positive) : Z.pos p < 2 ^ Z.pos (digits2_pos p).
Proof.
  rewrite digits2_pos_size.
  pose proof (Pos.size_gt p) as H.
  assert (H' : Z.pos p < Z.pos (2 ^ Pos.size p)) by exact H.
  now rewrite Pos2Z.inj_pow in H'.
Qed.

(** The number of binary digits is fixed by the power of two below and above. *)
Lemma digits2_pos_unique (p : positive) (d : Z) :
  2 ^ (d - 1) <= Z.pos p < 2 ^ d -> Z.pos (digits2_pos p) = d.
Proof.
  intros [Hl Hu].
  pose proof (digits2_pos_lower p) as Hl'. pose proof (digits2_pos_upper p) as Hu'.
  assert (Hd : 0 < d).
  { destruct (Z.le_gt_cases d 0) as [H|H]; [|exact H].
    assert (2 ^ d <= 2 ^ 0) by (destruct (Z.lt_ge_cases d 0);
      [rewrite Z.pow_neg_r by lia; cbn; lia|apply Z.pow_le_mono_r; lia]).
    change (2 ^ 0) with 1 in *. lia. }
  destruct (Z.lt_trichotomy (Z.pos (digits2_pos p)) d) as [H|[H|H]]; [|exact H|].
  - assert (2 ^ Z.pos (digits2_pos p) <= 2 ^ (d - 1)) by (apply Z.pow_le_mono_r; lia). lia.
  - assert (2 ^ d <= 2 ^ (Z.pos (digits2_pos p) - 1)) by (apply Z.pow_le_mono_r; lia). lia.
Qed.

Lemma iter_xO (k : positive) (m : positive) :
  Z.pos (Pos.iter xO m k) = Z.pos m * 2 ^ Z.pos k.
Proof.
  rewrite <- (Pos2Z.inj_pow 2 k), <- Pos2Z.inj_mul. f_equal.
  revert m. induction k as [|k IH] using Pos.peano_ind; intros m.
  - cbn. lia.
  - rewrite Pos.iter_succ, IH, Pos.pow_succ_r. lia.
Qed.

Lemma shr_1_exact (m : Z) :
  0 <= m -> m mod 2 = 0 ->
  shr_1 {| shr_m := m; shr_r := false; shr_s := false |}
  = {| shr_m := m / 2; shr_r := false; shr_s := false |}.
Proof.
  intros Hm Hmod. destruct m as [|[p|p|]|p]; cbn [shr_1 orb]; try lia.
  - reflexivity.
  - rewrite Pos2Z.inj_xI in Hmod. exfalso.
    replace (2 * Z.pos p + 1) with (1 + Z.pos p * 2) in Hmod by lia.
    rewrite Z.mod_add in Hmod by lia. discriminate Hmod.
  - f_equal. rewrite Pos2Z.inj_xO. apply Z.div_unique with (r := 0); lia.
  - discriminate Hmod.
Qed.

Lemma mod_pow_div (j : positive) (m : Z) :
  m mod 2 ^ Z.pos j = 0 -> m = 2 ^ Z.pos j * (m / 2 ^ Z.pos j).
Proof.
  intros Hmod.
  pose proof (Z.pow_pos_nonneg 2 (Z.pos j) ltac:(lia) ltac:(lia)) as Hpow.
  rewrite (Z.div_mod m (2 ^ Z.pos j)) at 1 by lia. lia.
Qed.

Lemma iter_shr_1_exact (k : positive) : forall m : Z,
  0 <= m -> m mod 2 ^ Z.pos k = 0 ->
  SpecFloat.iter_pos shr_1 k {| shr_m := m; shr_r := false; shr_s := false |}
  = {| shr_m := m / 2 ^ Z.pos k; shr_r := false; shr_s := false |}.
Proof.
  induction k as [j IH|j IH|]; intros m Hm Hmod;
    apply mod_pow_div in Hmod; rename Hmod into Hd; cbn [SpecFloat.iter_pos].
  - assert (P2 : 2 ^ Z.pos j~1 = 2 * 2 ^ Z.pos j * 2 ^ Z.pos j).
    { replace (Z.pos j~1) with (1 + Z.pos j + Z.pos j) by lia.
      rewrite !Z.pow_add_r by lia. reflexivity. }
    pose proof (Z.pow_pos_nonneg 2 (Z.pos j) ltac:(lia) ltac:(lia)) as Hj.
    rewrite P2 in *. set (q := m / (2 * 2 ^ Z.pos j * 2 ^ Z.pos j)) in *.
    set (w := 2 ^ Z.pos j) in *.
    assert (Hq : 0 <= q) by (subst q; apply Z.div_pos; nia).
    rewrite shr_1_exact;
      [|exact Hm|rewrite Hd; replace (2 * w * w * q) with ((w * w * q) * 2) by ring;
                 apply Z.mod_mul; lia].
    replace (m / 2) with ((w * q) * w)
      by (rewrite Hd; replace (2 * w * w * q) with (((w * q) * w) * 2) by ring;
          now rewrite Z.div_mul by lia).
    rewrite IH; [|nia|apply Z.mod_mul; lia].
    rewrite Z.div_mul by lia.
    rewrite IH; [|nia|rewrite Z.mul_comm; apply Z.mod_mul; lia].
    rewrite (Z.mul_comm w q), Z.div_mul by lia. reflexivity.
  - assert (P2 : 2 ^ Z.pos j~0 = 2 ^ Z.pos j * 2 ^ Z.pos j).
    { replace (Z.pos j~0) with (Z.pos j + Z.pos j) by lia.
      rewrite !Z.pow_add_r by lia. reflexivity. }
    pose proof (Z.pow_pos_nonneg 2 (Z.pos j) ltac:(lia) ltac:(lia)) as Hj.
    rewrite P2 in *. set (q := m / (2 ^ Z.pos j * 2 ^ Z.pos j)) in *.
    set (w := 2 ^ Z.pos j) in *.
    assert (Hq : 0 <= q) by (subst q; apply Z.div_pos; nia).
    rewrite IH; [|exact Hm|rewrite Hd; replace (w * w * q) with ((w * q) * w) by ring;
                           apply Z.mod_mul; lia].
    replace (m / w) with (q * w)
      by (rewrite Hd; replace (w * w * q) with ((q * w) * w) by ring;
          now rewrite Z.div_mul by lia).
    rewrite IH; [|nia|apply Z.mod_mul; lia].
    rewrite Z.div_mul by lia. reflexivity.
  - change (2 ^ 1) with 2 in *. apply shr_1_exact; [exact Hm|].
    rewrite Hd, Z.mul_comm. apply Z.mod_mul. lia.
Qed.

(** A mantissa of 53 digits is left as it is. *)
Lemma binary_round_aux_canonical (m : positive) (e : Z) :
  Z.pos (digits2_pos m) = 53 -> -52 <= e <= 0 ->
  binary_round_aux prec emax false (Z.pos m) e loc_Exact = S754_finite false m e.
Proof.
  intros Hd He. unfold binary_round_aux, shr_fexp. cbn [Zdigits2 shr_record_of_loc].
  rewrite Hd.
  assert (Hf : fexp prec emax (53 + e) - e = 0) by (unfold fexp, emin, prec, emax; lia).
  rewrite Hf. cbn [shr shr_m loc_of_shr_record round_nearest_even Zdigits2 shr_record_of_loc].
  rewrite Hd, Hf. cbn [shr shr_m].
  replace (e <=? emax - prec) with true
    by (symmetry; apply Z.leb_le; unfold emax, prec; lia).
  reflexivity.
Qed.

(** Rounding a mantissa and exponent that stand for an integer below
    [2^53] gives the double of that integer: nothing is lost. *)
Lemma binary_round_integer (m n : positive) (e : Z) :
  e <= 0 -> Z.pos m = Z.pos n * 2 ^ (- e) -> Z.pos n < 2 ^ 53 ->
  binary_round prec emax false m e
  = S754_finite false
      (Z.to_pos (Z.pos n * 2 ^ (53 - Z.pos (digits2_pos n))))
      (Z.pos (digits2_pos n) - 53).
Proof.
  intros He Hm Hn.
  set (dn := Z.pos (digits2_pos n)).
  pose proof (digits2_pos_lower n) as Hl. pose proof (digits2_pos_upper n) as Hu.
  fold dn in Hl, Hu.
  assert (Hdn : 1 <= dn <= 53).
  { split; [subst dn; lia|].
    destruct (Z.le_gt_cases dn 53) as [H|H]; [exact H|].
    assert (2 ^ 53 <= 2 ^ (dn - 1)) by (apply Z.pow_le_mono_r; lia). lia. }
  assert (Hdm : Z.pos (digits2_pos m) = dn - e).
  { apply digits2_pos_unique. rewrite Hm.
    replace (dn - e - 1) with ((dn - 1) + - e) by lia.
    replace (dn - e) with (dn + - e) by lia.
    rewrite !Z.pow_add_r by lia.
    pose proof (Z.pow_pos_nonneg 2 (- e) ltac:(lia) ltac:(lia)). nia. }
  assert (Hc : 2 ^ 52 <= Z.pos n * 2 ^ (53 - dn) < 2 ^ 53).
  { assert (H52 : 2 ^ 52 = 2 ^ (dn - 1) * 2 ^ (53 - dn))
      by (rewrite <- Z.pow_add_r by lia; f_equal; lia).
    assert (H53 : 2 ^ 53 = 2 ^ dn * 2 ^ (53 - dn))
      by (rewrite <- Z.pow_add_r by lia; f_equal; lia).
    pose proof (Z.pow_pos_nonneg 2 (53 - dn) ltac:(lia) ltac:(lia)).
    split; [rewrite H52|rewrite H53]; nia. }
  assert (Hcd : Z.pos (digits2_pos (Z.to_pos (Z.pos n * 2 ^ (53 - dn)))) = 53).
  { apply digits2_pos_unique. rewrite Z2Pos.id by lia. exact Hc. }
  unfold binary_round, shl_align. rewrite Hdm.
  replace (dn - e + e) with dn by lia.
  assert (Hf : fexp prec emax dn = dn - 53) by (unfold fexp, emin, prec, emax; lia).
  rewrite Hf.
  destruct (dn - 53 - e) as [|k|k] eqn:Ek.
  - (* the mantissa has 53 digits already *)
    assert (E : e = dn - 53) by lia.
    assert (Em : m = Z.to_pos (Z.pos n * 2 ^ (53 - dn))).
    { apply Pos2Z.inj. rewrite Z2Pos.id by lia. rewrite Hm. f_equal. f_equal. lia. }
    rewrite E, Em. apply binary_round_aux_canonical; [exact Hcd|lia].
  - (* more than 53 digits, the low ones zero *)
    assert (Hk : Z.pos k <= - e) by lia.
    assert (Hmk : Z.pos m = (Z.pos n * 2 ^ (53 - dn)) * 2 ^ Z.pos k).
    { rewrite Hm, <- Z.mul_assoc, <- Z.pow_add_r by lia. f_equal. f_equal. lia. }
    unfold binary_round_aux, shr_fexp. cbn [Zdigits2 shr_record_of_loc].
    rewrite Hdm. replace (dn - e + e) with dn by lia. rewrite Hf, Ek. cbn [shr].
    rewrite iter_shr_1_exact; [|lia|rewrite Hmk; apply Z.mod_mul;
      pose proof (Z.pow_pos_nonneg 2 (Z.pos k) ltac:(lia) ltac:(lia)); lia].
    cbn [shr_m loc_of_shr_record round_nearest_even].
    rewrite Hmk, Z.div_mul
      by (pose proof (Z.pow_pos_nonneg 2 (Z.pos k) ltac:(lia) ltac:(lia)); lia).
    destruct (Z.pos n * 2 ^ (53 - dn)) as [|c|c] eqn:Ec; try lia.
    cbn [Zdigits2 shr_record_of_loc Z.to_pos] in *. rewrite Hcd.
    replace (fexp prec emax (53 + (e + Z.pos k)) - (e + Z.pos k)) with 0
      by (unfold fexp, emin, prec, emax; lia).
    cbn [shr shr_m].
    replace (e + Z.pos k <=? emax - prec) with true
      by (symmetry; apply Z.leb_le; unfold emax, prec; lia).
    f_equal. lia.
  - (* fewer than 53 digits: the mantissa is shifted up *)
    assert (Em : Pos.iter xO m k = Z.to_pos (Z.pos n * 2 ^ (53 - dn))).
    { apply Pos2Z.inj. rewrite iter_xO, Z2Pos.id by lia.
      rewrite Hm, <- Z.mul_assoc, <- Z.pow_add_r by lia. f_equal. f_equal. lia. }
    rewrite Em. apply binary_round_aux_canonical; [exact Hcd|lia].
Qed.

Lemma of_int_canonical (n : positive) :
  Z.pos n < 2 ^ 53 ->
  of_int (Z.pos n)
  = S754_finite false
      (Z.to_pos (Z.pos n * 2 ^ (53 - Z.pos (digits2_pos n))))
      (Z.pos (digits2_pos n) - 53).
Proof.
  intros Hn. unfold of_int. cbn [binary_normalize].
  apply binary_round_integer; [lia| |exact Hn]. cbn. lia.
Qed.

Lemma shl_align_value (m : positive) (e e' : Z) :
  e' <= e -> Z.pos (fst (shl_align m e e')) = Z.pos m * 2 ^ (e - e').
Proof.
  intros H. unfold shl_align. destruct (e' - e) as [|k|k] eqn:E; cbn [fst]; try lia.
  - replace (e - e') with 0 by lia. cbn. lia.
  - rewrite iter_xO. f_equal. f_equal. lia.
Qed.

(** Adding two non-negative integers as doubles is exact while the sum is
    below [2^53]. *)
Lemma add_of_int (a b : Z) :
  0 <= a -> 0 <= b -> a + b < 2 ^ 53 -> add (of_int a) (of_int b) = of_int (a + b).
Proof.
  intros Ha Hb Hab.
  destruct a as [|a|a]; [|destruct b as [|b|b]|]; try lia.
  - change (of_int 0) with (S754_zero false). rewrite Z.add_0_l.
    destruct b as [|b|b]; try lia; [reflexivity|].
    rewrite of_int_canonical by lia. reflexivity.
  - change (of_int 0) with (S754_zero false). rewrite Z.add_0_r.
    rewrite of_int_canonical by lia. reflexivity.
  - rewrite (of_int_canonical a), (of_int_canonical b) by lia.
    set (da := Z.pos (digits2_pos a)). set (db := Z.pos (digits2_pos b)).
    pose proof (digits2_pos_lower a) as Hla. pose proof (digits2_pos_lower b) as Hlb.
    fold da in Hla. fold db in Hlb.
    assert (Hda : 1 <= da <= 53).
    { split; [subst da; lia|]. destruct (Z.le_gt_cases da 53) as [H|H]; [exact H|].
      assert (2 ^ 53 <= 2 ^ (da - 1)) by (apply Z.pow_le_mono_r; lia). lia. }
    assert (Hdb : 1 <= db <= 53).
    { split; [subst db; lia|]. destruct (Z.le_gt_cases db 53) as [H|H]; [exact H|].
      assert (2 ^ 53 <= 2 ^ (db - 1)) by (apply Z.pow_le_mono_r; lia). lia. }
    pose proof (Z.pow_pos_nonneg 2 (53 - da) ltac:(lia) ltac:(lia)) as Hpa.
    pose proof (Z.pow_pos_nonneg 2 (53 - db) ltac:(lia) ltac:(lia)) as Hpb.
    unfold add, SFadd. cbn [cond_Zopp].
    set (ez := Z.min (da - 53) (db - 53)).
    set (ma := fst (shl_align (Z.to_pos (Z.pos a * 2 ^ (53 - da))) (da - 53) ez)).
    set (mb := fst (shl_align (Z.to_pos (Z.pos b * 2 ^ (53 - db))) (db - 53) ez)).
    assert (Hma : Z.pos ma = Z.pos a * 2 ^ (- ez)).
    { subst ma. rewrite shl_align_value by (subst ez; lia). rewrite Z2Pos.id by lia.
      rewrite <- Z.mul_assoc, <- Z.pow_add_r by (subst ez; lia).
      f_equal. f_equal. lia. }
    assert (Hmb : Z.pos mb = Z.pos b * 2 ^ (- ez)).
    { subst mb. rewrite shl_align_value by (subst ez; lia). rewrite Z2Pos.id by lia.
      rewrite <- Z.mul_assoc, <- Z.pow_add_r by (subst ez; lia).
      f_equal. f_equal. lia. }
    change (Z.pos ma + Z.pos mb) with (Z.pos (ma + mb)). cbn [binary_normalize].
    change (Z.pos a + Z.pos b) with (Z.pos (a + b)) in *.
    rewrite (of_int_canonical (a + b)) by exact Hab.
    apply binary_round_integer; [subst ez; lia| |exact Hab].
    rewrite Pos2Z.inj_add, Hma, Hmb, Pos2Z.inj_add. ring.
Qed.

End NumberFacts.

(** ** Objects as association lists *)
Section ObjFacts.
Context {V : Type}.
Implicit Types (o : list (string * V)) (k : string) (v : V).

Lemma get_set_same k v o : Obj.get k (Obj.set k v o) = Some v.
Proof.
  induction o as [|[k' v'] o IH]; cbn.
  - now rewrite String.eqb_refl.
  - destruct (String.eqb k' k) eqn:E; cbn; rewrite E; [reflexivity|exact IH].
Qed.

Lemma get_set_other k k' v o : k <> k' -> Obj.get k' (Obj.set k v o) = Obj.get k' o.
Proof.
  intros Hne. induction o as [|[k0 v0] o IH]; cbn.
  - apply String.eqb_neq in Hne. now rewrite Hne.
  - destruct (String.eqb k0 k) eqn:E; cbn.
    + apply String.eqb_eq in E. subst k0.
      apply String.eqb_neq in Hne. now rewrite Hne.
    + now rewrite IH.
Qed.

Lemma get_None_keys k o : Obj.get k o = None <-> ~ In k (Obj.keys o).
Proof.
  induction o as [|[k' v'] o IH]; cbn.
  - tauto.
  - destruct (String.eqb k' k) eqn:E.
    + apply String.eqb_eq in E. split; [discriminate|]. intros H. exfalso. tauto.
    + apply String.eqb_neq in E. rewrite IH. tauto.
Qed.

Lemma set_absent k v o : Obj.get k o = None -> Obj.set k v o = o ++ [(k, v)].
Proof.
  induction o as [|[k' v'] o IH]; cbn; [reflexivity|].
  destruct (String.eqb k' k); [discriminate|]. intros H. now rewrite IH.
Qed.

Lemma keys_set_present k v o :
  Obj.get k o <> None -> Obj.keys (Obj.set k v o) = Obj.keys o.
Proof.
  unfold Obj.keys. induction o as [|[k' v'] o IH]; cbn; [congruence|].
  destruct (String.eqb k' k); cbn; [reflexivity|]. intros H. f_equal. now apply IH.
Qed.



(** Replacing the value of a property by a related one relates the values
    pointwise. *)
Lemma values_set_related (R : V -> V -> Prop) k v v' o :
  (forall x, R x x) ->
  Obj.get k o = Some v -> R v' v ->
  Forall2 R (Obj.values (Obj.set k v' o)) (Obj.values o).
Proof.
  intros Hrefl. induction o as [|[k0 v0] o IH]; cbn; [discriminate|].
  destruct (String.eqb k0 k); cbn.
  - intros [= ->] HR. constructor; [exact HR|].
    clear IH. induction o as [|[k1 v1] o IH]; cbn; constructor; auto.
  - intros Hget HR. constructor; [apply Hrefl|]. now apply IH.
Qed.

End ObjFacts.

(** ** The statistics of a file mapping *)
Section StatsFacts.
Import Metadata Reference.
Local Open Scope Z_scope.

Implicit Types (l : list TranslationFileMetadata) (f : TranslationFileMetadata).

Lemma count_status_where (s : FileStatus) l :
  count_status s l = count_where (has_status s) l.
Proof.
  unfold count_status, has_status.
  induction l as [|f l IH]; [reflexivity|].
  cbn [List.filter count_where].
  destruct (status_eqb (status f) s); cbn [List.length]; lia.
Qed.

Lemma fold_sum_words l (a : Z) :
  fold_left (fun sum f => sum + wordCount f) l a = a + words_where any_file l.
Proof.
  revert a. induction l as [|f l IH]; intros a; cbn [fold_left words_where any_file].
  - lia.
  - rewrite IH. lia.
Qed.

Lemma sum_words_where l : sum_words l = words_where any_file l.
Proof. unfold sum_words. rewrite fold_sum_words. lia. Qed.

Lemma words_where_filter (p : TranslationFileMetadata -> bool) l :
  words_where any_file (List.filter p l) = words_where p l.
Proof.
  induction l as [|f l IH]; [reflexivity|].
  cbn [List.filter words_where].
  destruct (p f); cbn [words_where any_file]; lia.
Qed.

Lemma counts_partition l :
  count_where (has_status complete) l + count_where (has_status in_progress) l
  + count_where (has_status not_started) l = Z.of_nat (List.length l).
Proof.
  induction l as [|f l IH]; [reflexivity|].
  cbn [count_where List.length]. unfold has_status at 1 3 5.
  destruct (status f); cbn [status_eqb]; lia.
Qed.

Lemma existsb_eqb_In (c : string) (s : list string) :
  existsb (String.eqb c) s = true <-> In c s.
Proof.
  rewrite existsb_exists. split.
  - intros (x & Hx & E). apply String.eqb_eq in E. now subst x.
  - intros H. exists c. split; [exact H|apply String.eqb_refl].
Qed.

Lemma set_add_In (c x : string) (s : list string) :
  In c (set_add x s) <-> c = x \/ In c s.
Proof.
  unfold set_add. destruct (existsb (String.eqb x) s) eqn:E.
  - apply existsb_eqb_In in E. split; [tauto|]. intros [->|H]; assumption.
  - rewrite in_app_iff. cbn. split; intros H.
    + destruct H as [H|[H|[]]]; auto.
    + destruct H as [->|H]; auto.
Qed.

Lemma set_add_NoDup (x : string) (s : list string) :
  List.NoDup s -> List.NoDup (set_add x s).
Proof.
  intros H. unfold set_add. destruct (existsb (String.eqb x) s) eqn:E; [exact H|].
  assert (Hx : ~ In x s).
  { intros Hin. apply existsb_eqb_In in Hin. congruence. }
  clear E. induction H as [|y s Hy Hs IH]; cbn.
  - constructor; [intros []|constructor].
  - constructor.
    + rewrite in_app_iff. cbn. intros [H|[H|[]]]; [tauto|]. subst y. cbn in Hx. tauto.
    + apply IH. cbn in Hx. tauto.
Qed.

Lemma contributors_In l :
  forall (acc : list string) (c : string),
    In c (fold_left add_contributor l acc) <->
    In c acc \/ (c <> ""%string /\ exists f, In f l /\ lastContributor f = Some c).
Proof.
  induction l as [|f l IH]; intros acc c; cbn [fold_left].
  - split; [tauto|]. intros [H|(_ & f & [] & _)]. exact H.
  - rewrite IH. unfold add_contributor at 1.
    destruct (lastContributor f) as [x|] eqn:Ef.
    + destruct (String.eqb x "") eqn:Ex.
      * apply String.eqb_eq in Ex. subst x. split.
        -- intros [H|(Hc & g & Hg & Eg)]; [tauto|]. right. split; [exact Hc|].
           exists g. split; [right; exact Hg|exact Eg].
        -- intros [H|(Hc & g & [<-|Hg] & Eg)]; [tauto| |].
           ++ congruence.
           ++ right. split; [exact Hc|]. exists g. tauto.
      * apply String.eqb_neq in Ex. rewrite set_add_In. split.
        -- intros [[->|H]|(Hc & g & Hg & Eg)]; [|tauto|].
           ++ right. split; [exact Ex|]. exists f. split; [left; reflexivity|exact Ef].
           ++ right. split; [exact Hc|]. exists g. split; [right; exact Hg|exact Eg].
        -- intros [H|(Hc & g & [<-|Hg] & Eg)]; [tauto| |].
           ++ left. left. congruence.
           ++ right. split; [exact Hc|]. exists g. tauto.
    + split.
      * intros [H|(Hc & g & Hg & Eg)]; [tauto|]. right. split; [exact Hc|].
        exists g. split; [right; exact Hg|exact Eg].
      * intros [H|(Hc & g & [<-|Hg] & Eg)]; [tauto| |].
        -- congruence.
        -- right. split; [exact Hc|]. exists g. tauto.
Qed.

Lemma contributors_NoDup l :
  forall acc : list string,
    List.NoDup acc -> List.NoDup (fold_left add_contributor l acc).
Proof.
  induction l as [|f l IH]; intros acc H; cbn [fold_left]; [exact H|].
  apply IH. unfold add_contributor.
  destruct (lastContributor f) as [x|]; [|exact H].
  destruct (String.eqb x ""); [exact H|]. now apply set_add_NoDup.
Qed.

Lemma words_where_nonneg (p : TranslationFileMetadata -> bool) l :
  Forall (fun f => 0 <= wordCount f) l -> 0 <= words_where p l <= words_where any_file l.
Proof.
  induction 1 as [|f l Hf _ IH]; cbn [words_where any_file]; [lia|].
  destruct (p f); lia.
Qed.

Lemma safe_words_spec l :
  safe_words l = true <->
  Forall (fun f => 0 <= wordCount f) l /\ words_where any_file l < 2 ^ 53.
Proof.
  unfold safe_words. rewrite andb_true_iff, Z.ltb_lt, sum_words_where.
  assert (H : forallb (fun f => 0 <=? wordCount f) l = true
              <-> Forall (fun f => 0 <= wordCount f) l).
  { induction l as [|f l IH]; cbn [forallb].
    - split; [constructor|reflexivity].
    - rewrite andb_true_iff, Z.leb_le, IH. split.
      + intros [Hf Hl]. now constructor.
      + intros Hl. inversion Hl; subst. tauto. }
  rewrite H. tauto.
Qed.

Lemma filter_nonneg (p : TranslationFileMetadata -> bool) l :
  Forall (fun f => 0 <= wordCount f) l ->
  Forall (fun f => 0 <= wordCount f) (List.filter p l).
Proof.
  rewrite !List.Forall_forall. intros H f Hf. apply filter_In in Hf. now apply H.
Qed.

(** The doubles the code adds up are the integers, as long as the sum
    stays below [2^53]. *)
Lemma sum_words_double_from l : forall acc : Z,
  0 <= acc -> Forall (fun f => 0 <= wordCount f) l ->
  acc + words_where any_file l < 2 ^ 53 ->
  fold_left (fun sum f => Number.add sum (Number.of_int (wordCount f))) l
    (Number.of_int acc)
  = Number.of_int (acc + words_where any_file l).
Proof.
  induction l as [|f l IH]; intros acc Hacc Hl Hsum; cbn [fold_left words_where any_file].
  - now rewrite Z.add_0_r.
  - inversion Hl as [|f' l' Hf Hl']; subst.
    pose proof (words_where_nonneg any_file l Hl') as Hw.
    cbn [words_where any_file] in Hsum.
    rewrite add_of_int by lia. rewrite IH by (assumption || lia).
    f_equal. lia.
Qed.

Lemma sum_words_double_exact l :
  Forall (fun f => 0 <= wordCount f) l -> words_where any_file l < 2 ^ 53 ->
  sum_words_double l = Number.of_int (words_where any_file l).
Proof.
  intros Hl Hsum. unfold sum_words_double.
  rewrite (sum_words_double_from l 0) by (assumption || lia). reflexivity.
Qed.

(** C2 (amended). For every file mapping, [calculateStats] is the reference
    aggregation: [totalFiles] is the number of entries; [completed],
    [inProgress] and [notStarted] count the entries of each status and sum
    to [totalFiles]; [contributors] has no duplicates and holds exactly the
    [lastContributor] values that are neither [null] nor the empty string.
    When no word count is negative and their sum is below [2^53],
    [totalWords] is the sum of [wordCount] over all entries and
    [translatedWords] the sum over the complete ones, and the doubles the
    code adds up are these integers. *)
Theorem calculateStats_reference (files : list (string * TranslationFileMetadata)) :
  let s := calculateStats files in
  let fileArray := Obj.values files in
  totalFiles s = Z.of_nat (List.length files)
  /\ completed s = count_where (has_status complete) fileArray
  /\ inProgress s = count_where (has_status in_progress) fileArray
  /\ notStarted s = count_where (has_status not_started) fileArray
  /\ completed s + inProgress s + notStarted s = totalFiles s
  /\ (safe_words fileArray = true ->
      totalWords s = words_where any_file fileArray
      /\ translatedWords s = words_where (has_status complete) fileArray
      /\ sum_words_double fileArray = Number.of_int (totalWords s)
      /\ sum_words_double (List.filter (has_status complete) fileArray)
         = Number.of_int (translatedWords s))
  /\ List.NoDup (contributors s)
  /\ (forall c : string,
        In c (contributors s) <->
        c <> ""%string /\ exists f, In f fileArray /\ lastContributor f = Some c).
Proof.
  intros s fileArray. subst s. unfold calculateStats.
  cbn [totalFiles completed inProgress notStarted totalWords translatedWords contributors].
  fold fileArray.
  assert (Hlen : List.length fileArray = List.length files)
    by (subst fileArray; unfold Obj.values; apply length_map).
  change (fun f : TranslationFileMetadata => status_eqb (status f) complete)
    with (has_status complete).
  rewrite !count_status_where, !sum_words_where.
  rewrite (words_where_filter (has_status complete)).
  split; [now rewrite Hlen|].
  split; [reflexivity|]. split; [reflexivity|]. split; [reflexivity|].
  split; [rewrite counts_partition; reflexivity|].
  split.
  - intros Hsafe. apply safe_words_spec in Hsafe. destruct Hsafe as [Hnn Hsum].
    pose proof (words_where_nonneg (has_status complete) fileArray Hnn) as Hdone.
    split; [reflexivity|]. split; [reflexivity|]. split.
    + now apply sum_words_double_exact.
    + rewrite <- (words_where_filter (has_status complete)).
      apply sum_words_double_exact; [now apply filter_nonneg|].
      rewrite (words_where_filter (has_status complete)). lia.
  - split; [apply contributors_NoDup; constructor|].
    intros c. rewrite contributors_In. cbn [In]. tauto.
Qed.

Lemma calculateStats_reference_witness :
  let entry s (n : Z) :=
    {| status := s; lastUpdated := None; lastContributor := None;
       lastCommitSha := None; prNumber := None; prUrl := None; wordCount := n;
       machineTranslated := true; humanReviewed := false |} in
  let files := [("intro.md"%string, entry complete 120);
                ("setup.md"%string, entry in_progress 45)] in
  totalWords (calculateStats files) = 165
  /\ translatedWords (calculateStats files) = 120
  /\ sum_words_double (Obj.values files) = Number.of_int 165.
Proof.
  intros entry files.
  destruct (calculateStats_reference files) as (_ & _ & _ & _ & _ & Hwords & _).
  destruct (Hwords eq_refl) as (Ht & Hd & Hs & _).
  split; [exact Ht|]. split; [exact Hd|exact Hs].
Defined.

(** C2, as stated, fails on an empty-string contributor, which is not
    [null], yet [calculateStats] leaves it out; and on word counts whose sum
    leaves the safe integers: the code adds [2^53] and [1] to the double
    [2^53]. *)
Lemma calculateStats_as_stated_counterexample :
  let entry (c : option string) (n : Z) :=
    {| status := in_progress; lastUpdated := None; lastContributor := c;
       lastCommitSha := None; prNumber := None; prUrl := None; wordCount := n;
       machineTranslated := true; humanReviewed := false |} in
  let files := [("intro.md"%string, entry (Some ""%string) 12)] in
  let large := [entry None (2 ^ 53); entry None 1] in
  (contributors (calculateStats files) = []
   /\ ~ (forall c : string,
           (exists g, In g (Obj.values files) /\ lastContributor g = Some c) ->
           In c (contributors (calculateStats files))))
  /\ (words_where any_file large = 2 ^ 53 + 1
      /\ sum_words_double large = Number.of_int (2 ^ 53)
      /\ Number.of_int (2 ^ 53) = S754_finite false (2 ^ 52) 1).
Proof.
  cbn zeta. split; [split; [reflexivity|]|].
  - intros H. apply (H ""%string). eexists. split; [left; reflexivity|reflexivity].
  - split; [reflexivity|]. split; vm_compute; reflexivity.
Qed.

End StatsFacts.

(** ** The percentage *)
Section PercentFacts.
Import Metadata Reference Number.
Local Open Scope Z_scope.

Lemma same_double_eq (x y : spec_float) : same_double x y = true -> x = y.
Proof.
  destruct x as [s|s| |s m e], y as [s'|s'| |s' m' e']; cbn; try discriminate.
  - intros H. apply Bool.eqb_prop in H. now subst.
  - intros H. apply Bool.eqb_prop in H. now subst.
  - reflexivity.
  - intros H. apply andb_true_iff in H as [H He]. apply andb_true_iff in H as [Hs Hm].
    apply Bool.eqb_prop in Hs. apply Pos.eqb_eq in Hm. apply Z.eqb_eq in He.
    now subst.
Qed.

Lemma all_counts_spec (P : Z -> Z -> bool) (bound : nat) :
  all_counts P bound = true ->
  forall c t, 0 <= c <= t -> 0 < t <= Z.of_nat bound -> P c t = true.
Proof.
  intros H c t Hc Ht. unfold all_counts in H.
  rewrite forallb_forall in H.
  specialize (H (Z.to_nat (t - 1)) ltac:(apply in_seq; lia)).
  rewrite forallb_forall in H.
  specialize (H (Z.to_nat c) ltac:(apply in_seq; lia)).
  replace (Z.of_nat (S (Z.to_nat (t - 1)))) with t in H by lia.
  replace (Z.of_nat (Z.to_nat c)) with c in H by lia.
  exact H.
Qed.

Lemma percent_exact_39 : all_counts percent_exact 39 = true.
Proof. vm_compute. reflexivity. Qed.

(** Below forty files the double computation lands on the exact rounding. *)
Lemma percent_of_exact (c t : Z) :
  0 <= c <= t -> 0 < t < 40 ->
  percent_of c t = of_int (round_half_up (exact_percent c t)).
Proof.
  intros Hc Ht. apply same_double_eq.
  apply (all_counts_spec percent_exact 39 percent_exact_39); [exact Hc|lia].
Qed.

Lemma percent_near_200 : all_counts percent_near 200 = true.
Proof. vm_compute. reflexivity. Qed.

(** Up to two hundred files the double computation misses the exact
    rounding only at a tie, and then by one. *)
Lemma percent_of_near (c t : Z) :
  0 <= c <= t -> 0 < t <= 200 ->
  percent_of c t = of_int (round_half_up (exact_percent c t))
  \/ (is_tie c t = true
      /\ percent_of c t = of_int (round_half_up (exact_percent c t) - 1)).
Proof.
  intros Hc Ht.
  assert (H : percent_near c t = true)
    by (apply (all_counts_spec percent_near 200 percent_near_200); [exact Hc|lia]).
  unfold percent_near in H. apply orb_true_iff in H as [H|H].
  - left. now apply same_double_eq.
  - right. apply andb_true_iff in H as [Htie H]. split; [exact Htie|].
    now apply same_double_eq.
Qed.

Lemma count_where_bounds (p : TranslationFileMetadata -> bool)
    (l : list TranslationFileMetadata) :
  0 <= count_where p l <= Z.of_nat (List.length l).
Proof.
  induction l as [|f l IH]; cbn [count_where List.length]; [lia|].
  destruct (p f); lia.
Qed.

Lemma percentComplete_unfold (files : list (string * TranslationFileMetadata)) :
  percentComplete (calculateStats files)
  = if 0 <? totalFiles (calculateStats files)
    then percent_of (completed (calculateStats files)) (totalFiles (calculateStats files))
    else of_int 0.
Proof. reflexivity. Qed.

(** C3 (amended). [percentComplete] is 0 when there is no file; otherwise it
    is [Math.round] (round half up) of the double-precision product
    [(completed / totalFiles) * 100].  For fewer than forty files this is
    round-half-up of the exact quotient, and 1 complete file out of 3 gives
    33; up to two hundred files it differs from the exact rounding only
    where the exact percentage is a tie, and then it is one below. *)
Theorem calculateStats_percent (files : list (string * TranslationFileMetadata)) :
  let s := calculateStats files in
  (totalFiles s = 0 -> percentComplete s = of_int 0)
  /\ (0 < totalFiles s ->
      percentComplete s
      = Math_round (mul (div (of_int (completed s)) (of_int (totalFiles s)))
                        (of_int 100)))
  /\ (0 < totalFiles s < 40 ->
      percentComplete s
      = of_int (round_half_up (exact_percent (completed s) (totalFiles s))))
  /\ (completed s = 1 -> totalFiles s = 3 -> percentComplete s = of_int 33)
  /\ (0 < totalFiles s <= 200 ->
      percentComplete s
      = of_int (round_half_up (exact_percent (completed s) (totalFiles s)))
      \/ (is_tie (completed s) (totalFiles s) = true
          /\ percentComplete s
             = of_int (round_half_up (exact_percent (completed s) (totalFiles s)) - 1))).
Proof.
  intros s. subst s.
  assert (Hc : 0 <= completed (calculateStats files) <= totalFiles (calculateStats files)).
  { cbn [completed totalFiles calculateStats]. rewrite count_status_where.
    apply count_where_bounds. }
  rewrite percentComplete_unfold.
  split; [|split; [|split; [|split]]].
  - intros H. rewrite H. reflexivity.
  - intros H. apply Z.ltb_lt in H. rewrite H. reflexivity.
  - intros H. destruct (0 <? totalFiles (calculateStats files)) eqn:E;
      [|apply Z.ltb_ge in E; lia].
    apply percent_of_exact; [exact Hc|exact H].
  - intros H1 H3. rewrite H1, H3. reflexivity.
  - intros H. destruct (0 <? totalFiles (calculateStats files)) eqn:E;
      [|apply Z.ltb_ge in E; lia].
    apply percent_of_near; [exact Hc|exact H].
Qed.

Lemma calculateStats_percent_witness :
  percentComplete (calculateStats (some_complete 1 3)) = of_int 33
  /\ percentComplete (calculateStats (some_complete 1 3))
     = of_int (round_half_up (exact_percent 1 3))
  /\ percentComplete (calculateStats []) = of_int 0
  /\ (is_tie 23 40 = true
      /\ percentComplete (calculateStats (some_complete 23 40))
         = of_int (round_half_up (exact_percent 23 40) - 1)).
Proof.
  split; [|split; [|split]].
  - apply (proj2 (proj2 (proj2 (calculateStats_percent (some_complete 1 3)))));
      reflexivity.
  - apply (proj1 (proj2 (proj2 (calculateStats_percent (some_complete 1 3))))).
    vm_compute. split; reflexivity.
  - apply (proj1 (calculateStats_percent [])). reflexivity.
  - destruct (proj2 (proj2 (proj2 (proj2 (calculateStats_percent (some_complete 23 40))))))
      as [H|H].
    + vm_compute. split; [reflexivity|discriminate].
    + vm_compute in H. discriminate H.
    + exact H.
Defined.

(** C3, as stated, fails at 23 complete files out of 40: the exact
    percentage is 57.5, which rounds half up to 58, but the double nearest
    to 23/40 times 100 is 57.49999999999999 and the code returns 57. *)
Lemma calculateStats_percent_counterexample :
  let s := calculateStats (some_complete 23 40) in
  completed s = 23 /\ totalFiles s = 40
  /\ round_half_up (exact_percent 23 40) = 58
  /\ mul (div (of_int 23) (of_int 40)) (of_int 100)
     = S754_finite false 8092405580431359 (-47)
  /\ percentComplete s = of_int 57
  /\ percentComplete s <> of_int (round_half_up (exact_percent 23 40)).
Proof.
  vm_compute. repeat split. discriminate.
Qed.

End PercentFacts.

(** ** [updateFileMetadata] on document values *)
Section UpdateFacts.
Import Metadata Reference.
Local Open Scope Z_scope.

Implicit Types (m : TranslationMetadata) (u : PartialFileMetadata)
  (e : TranslationFileMetadata) (filename : string).

Lemma override_twice {A : Type} (x : option A) (old : A) :
  override x (override x old) = override x old.
Proof. destruct x; reflexivity. Qed.

Lemma merge_entry_twice (a1 a2 : Z) e u :
  merge_entry a2 (merge_entry a1 e u) u
  = with_lastUpdated (Some a2) (merge_entry a1 e u).
Proof.
  unfold merge_entry, with_lastUpdated. cbn. now rewrite !override_twice.
Qed.

Lemma counted_fields_with_lastUpdated (t : option Z) e :
  counted_fields (with_lastUpdated t e) = counted_fields e.
Proof. reflexivity. Qed.

(** The statistics read nothing of an entry but its counted fields. *)
Lemma calculateStats_counted_fields (o1 o2 : list (string * TranslationFileMetadata)) :
  Forall2 (fun x y => counted_fields x = counted_fields y)
          (Obj.values o1) (Obj.values o2) ->
  calculateStats o1 = calculateStats o2.
Proof.
  unfold calculateStats.
  generalize (Obj.values o1) (Obj.values o2). intros l1 l2 H.
  assert (Hlen : List.length l1 = List.length l2) by (eapply Forall2_length; eauto).
  assert (Hcount : forall s, count_status s l1 = count_status s l2).
  { intros s. rewrite !count_status_where.
    induction H as [|x y l1 l2 Hxy H IH]; [reflexivity|].
    cbn [count_where]. unfold has_status at 1 3.
    injection Hxy as Hs _ _. rewrite Hs, IH by (eapply Forall2_length; eauto).
    reflexivity. }
  assert (Hall : words_where any_file l1 = words_where any_file l2).
  { clear Hlen Hcount.
    induction H as [|x y l1 l2 Hxy H IH]; [reflexivity|].
    cbn [words_where any_file]. injection Hxy as _ Hw _. now rewrite Hw, IH. }
  assert (Hdone : words_where (has_status complete) l1
                  = words_where (has_status complete) l2).
  { clear Hlen Hcount Hall.
    induction H as [|x y l1 l2 Hxy H IH]; [reflexivity|].
    cbn [words_where]. unfold has_status at 1 3.
    injection Hxy as Hs Hw _. now rewrite Hs, Hw, IH. }
  assert (Hcontrib : forall acc, fold_left add_contributor l1 acc
                                 = fold_left add_contributor l2 acc).
  { clear Hlen Hcount Hall Hdone.
    induction H as [|x y l1 l2 Hxy H IH]; intros acc; [reflexivity|].
    cbn [fold_left]. unfold add_contributor at 2 4.
    injection Hxy as _ _ Hc. rewrite Hc. apply IH. }
  rewrite Hlen, !Hcount, Hcontrib.
  rewrite !sum_words_where.
  change (fun f : TranslationFileMetadata => status_eqb (status f) complete)
    with (has_status complete).
  rewrite (words_where_filter (has_status complete) l1).
  rewrite (words_where_filter (has_status complete) l2).
  rewrite Hall, Hdone.
  reflexivity.
Qed.

(** The files object the function ends with: the entry it started from
    (the existing one, or a blank one), merged with the update. *)
Lemma updateFileMetadata_files (a b : Z) m filename u :
  exists (base : list (string * TranslationFileMetadata)) e0,
    Obj.get filename base = Some e0
    /\ (forall k, k <> filename -> Obj.get k base = Obj.get k (files m))
    /\ (Obj.get filename (files m) <> None -> base = files m)
    /\ files (updateFileMetadata a b m filename u)
       = Obj.set filename (merge_entry a e0 u) base.
Proof.
  unfold updateFileMetadata. cbn [files].
  destruct (Obj.get filename (files m)) as [e0|] eqn:E.
  - exists (files m), e0. rewrite E. repeat split; auto.
  - exists (Obj.set filename (blank_entry false) (files m)), (blank_entry false).
    rewrite get_set_same. repeat split.
    + intros k Hk. apply get_set_other. congruence.
    + congruence.
Qed.

Lemma updateFileMetadata_entry (a b : Z) m filename u :
  exists e0,
    Obj.get filename (files (updateFileMetadata a b m filename u))
    = Some (merge_entry a e0 u).
Proof.
  destruct (updateFileMetadata_files a b m filename u) as (base & e0 & _ & _ & _ & ->).
  exists e0. apply get_set_same.
Qed.

Lemma updateFileMetadata_others (a b : Z) m filename u (k : string) :
  k <> filename ->
  Obj.get k (files (updateFileMetadata a b m filename u)) = Obj.get k (files m).
Proof.
  intros Hk.
  destruct (updateFileMetadata_files a b m filename u) as (base & e0 & _ & Hb & _ & ->).
  rewrite get_set_other by congruence. now apply Hb.
Qed.

(** C7 (amended). Apply [updateFileMetadata] twice in a row with the same
    filename and the same partial update.  The entry of the second result
    is the entry of the first with only its [lastUpdated] replaced; the
    other entries, the property order, the statistics and every top-level
    field but the document's [lastUpdated] are those of the first result.
    The two [lastUpdated] stamps of each result are the clock readings of
    that application: they advance exactly as the clock did. *)
Theorem updateFileMetadata_twice (a1 b1 a2 b2 : Z) m filename u :
  let r1 := updateFileMetadata a1 b1 m filename u in
  let r2 := updateFileMetadata a2 b2 r1 filename u in
  (exists e1,
      Obj.get filename (files r1) = Some e1
      /\ lastUpdated e1 = Some a1
      /\ Obj.get filename (files r2) = Some (with_lastUpdated (Some a2) e1))
  /\ (forall k, k <> filename -> Obj.get k (files r2) = Obj.get k (files r1))
  /\ Obj.keys (files r2) = Obj.keys (files r1)
  /\ stats r2 = stats r1
  /\ docLastUpdated r1 = b1 /\ docLastUpdated r2 = b2
  /\ (version r2, language r2, languageName r2, direction r2, project r2,
      coordinator r2, initialized r2, meta r2)
     = (version r1, language r1, languageName r1, direction r1, project r1,
        coordinator r1, initialized r1, meta r1).
Proof.
  intros r1 r2.
  destruct (updateFileMetadata_entry a1 b1 m filename u) as (e0 & He1).
  fold r1 in He1.
  assert (Hfiles2 : files r2
                    = Obj.set filename (with_lastUpdated (Some a2) (merge_entry a1 e0 u))
                        (files r1)).
  { destruct (updateFileMetadata_files a2 b2 r1 filename u)
      as (base & e' & Hget & _ & Hbase & Hf).
    fold r2 in Hf. rewrite Hbase in Hget, Hf by congruence.
    rewrite He1 in Hget. injection Hget as <-.
    rewrite Hf. now rewrite merge_entry_twice. }
  split; [|split; [|split; [|split; [|split; [|split]]]]].
  - exists (merge_entry a1 e0 u). split; [exact He1|]. split; [reflexivity|].
    rewrite Hfiles2. apply get_set_same.
  - intros k Hk. subst r2. now apply updateFileMetadata_others.
  - rewrite Hfiles2. apply keys_set_present. congruence.
  - change (stats r2) with (calculateStats (files r2)).
    change (stats r1) with (calculateStats (files r1)).
    apply calculateStats_counted_fields. rewrite Hfiles2.
    eapply values_set_related; [reflexivity|exact He1|].
    apply counted_fields_with_lastUpdated.
  - reflexivity.
  - reflexivity.
  - reflexivity.
Qed.

End UpdateFacts.

Section UpdateTimestamps.
Import Metadata Reference.
Local Open Scope Z_scope.

(** C7, as stated, fails on the timestamps: two applications that read the
    same clock value (the clock has millisecond resolution) leave both
    [lastUpdated] stamps where they were. *)
Lemma updateFileMetadata_same_instant_counterexample :
  let m := createInitialTranslationMetadata 0 "docs" "es-ES" "Spanish" ltr
             "maria" ["intro.md"%string] "abc123" in
  let r1 := updateFileMetadata 1000 1000 m "intro.md" (only_status in_progress) in
  let r2 := updateFileMetadata 1000 1000 r1 "intro.md" (only_status in_progress) in
  docLastUpdated r1 = 1000 /\ docLastUpdated r2 = 1000
  /\ (exists e, Obj.get "intro.md" (files r1) = Some e /\ lastUpdated e = Some 1000)
  /\ (exists e, Obj.get "intro.md" (files r2) = Some e /\ lastUpdated e = Some 1000)
  /\ ~ (docLastUpdated r1 < docLastUpdated r2).
Proof.
  cbn. repeat split; try (eexists; split; reflexivity). lia.
Qed.

End UpdateTimestamps.

(** ** The invariant [stats = calculateStats files] *)
Section InvariantFacts.
Import Metadata FileProcessing Reference.
Local Open Scope Z_scope.






End InvariantFacts.

Section Invariant.
Import Metadata FileProcessing Reference.
Local Open Scope Z_scope.









End Invariant.

(** ** [updateFileMetadata] leaves its input alone *)
Section HeapFacts.
Import Metadata MetadataHeap Reference.

Lemma run_alloc (h t : heap) (c : cell) :
  alloc c (h ++ t) = Some (List.length h + List.length t, h ++ (t ++ [c])).
Proof. unfold alloc. now rewrite length_app, app_assoc. Qed.

Lemma run_read_old (h t : heap) (l : loc) (c : cell) :
  h !! l = Some c -> read l (h ++ t) = Some (c, h ++ t).
Proof. intros H. unfold read. now rewrite (lookup_app_l_Some _ _ _ _ H). Qed.

Lemma run_read_new (h t : heap) (i : nat) (c : cell) :
  t !! i = Some c -> read (List.length h + i) (h ++ t) = Some (c, h ++ t).
Proof.
  intros H. unfold read. rewrite lookup_app_r by lia.
  replace (List.length h + i - List.length h) with i by lia. now rewrite H.
Qed.

Lemma run_write_new (h t : heap) (i : nat) (c c0 : cell) :
  t !! i = Some c0 ->
  write (List.length h + i) c (h ++ t) = Some (tt, h ++ <[i := c]> t).
Proof.
  intros H. unfold write. rewrite lookup_app_r by lia.
  replace (List.length h + i - List.length h) with i by lia.
  now rewrite H, insert_app_r.
Qed.

Lemma bind_run {A B : Type} (m : M A) (f : A -> M B) (h h' : heap) (a : A) :
  m h = Some (a, h') -> (m ≫= f) h = f a h'.
Proof. intros H. unfold mbind, M_bind. now rewrite H. Qed.

Lemma read_entries_inv (props : list (string * loc)) :
  forall h entries h',
    read_entries props h = Some (entries, h') ->
    h' = h /\ entries_of h props entries.
Proof.
  induction props as [|[k l] props IH]; intros h entries h' H; cbn in H.
  - injection H as <- <-. split; [reflexivity|constructor].
  - unfold read_file, read, mbind, M_bind in H.
    destruct (h !! l) as [[f| | | |]|] eqn:E; try discriminate H.
    cbn in H. fold (read_entries props) in H.
    destruct (read_entries props h) as [[fs h1]|] eqn:Er; try discriminate H.
    cbn in H. injection H as <- <-.
    destruct (IH _ _ _ Er) as [-> Hfs].
    split; [reflexivity|]. constructor; [split; [reflexivity|exact E]|exact Hfs].
Qed.

Lemma read_entries_run (props : list (string * loc)) :
  forall h entries,
    entries_of h props entries -> read_entries props h = Some (entries, h).
Proof.
  induction props as [|[k l] props IH]; intros h entries H; inversion H; subst.
  - reflexivity.
  - destruct y as [k' f]. destruct H2 as [Hk Hl]. cbn in Hk, Hl. subst k'.
    cbn [read_entries]. unfold read_file, read, mbind, M_bind. rewrite Hl.
    cbn. fold (read_entries props). rewrite (IH _ _ H4). reflexivity.
Qed.

Lemma entries_of_mono (h h' : heap) props entries :
  (forall l c, h !! l = Some c -> h' !! l = Some c) ->
  entries_of h props entries -> entries_of h' props entries.
Proof.
  intros Hext H. induction H as [|p e props entries [Hk Hl] H IH]; constructor; auto.
Qed.

Lemma entries_of_get (h : heap) props entries (k : string) :
  entries_of h props entries ->
  match Obj.get k props with
  | Some l => exists f, Obj.get k entries = Some f /\ h !! l = Some (FileCell f)
  | None => Obj.get k entries = None
  end.
Proof.
  intros H. induction H as [|[k1 l1] [k2 f2] props entries [Hk Hl] H IH];
    cbn [Obj.get]; [reflexivity|].
  cbn in Hk, Hl. subst k2.
  destruct (String.eqb k1 k); [eauto|exact IH].
Qed.

Lemma entries_of_set (h : heap) props entries (k : string) (l : loc)
    (f : TranslationFileMetadata) :
  entries_of h props entries ->
  h !! l = Some (FileCell f) ->
  entries_of h (Obj.set k l props) (Obj.set k f entries).
Proof.
  intros H Hl. induction H as [|[k1 l1] [k2 f2] props entries [Hk Hl1] H IH];
    cbn [Obj.set].
  - constructor; [split; [reflexivity|exact Hl]|constructor].
  - cbn in Hk, Hl1. subst k2.
    destruct (String.eqb k1 k).
    + constructor; [split; [reflexivity|exact Hl]|exact H].
    + constructor; [split; [reflexivity|exact Hl1]|exact IH].
Qed.

(** What [denote] reads. *)
Lemma denote_inv (h : heap) (l : loc) (doc : TranslationMetadata) :
  denote h l = Some doc <->
  exists d props,
    h !! l = Some (DocCell d)
    /\ h !! o_files d = Some (FilesCell props)
    /\ entries_of h props (files doc)
    /\ h !! o_stats d = Some (StatsCell (stats doc))
    /\ h !! o_meta d = Some (MetaCell (meta doc))
    /\ doc = {| version := o_version d; language := o_language d;
                languageName := o_languageName d; direction := o_direction d;
                project := o_project d; coordinator := o_coordinator d;
                initialized := o_initialized d; docLastUpdated := o_lastUpdated d;
                files := files doc; stats := stats doc; meta := meta doc |}.
Proof.
  unfold denote, read_doc, read_props, read, mbind, M_bind, mret, M_ret, fail.
  split.
  - intros H.
    destruct (h !! l) as [[| | | |d]|] eqn:E; try discriminate H.
    destruct (h !! o_files d) as [[|props| | |]|] eqn:Ef; try discriminate H.
    destruct (read_entries props h) as [[entries h1]|] eqn:Er; try discriminate H.
    destruct (read_entries_inv _ _ _ _ Er) as [-> He].
    destruct (h !! o_stats d) as [[| |s| |]|] eqn:Es; try discriminate H.
    destruct (h !! o_meta d) as [[| | |mm|]|] eqn:Em; try discriminate H.
    injection H as <-. exists d, props. cbn. auto 10.
  - intros (d & props & E & Ef & He & Es & Em & Hdoc).
    rewrite E, Ef. rewrite (read_entries_run _ _ _ He). rewrite Es, Em.
    f_equal. symmetry. exact Hdoc.
Qed.

Lemma denote_mono (h h' : heap) (l : loc) (doc : TranslationMetadata) :
  (forall l c, h !! l = Some c -> h' !! l = Some c) ->
  denote h l = Some doc -> denote h' l = Some doc.
Proof.
  intros Hext H. apply denote_inv in H.
  destruct H as (d & props & E & Ef & He & Es & Em & Hdoc).
  apply denote_inv. exists d, props.
  repeat split; auto. eapply entries_of_mono; eauto.
Qed.

Lemma run_read_doc_old (h t : heap) (l : loc) (d : DocObject) :
  h !! l = Some (DocCell d) -> read_doc l (h ++ t) = Some (d, h ++ t).
Proof. intros H. unfold read_doc. now rewrite (bind_run _ _ _ _ _ (run_read_old h t l _ H)). Qed.

Lemma run_read_props_old (h t : heap) (l : loc) props :
  h !! l = Some (FilesCell props) -> read_props l (h ++ t) = Some (props, h ++ t).
Proof. intros H. unfold read_props. now rewrite (bind_run _ _ _ _ _ (run_read_old h t l _ H)). Qed.

Lemma run_read_props_new (h t : heap) (i : nat) props :
  t !! i = Some (FilesCell props) ->
  read_props (List.length h + i) (h ++ t) = Some (props, h ++ t).
Proof. intros H. unfold read_props. now rewrite (bind_run _ _ _ _ _ (run_read_new h t i _ H)). Qed.

Lemma run_read_file (h : heap) (l : loc) f :
  h !! l = Some (FileCell f) -> read_file l h = Some (f, h).
Proof. intros H. unfold read_file, read, mbind, M_bind. now rewrite H. Qed.

Lemma run_set_prop_new (h t : heap) (i : nat) props (name : string) (ref : loc) :
  t !! i = Some (FilesCell props) ->
  set_prop (List.length h + i) name ref (h ++ t)
  = Some (tt, h ++ <[i := FilesCell (Obj.set name ref props)]> t).
Proof.
  intros H. unfold set_prop.
  rewrite (bind_run _ _ _ _ _ (run_read_props_new h t i _ H)).
  now apply run_write_new with (c0 := FilesCell props).
Qed.

Lemma lookup_new (h t : heap) (i : nat) : (h ++ t) !! (List.length h + i) = t !! i.
Proof. rewrite lookup_app_r by lia. f_equal. lia. Qed.

Lemma bind_bind {A B C : Type} (m : M A) (f : A -> M B) (g : B -> M C) (h : heap) :
  ((m ≫= f) ≫= g) h = (m ≫= fun a => f a ≫= g) h.
Proof. unfold mbind, M_bind. destruct (m h) as [[a h']|]; reflexivity. Qed.

Lemma run_ret {A : Type} (a : A) (h : heap) : (mret a : M A) h = Some (a, h).
Proof. reflexivity. Qed.

(** One step of a computation whose result on the current store is known. *)
Tactic Notation "run" uconstr(H) :=
  rewrite (bind_run _ _ _ _ _ H); cbn [List.length app].

Lemma denote_fields (h : heap) (l : loc) (doc : TranslationMetadata) (d : DocObject) :
  denote h l = Some doc -> h !! l = Some (DocCell d) ->
  version doc = o_version d /\ language doc = o_language d
  /\ languageName doc = o_languageName d /\ direction doc = o_direction d
  /\ project doc = o_project d /\ coordinator doc = o_coordinator d
  /\ initialized doc = o_initialized d.
Proof.
  intros H E. apply denote_inv in H.
  destruct H as (d' & props & E' & _ & _ & _ & _ & Hdoc).
  assert (d' = d) by congruence. subst d'. rewrite Hdoc. cbn. auto 10.
Qed.

(** Running the function on the store: the store only grows, and the new
    document stands for the value [Metadata.updateFileMetadata] returns. *)
Lemma updateFileMetadata_run (h : heap) (metadata : loc)
    (doc : TranslationMetadata) (now_entry now_doc : Z) (filename : string)
    (updates : PartialFileMetadata) :
  denote h metadata = Some doc ->
  exists (t : heap) (result : loc),
    MetadataHeap.updateFileMetadata now_entry now_doc metadata filename updates h
      = Some (result, h ++ t)
    /\ denote (h ++ t) result
       = Some (Metadata.updateFileMetadata now_entry now_doc doc filename updates).
Proof.
  intros H.
  pose proof H as Hd. apply denote_inv in Hd.
  destruct Hd as (d & props & E & Ef & He & Es & Em & Hdoc).
  destruct (denote_fields h metadata doc d H E) as (F1 & F2 & F3 & F4 & F5 & F6 & F7).
  replace (MetadataHeap.updateFileMetadata now_entry now_doc metadata filename updates h)
    with (MetadataHeap.updateFileMetadata now_entry now_doc metadata filename updates (h ++ []))
    by now rewrite app_nil_r.
  unfold MetadataHeap.updateFileMetadata.
  run (run_read_doc_old h [] _ _ E).
  run (run_read_props_old h [] _ _ Ef).
  run (run_alloc h [] _).
  pose proof (entries_of_get h props (files doc) filename He) as Hget.
  destruct (Obj.get filename props) as [l0|] eqn:Eg.
  - destruct Hget as (e0 & Hg0 & Hl0).
    set (merged := merge_entry now_entry e0 updates).
    set (props' := Obj.set filename (List.length h + 1) props).
    set (entries' := Obj.set filename merged (files doc)).
    set (t := [FilesCell props'; FileCell merged; StatsCell (calculateStats entries');
               DocCell {| o_version := o_version d; o_language := o_language d;
                          o_languageName := o_languageName d;
                          o_direction := o_direction d; o_project := o_project d;
                          o_coordinator := o_coordinator d;
                          o_initialized := o_initialized d; o_lastUpdated := now_doc;
                          o_files := List.length h + 0; o_stats := List.length h + 2;
                          o_meta := o_meta d |}]).
    assert (Hold : forall l c, h !! l = Some c -> (h ++ t) !! l = Some c)
      by (intros; now apply lookup_app_l_Some).
    assert (Hent : forall t', t' !! 1 = Some (FileCell merged) ->
                     entries_of (h ++ t') props' entries').
    { intros t' Ht'. apply entries_of_set.
      - eapply entries_of_mono; [|exact He]. intros; now apply lookup_app_l_Some.
      - now rewrite lookup_new. }
    exists t, (List.length h + 3).
    run (run_ret _ _).
    run (run_read_props_new h [FilesCell props] 0 props eq_refl).
    rewrite Eg.
    run (run_read_file _ l0 e0 (lookup_app_l_Some _ _ _ _ Hl0)).
    run (run_alloc h _ _).
    run (run_set_prop_new h [FilesCell props; FileCell merged]
           0 props filename _ eq_refl).
    cbn [list_insert insert].
    run (run_read_props_new h [FilesCell props'; FileCell merged] 0 _ eq_refl).
    run (read_entries_run _ _ _ (Hent [FilesCell props'; FileCell merged] eq_refl)).
    run (run_alloc h _ _).
    rewrite run_alloc. cbn [List.length app].
    split; [reflexivity|].
    apply denote_inv. eexists _, props'.
    split; [apply (lookup_new h t 3)|]. cbn [o_files o_stats o_meta].
    split; [apply (lookup_new h t 0)|].
    assert (Hfiles : files (Metadata.updateFileMetadata now_entry now_doc doc filename updates)
                     = entries').
    { unfold Metadata.updateFileMetadata. cbn [files]. rewrite Hg0, Hg0. reflexivity. }
    split; [rewrite Hfiles; now apply Hent|].
    split; [rewrite (lookup_new h t 2); cbn; now rewrite <- Hfiles|].
    split; [now apply Hold|].
    unfold Metadata.updateFileMetadata. cbn.
    now rewrite F1, F2, F3, F4, F5, F6, F7.
  - set (blank := blank_entry false).
    set (merged := merge_entry now_entry blank updates).
    set (props1 := Obj.set filename (List.length h + 1) props).
    set (props2 := Obj.set filename (List.length h + 2) props1).
    set (entries' := Obj.set filename merged (Obj.set filename blank (files doc))).
    set (t := [FilesCell props2; FileCell blank; FileCell merged;
               StatsCell (calculateStats entries');
               DocCell {| o_version := o_version d; o_language := o_language d;
                          o_languageName := o_languageName d;
                          o_direction := o_direction d; o_project := o_project d;
                          o_coordinator := o_coordinator d;
                          o_initialized := o_initialized d; o_lastUpdated := now_doc;
                          o_files := List.length h + 0; o_stats := List.length h + 3;
                          o_meta := o_meta d |}]).
    assert (Hold : forall l c, h !! l = Some c -> (h ++ t) !! l = Some c)
      by (intros; now apply lookup_app_l_Some).
    assert (Hent : forall t', t' !! 1 = Some (FileCell blank) ->
                     t' !! 2 = Some (FileCell merged) ->
                     entries_of (h ++ t') props2 entries').
    { intros t' H1 H2. apply entries_of_set; [apply entries_of_set|].
      - eapply entries_of_mono; [|exact He]. intros; now apply lookup_app_l_Some.
      - now rewrite lookup_new.
      - now rewrite lookup_new. }
    exists t, (List.length h + 4).
    rewrite bind_bind.
    run (run_alloc h _ _).
    run (run_set_prop_new h [FilesCell props; FileCell blank]
           0 props filename _ eq_refl).
    cbn [list_insert insert].
    run (run_read_props_new h [FilesCell props1; FileCell blank] 0 _ eq_refl).
    unfold props1 at 1. rewrite get_set_same. fold props1.
    run (run_read_file _ _ blank (lookup_new h [FilesCell props1; FileCell blank] 1)).
    run (run_alloc h _ _).
    run (run_set_prop_new h [FilesCell props1; FileCell blank; FileCell merged]
           0 props1 filename _ eq_refl).
    cbn [list_insert insert].
    run (run_read_props_new h [FilesCell props2; FileCell blank; FileCell merged]
           0 _ eq_refl).
    run (read_entries_run _ _ _
           (Hent [FilesCell props2; FileCell blank; FileCell merged] eq_refl eq_refl)).
    run (run_alloc h _ _).
    rewrite run_alloc. cbn [List.length app].
    split; [reflexivity|].
    apply denote_inv. eexists _, props2.
    split; [apply (lookup_new h t 4)|]. cbn [o_files o_stats o_meta].
    split; [apply (lookup_new h t 0)|].
    assert (Hfiles : files (Metadata.updateFileMetadata now_entry now_doc doc filename updates)
                     = entries').
    { unfold Metadata.updateFileMetadata. cbn [files]. rewrite Hget, get_set_same.
      reflexivity. }
    split; [rewrite Hfiles; now apply Hent|].
    split; [rewrite (lookup_new h t 3); cbn; now rewrite <- Hfiles|].
    split; [now apply Hold|].
    unfold Metadata.updateFileMetadata. cbn.
    now rewrite F1, F2, F3, F4, F5, F6, F7.
Qed.

(** C9. Run [updateFileMetadata] on any store in which [metadata] is a
    document.  It returns a new document object; every object that was in
    the store before the call is still there with the same content, so the
    input document (and every document sharing its entries) reads exactly as
    before; the new document stands for the value
    [Metadata.updateFileMetadata] computes, whose [version], [language],
    [languageName], [direction], [project], [coordinator], [initialized] and
    [meta] are the input's and whose entries for every other file name are
    the input's. *)
Theorem updateFileMetadata_frame (h : heap) (metadata : loc)
    (doc : TranslationMetadata) (now_entry now_doc : Z) (filename : string)
    (updates : PartialFileMetadata) :
  denote h metadata = Some doc ->
  let doc' := Metadata.updateFileMetadata now_entry now_doc doc filename updates in
  exists (result : loc) (h' : heap),
    MetadataHeap.updateFileMetadata now_entry now_doc metadata filename updates h
      = Some (result, h')
    /\ (forall l c, h !! l = Some c -> h' !! l = Some c)
    /\ denote h' metadata = Some doc
    /\ denote h' result = Some doc'
    /\ (version doc', language doc', languageName doc', direction doc', project doc',
        coordinator doc', initialized doc', meta doc')
       = (version doc, language doc, languageName doc, direction doc, project doc,
          coordinator doc, initialized doc, meta doc)
    /\ (forall k, k <> filename -> Obj.get k (files doc') = Obj.get k (files doc)).
Proof.
  intros H doc'.
  destruct (updateFileMetadata_run h metadata doc now_entry now_doc filename updates H)
    as (t & result & Hrun & Hres).
  assert (Hold : forall l c, h !! l = Some c -> (h ++ t) !! l = Some c)
    by (intros; now apply lookup_app_l_Some).
  exists result, (h ++ t).
  split; [exact Hrun|]. split; [exact Hold|].
  split; [now apply (denote_mono h)|]. split; [exact Hres|].
  split; [reflexivity|].
  intros k Hk. now apply updateFileMetadata_others.
Qed.
Lemma updateFileMetadata_frame_witness :
  denote sample_store 5 = Some sample_document
  /\ exists (result : nat) (h' : list MetadataHeap.cell),
       MetadataHeap.updateFileMetadata 1000 1001 5 "setup.md" (only_status in_progress)
         sample_store = Some (result, h')
       /\ (forall l c, sample_store !! l = Some c -> h' !! l = Some c)
       /\ denote h' 5 = Some sample_document
       /\ denote h' result
          = Some (Metadata.updateFileMetadata 1000 1001 sample_document "setup.md"
                    (only_status in_progress))
       /\ (let doc' := Metadata.updateFileMetadata 1000 1001 sample_document "setup.md"
                         (only_status in_progress) in
           (version doc', language doc', languageName doc', direction doc', project doc',
            coordinator doc', initialized doc', meta doc')
           = (version sample_document, language sample_document,
              languageName sample_document, direction sample_document,
              project sample_document, coordinator sample_document,
              initialized sample_document, meta sample_document)
           /\ (forall k, k <> "setup.md"%string ->
                 Obj.get k (files doc') = Obj.get k (files sample_document))).
Proof.
  split; [reflexivity|].
  destruct (updateFileMetadata_frame sample_store 5 sample_document 1000 1001
              "setup.md" (only_status in_progress) eq_refl)
    as (result & h' & H1 & H2 & H3 & H4 & H5 & H6).
  exists result, h'. auto 10.
Defined.

End HeapFacts.

(** ** Fenced code blocks go through translation untouched *)
Section StringFacts.
Import Js.
Implicit Types (s p r : list N).

Lemma startsWith_spec s p : startsWith s p = true <-> exists r, s = p ++ r.
Proof.
  revert s. induction p as [|c p IH]; intros s; cbn.
  - split; [eauto|]. intros _. destruct s; reflexivity.
  - destruct s as [|d s]; cbn.
    + split; [discriminate|]. intros (r & H). discriminate H.
    + rewrite andb_true_iff, IH, N.eqb_eq. split.
      * intros (-> & r & ->). eauto.
      * intros (r & [= -> ->]). eauto.
Qed.

(** A text that begins with a character that is not white space keeps that
    beginning whatever is trimmed around it. *)
Lemma trimStart_keeps (c : N) s r :
  is_ws c = false -> exists s', trimStart (s ++ c :: r) = s' ++ c :: r.
Proof.
  intros Hc. induction s as [|d s IH]; cbn [trimStart app].
  - rewrite Hc. exists []. reflexivity.
  - destruct (is_ws d); [exact IH|]. exists (d :: s). reflexivity.
Qed.

Lemma trimEnd_keeps (c : N) s r :
  is_ws c = false -> exists r', trimEnd (s ++ c :: r) = s ++ c :: r'.
Proof.
  intros Hc. unfold trimEnd.
  rewrite rev_app_distr. cbn [rev]. rewrite <- app_assoc. cbn [app].
  destruct (trimStart_keeps c (rev r) (rev s) Hc) as (r' & ->).
  exists (rev r'). rewrite rev_app_distr. cbn [rev].
  rewrite rev_involutive, <- app_assoc. reflexivity.
Qed.

Lemma trimStart_prefix s : exists ws, s = ws ++ trimStart s /\ forallb is_ws ws = true.
Proof.
  induction s as [|c s IH]; cbn [trimStart].
  - exists []. auto.
  - destruct (is_ws c) eqn:E.
    + destruct IH as (ws & Hs & Hws). exists (c :: ws). cbn [forallb app]. rewrite E, Hws.
      split; [congruence|reflexivity].
    + exists []. auto.
Qed.

Lemma trimStart_ws ws s : forallb is_ws ws = true -> trimStart (ws ++ s) = trimStart s.
Proof.
  induction ws as [|c ws IH]; cbn [forallb trimStart app]; [reflexivity|].
  intros H. apply andb_true_iff in H as [-> H]. now apply IH.
Qed.

Lemma trimEnd_prefix s : exists r, s = trimEnd s ++ r.
Proof.
  unfold trimEnd. destruct (trimStart_prefix (rev s)) as (ws & Hs & _).
  exists (rev ws). rewrite <- rev_app_distr, <- Hs. now rewrite rev_involutive.
Qed.

(** A line whose trimmed text starts with the fence: anything that starts
    with this line has a trimmed text that starts with the fence too. *)
Lemma fence_line_prefix (line rest : list N) :
  Translation.is_fence_line line = true ->
  startsWith (trim (line ++ rest)) Translation.fence = true.
Proof.
  unfold Translation.is_fence_line, trim. intros H.
  apply startsWith_spec in H. destruct H as (r & Hr).
  destruct (trimEnd_prefix (trimStart line)) as (r' & Hr').
  rewrite Hr in Hr'.
  destruct (trimStart_prefix line) as (ws & Hl & Hws).
  rewrite Hl, Hr', <- !app_assoc. rewrite trimStart_ws by exact Hws.
  change Translation.fence with ([96; 96; 96]%N) in *. cbn [app].
  change (trimStart (96%N :: 96%N :: 96%N :: r ++ r' ++ rest))
    with (96%N :: 96%N :: 96%N :: r ++ r' ++ rest).
  destruct (trimEnd_keeps 96%N [96; 96]%N (r ++ r' ++ rest) eq_refl) as (x & Hx).
  cbn [app] in Hx. rewrite Hx. apply startsWith_spec. exists x. reflexivity.
Qed.
End StringFacts.

Section SplitFacts.
Import Js Translation Reference.
Implicit Types (st : SplitState) (line : list N) (ls : list (list N)).

Lemma split_step_prepend S st line :
  split_step (prepend S st) line = prepend S (split_step st line).
Proof.
  destruct st as [S0 cur inc].
  unfold split_step, prepend, push, append_line, toggle.
  cbn [sections currentSection inCodeBlock].
  destruct (is_fence_line line).
  - destruct (nonempty cur), inc; cbn [sections currentSection inCodeBlock negb];
      rewrite <- ?app_assoc; reflexivity.
  - destruct inc; [reflexivity|].
    destruct (eqb (trim line) [] || startsWith (trim line) (lit "#")); [|reflexivity].
    cbn [sections currentSection inCodeBlock].
    destruct (nonempty (trim (cur ++ line ++ [newline])));
      cbn [sections currentSection inCodeBlock]; rewrite <- ?app_assoc; reflexivity.
Qed.

Lemma fold_prepend S ls : forall st,
  fold_left split_step ls (prepend S st) = prepend S (fold_left split_step ls st).
Proof.
  induction ls as [|l ls IH]; intros st; cbn [fold_left]; [reflexivity|].
  now rewrite split_step_prepend, IH.
Qed.

Lemma split_step_inCodeBlock st line :
  inCodeBlock (split_step st line)
  = if is_fence_line line then negb (inCodeBlock st) else inCodeBlock st.
Proof.
  destruct st as [S0 cur inc].
  unfold split_step, push, append_line, toggle.
  cbn [sections currentSection inCodeBlock].
  destruct (is_fence_line line).
  - destruct (nonempty cur), inc; reflexivity.
  - destruct inc; [reflexivity|].
    destruct (eqb (trim line) [] || startsWith (trim line) (lit "#")); [|reflexivity].
    cbn [sections currentSection inCodeBlock].
    destruct (nonempty (trim (cur ++ line ++ [newline]))); reflexivity.
Qed.

Lemma fold_inCodeBlock ls : forall st,
  inCodeBlock (fold_left split_step ls st)
  = xorb (inCodeBlock st) (Nat.odd (fences ls)).
Proof.
  induction ls as [|l ls IH]; intros st; cbn [fold_left].
  - cbn. now rewrite xorb_false_r.
  - rewrite IH, split_step_inCodeBlock. unfold fences. cbn [List.filter].
    destruct (is_fence_line l); cbn [List.length]; [|reflexivity].
    rewrite Nat.odd_succ, <- Nat.negb_odd.
    destruct (inCodeBlock st), (Nat.odd _); reflexivity.
Qed.

(** Inside a block, lines that are not fences pile up in the current
    section. *)
Lemma fold_body ls : forall st,
  inCodeBlock st = true ->
  Forall (fun l => is_fence_line l = false) ls ->
  fold_left split_step ls st
  = {| sections := sections st;
       currentSection := currentSection st ++ text_of ls;
       inCodeBlock := true |}.
Proof.
  induction ls as [|l ls IH]; intros st Hin Hls; cbn [fold_left].
  - unfold text_of. cbn. rewrite app_nil_r. destruct st; cbn in *. now subst.
  - inversion Hls as [|l' ls' Hl Hls']; subst.
    assert (Hstep : split_step st l = append_line l st).
    { unfold split_step. now rewrite Hl, Hin. }
    rewrite Hstep, IH; [|exact Hin|exact Hls'].
    unfold append_line, text_of. cbn [sections currentSection List.map concat].
    now rewrite <- !app_assoc.
Qed.

(** A whole block, met outside of any block: the current section is closed,
    and the block becomes two sections, its opening line with its body, and
    its closing line. *)
Lemma fold_block (opening closing : list N) ls st :
  inCodeBlock st = false ->
  is_fence_line opening = true ->
  Forall (fun l => is_fence_line l = false) ls ->
  is_fence_line closing = true ->
  fold_left split_step (opening :: ls ++ [closing]) st
  = {| sections := sections st ++ flush st
                   ++ [(opening ++ [newline]) ++ text_of ls; closing ++ [newline]];
       currentSection := [];
       inCodeBlock := false |}.
Proof.
  intros Hout Ho Hls Hc. cbn [fold_left]. rewrite fold_left_app. cbn [fold_left].
  set (st1 := split_step st opening).
  assert (H1 : st1 = {| sections := sections st ++ flush st;
                        currentSection := opening ++ [newline];
                        inCodeBlock := true |}).
  { subst st1. destruct st as [S0 cur inc]. cbn [inCodeBlock] in Hout. subst inc.
    unfold split_step, flush. rewrite Ho.
    destruct cur as [|c cur];
      unfold push, append_line, toggle;
      cbn [sections currentSection inCodeBlock nonempty negb app];
      rewrite ?app_nil_r; reflexivity. }
  rewrite H1. rewrite fold_body; [|reflexivity|exact Hls].
  cbn [sections currentSection].
  unfold split_step at 1. rewrite Hc. cbn [currentSection].
  assert (Hne : nonempty ((opening ++ [newline]) ++ text_of ls) = true).
  { destruct opening; reflexivity. }
  rewrite Hne. unfold push, append_line, toggle.
  cbn [sections currentSection inCodeBlock negb app].
  rewrite <- !app_assoc. reflexivity.
Qed.
End SplitFacts.

Section MarkdownFacts.
Import Js Translation Reference.
Implicit Types (st : SplitState) (line : list N) (ls : list (list N)).

Lemma split_line (l r : list N) :
  no_newline l -> split newline (l ++ newline :: r) = l :: split newline r.
Proof.
  unfold no_newline. induction l as [|c l IH]; cbn [app split forallb].
  - intros _. reflexivity.
  - intros H. apply andb_true_iff in H as [Hc Hl]. apply negb_true_iff in Hc.
    rewrite Hc, IH by exact Hl. reflexivity.
Qed.

Lemma split_last (l : list N) : no_newline l -> split newline l = [l].
Proof.
  unfold no_newline. induction l as [|c l IH]; cbn [split forallb].
  - intros _. reflexivity.
  - intros H. apply andb_true_iff in H as [Hc Hl]. apply negb_true_iff in Hc.
    rewrite Hc, IH by exact Hl. reflexivity.
Qed.

(** Splitting a document at its newlines gives back its lines. *)
Lemma split_join ls :
  ls <> [] -> Forall no_newline ls -> split newline (join_lines ls) = ls.
Proof.
  induction ls as [|l ls IH]; intros Hne Hls; [congruence|].
  inversion Hls as [|l' ls' Hl Hls']; subst.
  destruct ls as [|l2 ls].
  - cbn [join_lines]. now apply split_last.
  - change (join_lines (l :: l2 :: ls)) with (l ++ newline :: join_lines (l2 :: ls)).
    rewrite split_line by exact Hl. rewrite IH; [reflexivity|discriminate|exact Hls'].
Qed.

Lemma text_of_join ls : ls <> [] -> text_of ls = join_lines ls ++ [newline].
Proof.
  induction ls as [|l ls IH]; intros Hne; [congruence|].
  destruct ls as [|l2 ls].
  - unfold text_of. cbn. now rewrite app_nil_r.
  - change (join_lines (l :: l2 :: ls)) with (l ++ newline :: join_lines (l2 :: ls)).
    change (text_of (l :: l2 :: ls)) with ((l ++ [newline]) ++ text_of (l2 :: ls)).
    rewrite IH by discriminate. rewrite <- !app_assoc. reflexivity.
Qed.

Lemma text_of_app ls1 ls2 : text_of (ls1 ++ ls2) = text_of ls1 ++ text_of ls2.
Proof. unfold text_of. now rewrite map_app, concat_app. Qed.

Lemma finish_prepend S st : finish (prepend S st) = S ++ finish st.
Proof.
  unfold finish, prepend. cbn [sections currentSection].
  destruct (nonempty (trim (currentSection st))); now rewrite <- ?app_assoc.
Qed.

Lemma splitMarkdownSections_finish (markdown : list N) :
  splitMarkdownSections markdown
  = finish (fold_left split_step (split newline markdown) split_init).
Proof. reflexivity. Qed.

Lemma as_prepend (S : list (list N)) :
  {| sections := S; currentSection := []; inCodeBlock := false |} = prepend S split_init.
Proof. unfold prepend. cbn. now rewrite app_nil_r. Qed.

(** A fenced block that starts outside of any block comes out of the
    splitter as two sections of its own. *)
Lemma sections_around (pre body post : list (list N)) (opening closing : list N) :
  Forall no_newline (pre ++ opening :: body ++ closing :: post) ->
  Nat.even (fences pre) = true ->
  is_fence_line opening = true ->
  Forall (fun l => is_fence_line l = false) body ->
  is_fence_line closing = true ->
  exists X Y,
    splitMarkdownSections (join_lines (pre ++ opening :: body ++ closing :: post))
    = X ++ [(opening ++ [newline]) ++ text_of body; closing ++ [newline]] ++ Y.
Proof.
  intros Hnl Hpre Ho Hb Hc. rewrite splitMarkdownSections_finish.
  rewrite split_join; [|destruct pre; discriminate|exact Hnl].
  replace (pre ++ opening :: body ++ closing :: post)
    with (pre ++ (opening :: body ++ [closing]) ++ post)
    by (cbn [app]; now rewrite <- app_assoc).
  rewrite (fold_left_app split_step pre).
  rewrite (fold_left_app split_step (opening :: body ++ [closing]) post).
  set (st := fold_left split_step pre split_init).
  assert (Hout : inCodeBlock st = false).
  { subst st. rewrite fold_inCodeBlock. cbn [inCodeBlock split_init].
    rewrite <- Nat.negb_even, Hpre. reflexivity. }
  rewrite (fold_block opening closing body st Hout Ho Hb Hc).
  rewrite (as_prepend (sections st ++ flush st
             ++ [(opening ++ [newline]) ++ text_of body; closing ++ [newline]])).
  rewrite fold_prepend, finish_prepend.
  exists (sections st ++ flush st), (finish (fold_left split_step post split_init)).
  now rewrite <- !app_assoc.
Qed.

Lemma skip_fence_section (line rest : list N) :
  is_fence_line line = true -> shouldSkipTranslation (line ++ rest) = true.
Proof.
  intros H. unfold shouldSkipTranslation.
  now rewrite (fence_line_prefix line rest H).
Qed.

Section Translator.
Variable translator : option (list N -> MapValue -> result string (list N)).
Variable lang : string.

Lemma all_sections_app (a b : list (list N)) (parts : list (list N)) :
  all_sections translator lang (a ++ b) = Ok parts ->
  exists pa pb, parts = pa ++ pb
    /\ all_sections translator lang a = Ok pa
    /\ all_sections translator lang b = Ok pb.
Proof.
  revert parts. induction a as [|s a IH]; intros parts H; cbn [app all_sections] in *.
  - exists [], parts. auto.
  - destruct (translateSection translator lang s) as [t|e];
      destruct (all_sections translator lang (a ++ b)) as [ts|es] eqn:E;
      try discriminate.
    injection H as <-. destruct (IH _ eq_refl) as (pa & pb & -> & -> & ->).
    exists (t :: pa), pb. auto.
Qed.

Lemma all_sections_total (secs : list (list N)) :
  (forall text, exists t, translateText translator text lang = Ok t) ->
  exists parts, all_sections translator lang secs = Ok parts.
Proof.
  intros Htot. induction secs as [|s secs (parts & IH)]; cbn [all_sections].
  - eauto.
  - rewrite IH. unfold translateSection.
    destruct (shouldSkipTranslation s); [eauto|].
    destruct (Htot s) as (t & ->). eauto.
Qed.

(** What the splitter does keep.  Take a document in which the lines before
    an opening fence line hold an even number of lines whose trimmed text
    starts with three backticks, the body lines are not such lines, and a
    closing such line follows.  Whatever the translation service returns
    for the segments it is given, and whatever the target language, every
    output of [translateMarkdown] contains the block, fence lines and body,
    unit for unit; and there is an output whenever the service answers. *)
Lemma translateMarkdown_keeps_fenced_block
    (pre body post : list (list N)) (opening closing : list N) :
  Forall no_newline (pre ++ opening :: body ++ closing :: post) ->
  Nat.even (fences pre) = true ->
  is_fence_line opening = true ->
  Forall (fun l => is_fence_line l = false) body ->
  is_fence_line closing = true ->
  let markdown := join_lines (pre ++ opening :: body ++ closing :: post) in
  let block := join_lines (opening :: body ++ [closing]) in
  (forall out,
      translateMarkdown translator markdown lang = Ok out ->
      exists before after, out = before ++ block ++ after)
  /\ ((forall text, exists t, translateText translator text lang = Ok t) ->
      exists out, translateMarkdown translator markdown lang = Ok out).
Proof.
  intros Hnl Hpre Ho Hb Hc markdown block.
  destruct (sections_around pre body post opening closing Hnl Hpre Ho Hb Hc)
    as (X & Y & Hsec).
  fold markdown in Hsec. unfold translateMarkdown. rewrite Hsec. split.
  - intros out H.
    destruct (all_sections translator lang
                (X ++ [(opening ++ [newline]) ++ text_of body; closing ++ [newline]] ++ Y))
      as [parts|e] eqn:E; [|discriminate].
    injection H as <-.
    apply all_sections_app in E. destruct E as (pX & p & -> & _ & E).
    cbn [app all_sections] in E. unfold translateSection in E.
    rewrite <- app_assoc in E.
    rewrite !(skip_fence_section _ _ Ho), !(skip_fence_section _ _ Hc) in E.
    destruct (all_sections translator lang Y) as [pY|es]; [|discriminate].
    injection E as <-.
    exists (join pX), ([newline] ++ join pY).
    unfold join. rewrite concat_app. cbn [concat]. subst block.
    assert (Ht : text_of (opening :: body ++ [closing])
                 = join_lines (opening :: body ++ [closing]) ++ [newline])
      by (apply text_of_join; discriminate).
    change (text_of (opening :: body ++ [closing]))
      with ((opening ++ [newline]) ++ text_of (body ++ [closing])) in Ht.
    rewrite text_of_app in Ht. unfold text_of at 2 in Ht. cbn [List.map concat] in Ht.
    rewrite app_nil_r in Ht.
    rewrite <- !app_assoc in *. f_equal.
    rewrite (app_assoc (join_lines _)). rewrite <- Ht. rewrite <- !app_assoc. reflexivity.
  - intros Htot.
    destruct (all_sections_total
                (X ++ [(opening ++ [newline]) ++ text_of body; closing ++ [newline]] ++ Y) Htot)
      as (parts & ->).
    eauto.
Qed.
End Translator.
End MarkdownFacts.

Section MarkdownExamples.
Import Js Translation Reference.

Lemma translateMarkdown_keeps_fenced_block_witness :
  let pre := [lit ""; lit "# Hello"; lit ""] in
  let opening := lit "```javascript" in
  let body := [lit "const hello = 'world';"] in
  let closing := lit "```" in
  let post := [lit ""; lit "Some text"; lit ""] in
  let markdown := join_lines (pre ++ opening :: body ++ closing :: post) in
  exists out,
    translateMarkdown marking_translator markdown "es-ES" = Ok out
    /\ exists before after,
         out = before ++ join_lines (opening :: body ++ [closing]) ++ after.
Proof.
  intros pre opening body closing post markdown.
  destruct (translateMarkdown_keeps_fenced_block marking_translator "es-ES"
              pre body post opening closing) as [Hkeeps Hruns].
  - repeat constructor.
  - reflexivity.
  - reflexivity.
  - repeat constructor.
  - reflexivity.
  - destruct Hruns as (out & Hout).
    + intros text. eexists. reflexivity.
    + exists out. split; [exact Hout|]. apply Hkeeps. exact Hout.
Defined.

(** A block left open runs to the end of the document: [pre] leaves the
    splitter outside of any block, the opening fence line follows, and no
    other fence line does.  The block is the last section, and is not
    translated. *)
Lemma translateMarkdown_keeps_open_block
    (translator : option (list N -> MapValue -> result string (list N)))
    (lang : string) (pre body : list (list N)) (opening : list N) (out : list N) :
  Forall no_newline (pre ++ opening :: body) ->
  Nat.even (fences pre) = true ->
  is_fence_line opening = true ->
  Forall (fun l => is_fence_line l = false) body ->
  translateMarkdown translator (join_lines (pre ++ opening :: body)) lang = Ok out ->
  exists before after, out = before ++ join_lines (opening :: body) ++ after.
Proof.
  intros Hnl Hpre Ho Hb Hout.
  unfold translateMarkdown in Hout. rewrite splitMarkdownSections_finish in Hout.
  rewrite split_join in Hout; [|destruct pre; discriminate|exact Hnl].
  rewrite (fold_left_app split_step pre) in Hout.
  set (st := fold_left split_step pre split_init) in Hout.
  assert (Hst : inCodeBlock st = false).
  { subst st. rewrite fold_inCodeBlock. cbn [inCodeBlock split_init].
    rewrite <- Nat.negb_even, Hpre. reflexivity. }
  cbn [fold_left] in Hout.
  assert (H1 : split_step st opening
               = {| sections := sections st ++ flush st;
                    currentSection := opening ++ [newline];
                    inCodeBlock := true |}).
  { destruct st as [S0 cur inc]. cbn [inCodeBlock] in Hst. subst inc.
    unfold split_step, flush. rewrite Ho.
    destruct cur as [|c cur];
      unfold push, append_line, toggle;
      cbn [sections currentSection inCodeBlock nonempty negb app];
      rewrite ?app_nil_r; reflexivity. }
  rewrite H1 in Hout. rewrite fold_body in Hout by (reflexivity || exact Hb).
  cbn [sections currentSection] in Hout. unfold finish in Hout.
  cbn [sections currentSection] in Hout.
  pose proof (fence_line_prefix opening ([newline] ++ text_of body) Ho) as Hfence.
  rewrite app_assoc in Hfence.
  assert (Hne : nonempty (trim ((opening ++ [newline]) ++ text_of body)) = true).
  { apply startsWith_spec in Hfence. destruct Hfence as (r & ->). reflexivity. }
  rewrite Hne in Hout.
  destruct (all_sections translator lang
              ((sections st ++ flush st) ++ [(opening ++ [newline]) ++ text_of body]))
    as [parts|e] eqn:E; [|discriminate].
  injection Hout as <-.
  apply all_sections_app in E. destruct E as (pX & p & -> & _ & E).
  cbn [all_sections] in E. unfold translateSection in E.
  rewrite <- app_assoc in E. rewrite (skip_fence_section _ _ Ho) in E.
  injection E as <-.
  exists (join pX), [newline].
  unfold join. rewrite concat_app. cbn [concat]. rewrite app_nil_r.
  f_equal. rewrite <- (text_of_join (opening :: body)) by discriminate.
  unfold text_of. cbn [List.map concat]. rewrite <- app_assoc. reflexivity.
Qed.

(** C8.  The claim fails on [after_inline_span], a document with a block
    fenced by three backticks: its first line, a paragraph that begins with
    an inline code span, passes the line test of the splitter, which takes
    it for an opening fence and takes the opening fence of the block for
    the closing one.  The body of the block becomes a section of its own,
    is not skipped, and goes to the translation service; the output holds
    the answer of the service where the body was, and no longer contains
    the block. *)
Theorem translateMarkdown_translates_fenced_body :
  let markdown := join_lines after_inline_span in
  let block := join_lines [lit "```"; lit "some example text"; lit "```"] in
  let body := lit "some example text" ++ [newline] in
  includes markdown block = true
  /\ splitMarkdownSections markdown
     = [lit "```npm``` is the tool to use" ++ [newline; newline];
        lit "```" ++ [newline]; body; lit "```" ++ [newline]]
  /\ shouldSkipTranslation body = false
  /\ translateMarkdown (constant_translator (lit "TRADUCIDO")) markdown "es-ES"
     = Ok (lit "```npm``` is the tool to use" ++ [newline; newline]
           ++ lit "```" ++ [newline] ++ lit "TRADUCIDO" ++ lit "```" ++ [newline])
  /\ (forall out,
        translateMarkdown (constant_translator (lit "TRADUCIDO")) markdown "es-ES" = Ok out ->
        includes out block = false).
Proof.
  cbn zeta. split; [vm_compute; reflexivity|]. split; [vm_compute; reflexivity|].
  split; [vm_compute; reflexivity|]. split; [vm_compute; reflexivity|].
  intros out H. vm_compute in H. injection H as <-. vm_compute. reflexivity.
Qed.

End MarkdownExamples.

(** * Further properties *)

Section BasenameFacts.
Import Js Validation.

Lemma includes_unit (c : N) (s : list N) : includes s [c] = existsb (N.eqb c) s.
Proof.
  induction s as [|d s IH]; [reflexivity|].
  cbn [includes startsWith existsb]. rewrite IH.
  destruct s; cbn [startsWith]; now rewrite andb_true_r.
Qed.

Lemma existsb_eqb_In_N (c : N) (s : list N) : existsb (N.eqb c) s = true <-> In c s.
Proof.
  rewrite existsb_exists. split.
  - intros (x & Hx & E). apply N.eqb_eq in E. now subst.
  - intros H. exists c. split; [exact H|apply N.eqb_refl].
Qed.

Lemma scan_no_slash (path : list N) (i e : nat) :
  (forall j, (j < i)%nat -> path !! j <> Some slash) ->
  basename_scan path i (Some e) false = (O, Some e).
Proof.
  induction i as [|i IH]; intros H; [reflexivity|].
  cbn [basename_scan]. rewrite bool_decide_eq_false_2 by (apply H; lia).
  apply IH. intros j Hj. apply H. lia.
Qed.

Lemma lookup_not_In (c : N) (s : list N) (j : nat) : ~ In c s -> s !! j <> Some c.
Proof.
  intros H E. apply H. apply list_elem_of_In. eapply list_elem_of_lookup_2. exact E.
Qed.

Lemma basename_no_slash (f : list N) : ~ In slash f -> basename f = f.
Proof.
  induction f as [|c f _] using rev_ind; intros H; [reflexivity|].
  unfold basename. rewrite length_app. cbn [List.length]. rewrite Nat.add_1_r.
  cbn [basename_scan].
  rewrite bool_decide_eq_false_2 by (now apply lookup_not_In).
  rewrite scan_no_slash by (intros; now apply lookup_not_In).
  unfold slice. rewrite drop_0, Nat.sub_0_r.
  rewrite firstn_all2; [reflexivity|]. rewrite length_app. cbn [List.length]. lia.
Qed.

(** What the scan returns delimits a stretch without a slash. *)
Lemma scan_stretch (path : list N) (i : nat) : forall (end_ : option nat) (m : bool),
  (m = true -> end_ = None) ->
  (forall e, end_ = Some e -> forall j, (i <= j < e)%nat -> path !! j <> Some slash) ->
  forall start e, basename_scan path i end_ m = (start, Some e) ->
  forall j, (start <= j < e)%nat -> path !! j <> Some slash.
Proof.
  induction i as [|i IH]; intros end_ m Hm He start e.
  - cbn [basename_scan]. intros [= <- ->]. intros j Hj. eapply He; [reflexivity|lia].
  - cbn [basename_scan]. destruct (bool_decide (path !! i = Some slash)) eqn:B.
    + destruct m; cbn [negb].
      * apply IH; [exact Hm|]. intros e' E. rewrite Hm in E by reflexivity. discriminate.
      * intros [= <- ->]. intros j Hj. eapply He; [reflexivity|lia].
    + apply bool_decide_eq_false in B. destruct end_ as [e0|].
      * apply IH; [exact Hm|]. intros e' [= <-] j Hj.
        destruct (decide (j = i)) as [->|]; [exact B|]. eapply He; [reflexivity|lia].
      * apply IH; [discriminate|]. intros e' [= <-] j Hj.
        replace j with i by lia. exact B.
Qed.

Lemma basename_has_no_slash (f : list N) : ~ In slash (basename f).
Proof.
  unfold basename.
  destruct (basename_scan f (List.length f) None true) as [start [e|]] eqn:E;
    [|intros []].
  intros H. unfold slice in H. apply list_elem_of_In in H.
  apply list_elem_of_lookup in H as [k Hk].
  assert (Hlt : (k < e - start)%nat).
  { apply lookup_lt_Some in Hk. rewrite length_take in Hk. lia. }
  rewrite lookup_take_lt in Hk by exact Hlt. rewrite lookup_drop in Hk.
  revert Hk. eapply scan_stretch; [| |exact E|lia]; [reflexivity|discriminate].
Qed.

Lemma basename_slash (f : list N) : In slash f -> basename f <> f.
Proof. intros H E. apply (basename_has_no_slash f). now rewrite E. Qed.

End BasenameFacts.

Section RegexFacts.
Import Js Regex.
Implicit Types (r : regex) (s u v : list N).

Lemma lang_seq_inv r t s :
  lang (Seq r t) s <-> exists u v, s = u ++ v /\ lang r u /\ lang t v.
Proof.
  split.
  - inversion 1; subst. eauto.
  - intros (u & v & -> & Hu & Hv). now constructor.
Qed.

Lemma lang_alt_inv r t s : lang (Alt r t) s <-> lang r s \/ lang t s.
Proof.
  split.
  - inversion 1; subst; auto.
  - intros [H|H]; [now apply lang_alt_l|now apply lang_alt_r].
Qed.

Lemma lang_class_inv (p : N -> bool) s : lang (Class p) s <-> exists c, s = [c] /\ p c = true.
Proof.
  split.
  - inversion 1; subst. eauto.
  - intros (c & -> & H). now constructor.
Qed.

Lemma lang_never s : ~ lang Never s.
Proof. inversion 1. Qed.

Lemma lang_eps_inv s : lang Eps s <-> s = [].
Proof. split; [inversion 1; reflexivity|intros ->; constructor]. Qed.

Lemma nullable_spec r : nullable r = true <-> lang r [].
Proof.
  induction r as [| |p|r IHr s IHs|r IHr s IHs|r IHr]; cbn [nullable].
  - split; [discriminate|]. intros H. now apply lang_never in H.
  - split; [constructor|reflexivity].
  - split; [discriminate|]. intros H. apply lang_class_inv in H as (c & H & _). discriminate H.
  - rewrite andb_true_iff, IHr, IHs, lang_seq_inv. split.
    + intros [Hr Hs]. exists [], []. auto.
    + intros (u & v & Heq & Hu & Hv). symmetry in Heq.
      apply app_eq_nil in Heq as [-> ->]. auto.
  - rewrite orb_true_iff, IHr, IHs, lang_alt_inv. reflexivity.
  - split; [constructor|reflexivity].
Qed.

Lemma star_unfold r c s :
  lang (Star r) (c :: s) ->
  exists u v, s = u ++ v /\ lang r (c :: u) /\ lang (Star r) v.
Proof.
  remember (Star r) as R eqn:ER. remember (c :: s) as w eqn:Ew.
  intros H. revert c s Ew ER.
  induction H as [| | | | | |r0 u v Hu _ Hv IHv]; intros c0 s0 Ew ER; try discriminate.
  injection ER as ->. destruct u as [|d u].
  - cbn [app] in Ew. now apply IHv.
  - cbn [app] in Ew. injection Ew as <- <-. exists u, v. auto.
Qed.

Lemma seq_cons_inv r t c s :
  lang (Seq r t) (c :: s) <->
  (exists u v, s = u ++ v /\ lang r (c :: u) /\ lang t v)
  \/ (lang r [] /\ lang t (c :: s)).
Proof.
  rewrite lang_seq_inv. split.
  - intros (u & v & Heq & Hu & Hv). destruct u as [|d u]; cbn [app] in Heq.
    + right. subst. auto.
    + injection Heq as -> ->. left. eauto.
  - intros [(u & v & -> & Hu & Hv)|[Hr Ht]].
    + exists (c :: u), v. auto.
    + exists [], (c :: s). auto.
Qed.

Lemma deriv_spec r : forall c s, lang (deriv c r) s <-> lang r (c :: s).
Proof.
  induction r as [| |p|r IHr t IHt|r IHr t IHt|r IHr]; intros c s; cbn [deriv].
  - split; intros H; now apply lang_never in H.
  - split; intros H; [now apply lang_never in H|]. apply lang_eps_inv in H. discriminate H.
  - rewrite lang_class_inv. destruct (p c) eqn:E.
    + rewrite lang_eps_inv. split.
      * intros ->. eauto.
      * intros (d & [= -> ->] & _). reflexivity.
    + split; [intros H; now apply lang_never in H|].
      intros (d & [= -> ->] & Hd). congruence.
  - rewrite seq_cons_inv. destruct (nullable r) eqn:E.
    + rewrite lang_alt_inv, lang_seq_inv, IHt. split.
      * intros [(u & v & -> & Hu & Hv)|Ht].
        -- left. exists u, v. rewrite <- IHr. auto.
        -- right. split; [now apply nullable_spec|exact Ht].
      * intros [(u & v & -> & Hu & Hv)|[_ Ht]].
        -- left. exists u, v. rewrite IHr. auto.
        -- now right.
    + rewrite lang_seq_inv. split.
      * intros (u & v & -> & Hu & Hv). left. exists u, v. rewrite <- IHr. auto.
      * intros [(u & v & -> & Hu & Hv)|[Hr _]].
        -- exists u, v. rewrite IHr. auto.
        -- apply nullable_spec in Hr. congruence.
  - rewrite !lang_alt_inv, IHr, IHt. reflexivity.
  - rewrite lang_seq_inv. split.
    + intros (u & v & -> & Hu & Hv).
      apply IHr in Hu. apply (lang_star_more _ (c :: u) v Hu Hv).
    + intros H. apply star_unfold in H as (u & v & -> & Hu & Hv).
      exists u, v. rewrite IHr. auto.
Qed.

Lemma test_spec r s : test r s = true <-> lang r s.
Proof.
  revert r. induction s as [|c s IH]; intros r; cbn [test].
  - apply nullable_spec.
  - rewrite IH. apply deriv_spec.
Qed.

Lemma lang_star_class (p : N -> bool) s : lang (Star (Class p)) s <-> forallb p s = true.
Proof.
  split.
  - remember (Star (Class p)) as R eqn:ER. intros H.
    induction H as [| | | | | |r0 u v Hu _ Hv IHv]; try discriminate; [reflexivity|].
    injection ER as ->. apply lang_class_inv in Hu as (c & -> & Hc).
    cbn [app forallb]. rewrite Hc. now apply IHv.
  - induction s as [|c s IH]; cbn [forallb]; [constructor|].
    intros H. apply andb_true_iff in H as [Hc Hs].
    apply (lang_star_more _ [c] s); [now constructor|now apply IH].
Qed.

Lemma lang_plus_class (p : N -> bool) s :
  lang (Plus (Class p)) s <-> s <> [] /\ forallb p s = true.
Proof.
  unfold Plus. rewrite lang_seq_inv. split.
  - intros (u & v & -> & Hu & Hv).
    apply lang_class_inv in Hu as (c & -> & Hc). apply lang_star_class in Hv.
    cbn [app forallb]. rewrite Hc, Hv. split; [discriminate|reflexivity].
  - intros [Hne H]. destruct s as [|c s]; [congruence|].
    cbn [forallb] in H. apply andb_true_iff in H as [Hc Hs].
    exists [c], s. split; [reflexivity|].
    split; [now constructor|now apply lang_star_class].
Qed.

Lemma lang_lit (t s : list N) : lang (Lit t) s <-> s = t.
Proof.
  revert s. induction t as [|c t IH]; intros s; cbn [Lit].
  - apply lang_eps_inv.
  - rewrite lang_seq_inv. split.
    + intros (u & v & -> & Hu & Hv).
      apply lang_class_inv in Hu as (d & -> & Hd). apply N.eqb_eq in Hd.
      apply IH in Hv. now subst.
    + intros ->. exists [c], t. split; [reflexivity|]. split; [|now apply IH].
      constructor. apply N.eqb_refl.
Qed.

End RegexFacts.

(** ** [sanitizeFilename] as a decision on its input *)
Section SanitizeDecision.
Import Js Validation.

Lemma trim_nil : trim [] = [].
Proof. reflexivity. Qed.

(** X1. [sanitizeFilename] is decided by what its input contains: a name
    with a slash is rejected as a path traversal (so the slash test of the
    second guard never fires), then a name with [..] or a backslash is
    rejected for its characters, then a blank name is rejected as empty, and
    every other name is returned unchanged. *)
Theorem sanitizeFilename_decides (filename : list N) :
  sanitizeFilename filename =
    if existsb (N.eqb slash) filename
    then Err "Invalid filename: path traversal detected"%string
    else if includes filename (lit "..") || existsb (N.eqb 92%N) filename
    then Err "Invalid filename: contains prohibited characters"%string
    else if eqb (trim filename) []
    then Err "Invalid filename: cannot be empty"%string
    else Ok filename.
Proof.
  unfold sanitizeFilename.
  destruct (existsb (N.eqb slash) filename) eqn:S.
  - apply existsb_eqb_In_N in S. apply basename_slash in S.
    unfold eqb. rewrite bool_decide_eq_false_2 by exact S. reflexivity.
  - assert (Hs : ~ In slash filename).
    { intros H. apply existsb_eqb_In_N in H. congruence. }
    rewrite (basename_no_slash filename Hs).
    unfold eqb at 1. rewrite bool_decide_eq_true_2 by reflexivity. cbn [negb].
    change (lit "/") with [slash]. change (lit "\") with [92%N].
    rewrite !includes_unit, S, orb_false_r.
    destruct (includes filename (lit "..") || existsb (N.eqb 92%N) filename);
      [reflexivity|].
    destruct filename as [|c f]; [reflexivity|].
    unfold eqb at 1. rewrite bool_decide_eq_false_2 by discriminate.
    reflexivity.
Qed.

End SanitizeDecision.

Section TrimFacts.
Import Js.
Implicit Types (s : list N).

Lemma trimStart_id s : (forall c, In c s -> is_ws c = false) -> trimStart s = s.
Proof.
  destruct s as [|c s]; [reflexivity|]. intros H. cbn [trimStart].
  rewrite (H c) by now left. reflexivity.
Qed.

Lemma trim_id s : (forall c, In c s -> is_ws c = false) -> trim s = s.
Proof.
  intros H. unfold trim, trimEnd. rewrite (trimStart_id s H).
  rewrite trimStart_id; [apply rev_involutive|].
  intros c Hc. apply H. now apply in_rev.
Qed.

Lemma trimStart_In s c : In c (trimStart s) -> In c s.
Proof.
  induction s as [|d s IH]; cbn [trimStart]; [auto|].
  destruct (is_ws d); [right; auto|auto].
Qed.

Lemma trim_In s c : In c (trim s) -> In c s.
Proof.
  unfold trim, trimEnd. intros H. apply in_rev in H.
  apply trimStart_In in H. apply in_rev in H. now apply trimStart_In.
Qed.

Lemma trimStart_idem s : trimStart (trimStart s) = trimStart s.
Proof.
  induction s as [|c s IH]; cbn [trimStart]; [reflexivity|].
  destruct (is_ws c) eqn:E; [exact IH|]. cbn [trimStart]. now rewrite E.
Qed.

Lemma trimEnd_idem s : trimEnd (trimEnd s) = trimEnd s.
Proof. unfold trimEnd. now rewrite rev_involutive, trimStart_idem. Qed.

Lemma trimStart_cases s :
  trimStart s = [] \/ exists c r, trimStart s = c :: r /\ is_ws c = false.
Proof.
  induction s as [|c s IH]; cbn [trimStart]; [auto|].
  destruct (is_ws c) eqn:E; [exact IH|]. right. eauto.
Qed.

Lemma trim_idem s : trim (trim s) = trim s.
Proof.
  unfold trim.
  assert (H : trimStart (trimEnd (trimStart s)) = trimEnd (trimStart s)).
  { destruct (trimStart_cases s) as [->|(c & r & -> & Hc)]; [reflexivity|].
    destruct (trimEnd_keeps c [] r Hc) as (r' & Hr). cbn [app] in Hr.
    rewrite Hr. cbn [trimStart]. now rewrite Hc. }
  rewrite H. apply trimEnd_idem.
Qed.

End TrimFacts.

Section SplitSep.
Import Js.
Implicit Types (s a b : list N).

Lemma split_cons_nonempty (sep : N) s : split sep s <> [].
Proof.
  induction s as [|c s IH]; cbn [split]; [discriminate|].
  destruct (N.eqb c sep); [discriminate|]. destruct (split sep s); discriminate.
Qed.

Lemma split_sep_last (sep : N) a : ~ In sep a -> split sep a = [a].
Proof.
  induction a as [|c a IH]; intros H; cbn [split]; [reflexivity|].
  destruct (N.eqb_spec c sep) as [->|_]; [exfalso; apply H; now left|].
  rewrite IH; [reflexivity|]. intros Hin. apply H. now right.
Qed.

Lemma split_sep_app (sep : N) a b :
  ~ In sep a -> split sep (a ++ sep :: b) = a :: split sep b.
Proof.
  induction a as [|c a IH]; intros H; cbn [split app].
  - now rewrite N.eqb_refl.
  - destruct (N.eqb_spec c sep) as [->|_]; [exfalso; apply H; now left|].
    rewrite IH; [reflexivity|]. intros Hin. apply H. now right.
Qed.

(** The first piece of a split and what is left of the text. *)
Lemma split_first (sep : N) s p ps :
  split sep s = p :: ps ->
  ~ In sep p /\
  ((ps = [] /\ s = p) \/ exists s', s = p ++ sep :: s' /\ ps = split sep s').
Proof.
  revert p ps. induction s as [|c s IH]; intros p ps; cbn [split].
  - intros [= <- <-]. split; [intros []|]. left. auto.
  - destruct (N.eqb_spec c sep) as [->|Hc].
    + intros [= <- <-]. split; [intros []|]. right. exists s. auto.
    + destruct (split sep s) as [|w ws] eqn:E;
        [now apply split_cons_nonempty in E|].
      intros [= <- <-]. destruct (IH w ws eq_refl) as [Hw Hs].
      split; [intros [->|Hin]; [congruence|auto]|].
      destruct Hs as [[-> ->]|(s' & -> & ->)]; [left; auto|].
      right. exists s'. auto.
Qed.

Lemma split_pieces (sep : N) s p : In p (split sep s) -> ~ In sep p.
Proof.
  remember (List.length s) as n eqn:En. revert s En p.
  induction n as [n IH] using lt_wf_ind. intros s En p.
  destruct (split sep s) as [|w ws] eqn:E; [intros []|].
  destruct (split_first sep s w ws E) as [Hw Hs].
  intros [<-|Hin]; [exact Hw|].
  destruct Hs as [[-> _]|(s' & -> & ->)]; [destruct Hin|].
  eapply (IH (List.length s')); [|reflexivity|exact Hin].
  subst n. rewrite length_app. cbn [List.length]. lia.
Qed.

End SplitSep.

(** ** The filename schema in front of [sanitizeFilename] *)
Section SchemaFacts.
Import Js Regex Schemas Validation.

Lemma filenameChar_not_ws (c : N) : filenameChar c = true -> is_ws c = false.
Proof.
  intros H. destruct (is_ws c) eqn:E; [|reflexivity]. exfalso.
  unfold is_ws in E. cbn [existsb] in E.
  repeat match type of E with
         | (N.eqb c ?k || _) = true =>
             apply orb_true_iff in E as [E|E];
             [apply N.eqb_eq in E; subst c; vm_compute in H; discriminate H|]
         end.
  discriminate E.
Qed.

Lemma filenameSchema_shape (s : list N) :
  filenameSchema s = true <->
  (exists body, s = body ++ lit ".md" /\ body <> [] /\ forallb filenameChar body = true)
  /\ (List.length s <= 255)%nat.
Proof.
  unfold filenameSchema. rewrite !andb_true_iff, test_spec, lang_seq_inv.
  rewrite Nat.leb_le, Nat.leb_le. split.
  - intros [[(u & v & -> & Hu & Hv) _] Hmax].
    apply lang_plus_class in Hu as [Hne Hu]. apply lang_lit in Hv as ->. eauto.
  - intros [(body & -> & Hne & Hb) Hmax]. split; [split|exact Hmax].
    + exists body, (lit ".md"). split; [reflexivity|].
      split; [now apply lang_plus_class|now apply lang_lit].
    + rewrite length_app. cbn. lia.
Qed.

Lemma filenameSchema_chars (s : list N) :
  filenameSchema s = true -> s <> [] /\ forallb filenameChar s = true.
Proof.
  intros H. apply filenameSchema_shape in H as [(body & -> & Hne & Hb) _].
  split; [destruct body; [congruence|discriminate]|].
  rewrite forallb_app, Hb. reflexivity.
Qed.

(** X2. A name the filename schema accepts gets through [sanitizeFilename]
    unchanged, unless it contains [..], which the schema allows and
    [sanitizeFilename] rejects for its characters. *)
Theorem filenameSchema_sanitizeFilename (filename : list N) :
  filenameSchema filename = true ->
  sanitizeFilename filename =
    if includes filename (lit "..")
    then Err "Invalid filename: contains prohibited characters"%string
    else Ok filename.
Proof.
  intros H. apply filenameSchema_chars in H as [Hne Hc].
  rewrite forallb_forall in Hc.
  assert (Hnot : forall k, filenameChar k = false -> existsb (N.eqb k) filename = false).
  { intros k Hk. destruct (existsb (N.eqb k) filename) eqn:E; [|reflexivity].
    apply existsb_eqb_In_N in E. apply Hc in E. congruence. }
  rewrite sanitizeFilename_decides.
  rewrite (Hnot slash eq_refl), (Hnot 92%N eq_refl), orb_false_r.
  destruct (includes filename (lit "..")); [reflexivity|].
  rewrite trim_id by (intros c Hin; apply filenameChar_not_ws; now apply Hc).
  unfold eqb. rewrite bool_decide_eq_false_2 by exact Hne. reflexivity.
Qed.

Lemma filenameSchema_sanitizeFilename_witness :
  sanitizeFilename (lit "a..md")
    = Err "Invalid filename: contains prohibited characters"%string
  /\ sanitizeFilename (lit "01-intro.md") = Ok (lit "01-intro.md").
Proof.
  split.
  - exact (filenameSchema_sanitizeFilename (lit "a..md") eq_refl).
  - exact (filenameSchema_sanitizeFilename (lit "01-intro.md") eq_refl).
Defined.

End SchemaFacts.

(** ** config.ts: repository names and paths *)
Section ConfigFacts.
Import Js JsText Config Validation.
Implicit Types (s owner repo rest : list N).

(** X3. [parseGitHubRepo] returns the first two slash-separated pieces of
    its input when both are non-empty, and throws otherwise; whatever
    follows a second slash is dropped without an error. *)
Theorem parseGitHubRepo_pieces s owner repo :
  parseGitHubRepo s = Ok (owner, repo) <->
  owner <> [] /\ repo <> [] /\ ~ In slash owner /\ ~ In slash repo
  /\ (s = owner ++ lit "/" ++ repo
      \/ exists rest, s = owner ++ lit "/" ++ repo ++ lit "/" ++ rest).
Proof.
  change (lit "/") with [slash]. unfold parseGitHubRepo. split.
  - destruct (split slash s) as [|p ps] eqn:E; [now apply split_cons_nonempty in E|].
    destruct (split_first slash s p ps E) as [Hp Hs].
    destruct ps as [|q qs]; [discriminate|]. cbn [lookup list_lookup].
    destruct Hs as [[? _]|(s' & -> & E')]; [discriminate|].
    symmetry in E'. destruct (split_first slash s' q qs E') as [Hq Hs'].
    destruct p as [|c p]; [discriminate|]. destruct q as [|d q]; [discriminate|].
    cbn [truthy negb orb]. intros [= <- <-].
    split; [discriminate|]. split; [discriminate|]. split; [exact Hp|]. split; [exact Hq|].
    destruct Hs' as [[_ ->]|(s'' & -> & _)]; [left; reflexivity|].
    right. exists s''. reflexivity.
  - intros (Ho & Hr & Hso & Hsr & [->|(rest & ->)]).
    + cbn [app]. rewrite split_sep_app by exact Hso. rewrite split_sep_last by exact Hsr.
      cbn [lookup list_lookup]. destruct owner; [congruence|]. destruct repo; [congruence|].
      reflexivity.
    + cbn [app]. rewrite split_sep_app by exact Hso. rewrite split_sep_app by exact Hsr.
      cbn [lookup list_lookup]. destruct owner; [congruence|]. destruct repo; [congruence|].
      reflexivity.
Qed.

Lemma repoChar_not_slash (part : list N) : forallb repoChar part = true -> ~ In slash part.
Proof.
  intros H Hin. rewrite forallb_forall in H. apply H in Hin. discriminate Hin.
Qed.

(** X4. A repository name in the format [validateProjectConfig] requires is
    always parsed, into the two parts around its slash. *)
Theorem repoPattern_parses s :
  repoPattern s = true ->
  exists owner repo,
    parseGitHubRepo s = Ok (owner, repo) /\ s = owner ++ lit "/" ++ repo.
Proof.
  unfold repoPattern. rewrite test_spec, lang_seq_inv.
  intros (owner & v & -> & Ho & Hv).
  apply lang_seq_inv in Hv as (x & repo & -> & Hx & Hr).
  apply lang_class_inv in Hx as (c & -> & Hc). apply N.eqb_eq in Hc. subst c.
  apply lang_plus_class in Ho as [Hone Ho]. apply lang_plus_class in Hr as [Hrne Hr].
  exists owner, repo. split; [|reflexivity].
  apply parseGitHubRepo_pieces.
  split; [exact Hone|]. split; [exact Hrne|].
  split; [now apply repoChar_not_slash|]. split; [now apply repoChar_not_slash|].
  left. reflexivity.
Qed.

Lemma repoPattern_parses_witness :
  exists owner repo,
    parseGitHubRepo (lit "OWASP/Top10") = Ok (owner, repo)
    /\ lit "OWASP/Top10" = owner ++ lit "/" ++ repo.
Proof. exact (repoPattern_parses (lit "OWASP/Top10") eq_refl). Defined.

End ConfigFacts.

Section PathFacts.
Import Js JsText Config Validation.
Implicit Types (s d f : list N).

(** Replacing the first double slash by one, unit by unit. *)
Lemma replace_slashes_cons (c : N) s :
  replace (c :: s) (lit "//") (lit "/") =
    if startsWith (c :: s) (lit "//") then slash :: skipn 2 (c :: s)
    else c :: replace s (lit "//") (lit "/").
Proof.
  unfold replace. cbn [indexOf].
  destruct (startsWith (c :: s) (lit "//")); [reflexivity|].
  destruct (indexOf s (lit "//")) as [pos|]; reflexivity.
Qed.

Lemma startsWith_slashes (c : N) s :
  startsWith (c :: s) (lit "//")
  = N.eqb slash c && match s with x :: _ => N.eqb slash x | [] => false end.
Proof.
  change (lit "//") with [slash; slash].
  destruct s as [|x [|y s]]; cbn [startsWith]; rewrite ?andb_true_r; reflexivity.
Qed.

Lemma replace_slashes_none s : ~ In slash s -> replace s (lit "//") (lit "/") = s.
Proof.
  induction s as [|c s IH]; intros H; [reflexivity|].
  rewrite replace_slashes_cons, startsWith_slashes.
  destruct (N.eqb_spec slash c) as [<-|_]; [exfalso; apply H; now left|].
  cbn [andb]. rewrite IH; [reflexivity|]. intros Hin. apply H. now right.
Qed.

(** A path that ends in a slash and a name without slashes still does after
    the replacement. *)
Lemma replace_slashes_last d f :
  ~ In slash f ->
  exists d', replace (d ++ slash :: f) (lit "//") (lit "/") = d' ++ slash :: f.
Proof.
  intros Hf. induction d as [|c d IH].
  - cbn [app]. rewrite replace_slashes_cons, startsWith_slashes, N.eqb_refl.
    rewrite replace_slashes_none by exact Hf.
    destruct f as [|x f].
    + exists []. reflexivity.
    + destruct (N.eqb_spec slash x) as [<-|_]; [exfalso; apply Hf; now left|].
      exists []. reflexivity.
  - cbn [app]. rewrite replace_slashes_cons.
    destruct (startsWith (c :: d ++ slash :: f) (lit "//")) eqn:E.
    + destruct d as [|c' d]; cbn [app skipn].
      * exists []. reflexivity.
      * exists (slash :: d). reflexivity.
    + destruct IH as (d' & ->). exists (c :: d'). reflexivity.
Qed.

Lemma scan_last_component d f : forall (i : nat) (e : nat),
  ~ In slash f -> (i <= List.length f)%nat ->
  basename_scan (d ++ slash :: f) (S (List.length d) + i) (Some e) false
  = (S (List.length d), Some e).
Proof.
  intros i e Hf. induction i as [|i IH]; intros Hi.
  - rewrite Nat.add_0_r. cbn [basename_scan].
    rewrite bool_decide_eq_true_2; [reflexivity|].
    rewrite lookup_app_r by lia. now rewrite Nat.sub_diag.
  - rewrite Nat.add_succ_r. cbn [basename_scan].
    rewrite bool_decide_eq_false_2.
    + apply IH. lia.
    + rewrite lookup_app_r by lia.
      replace (S (List.length d) + i - List.length d)%nat with (S i) by lia.
      cbn [lookup list_lookup]. now apply lookup_not_In.
Qed.

Lemma basename_last_component d f :
  f <> [] -> ~ In slash f -> basename (d ++ slash :: f) = f.
Proof.
  intros Hne Hf. unfold basename.
  rewrite length_app. cbn [List.length].
  destruct (List.length f) as [|n] eqn:En; [destruct f; [congruence|discriminate]|].
  replace (List.length d + S (S n))%nat with (S (S (List.length d) + n)) by lia.
  cbn [basename_scan].
  rewrite bool_decide_eq_false_2.
  2:{ rewrite lookup_app_r by lia.
      replace (S (List.length d) + n - List.length d)%nat with (S n) by lia.
      cbn [lookup list_lookup]. now apply lookup_not_In. }
  assert (Hn : (n <= List.length f)%nat) by lia.
  pose proof (scan_last_component d f n (S (S (List.length d) + n)) Hf Hn) as Hscan.
  cbn [Nat.add] in Hscan |- *. rewrite Hscan.
  unfold slice.
  replace (S (S (List.length d + n)) - S (List.length d))%nat with (List.length f) by lia.
  replace (d ++ slash :: f) with ((d ++ [slash]) ++ f) by now rewrite <- app_assoc.
  replace (S (List.length d)) with (List.length (d ++ [slash]))
    by (rewrite length_app; cbn [List.length]; lia).
  rewrite drop_app_length. apply firstn_all.
Qed.

Lemma sanitized_component f :
  sanitizeFilename f = Ok f -> f <> [] /\ ~ In slash f.
Proof.
  rewrite sanitizeFilename_decides.
  destruct (existsb (N.eqb slash) f) eqn:S; [discriminate|].
  destruct (includes f (lit "..") || existsb (N.eqb 92%N) f); [discriminate|].
  destruct f as [|c f]; [discriminate|]. intros _. split; [discriminate|].
  intros H. apply existsb_eqb_In_N in H. congruence.
Qed.

(** X5. A name that [sanitizeFilename] let through is the last component of
    every repository path built from it: of the source path, of the
    translation path and of the machine-translation path, whatever the
    folders and the language code are; and the metadata path always ends in
    [translation.json]. *)
Theorem built_paths_keep_filename (project : ProjectConfig)
    (languageCode filename : list N) :
  sanitizeFilename filename = Ok filename ->
  basename (getSourceFilePath project filename) = filename
  /\ basename (getTranslationFilePath project languageCode filename) = filename
  /\ basename (getMachineTranslationFilePath project languageCode filename) = filename
  /\ basename (getTranslationMetadataPath project languageCode) = lit "translation.json".
Proof.
  intros H. apply sanitized_component in H as [Hne Hf].
  unfold getSourceFilePath, getTranslationFilePath, getMachineTranslationFilePath,
    getTranslationMetadataPath.
  change (lit "/" ++ filename) with (slash :: filename).
  change (lit "/" ++ languageCode ++ slash :: filename)
    with (slash :: languageCode ++ slash :: filename).
  change (lit "/" ++ languageCode ++ lit "/translation.json")
    with (slash :: languageCode ++ slash :: lit "translation.json").
  split; [|split; [|split]].
  - destruct (replace_slashes_last (sourceFolder project) filename Hf) as (d' & ->).
    now apply basename_last_component.
  - replace (translationFolder project ++ slash :: languageCode ++ slash :: filename)
      with ((translationFolder project ++ slash :: languageCode) ++ slash :: filename)
      by now rewrite <- app_assoc.
    destruct (replace_slashes_last (translationFolder project ++ slash :: languageCode)
                filename Hf) as (d' & ->).
    now apply basename_last_component.
  - destruct (replace_slashes_last (getTmpFolderPath project languageCode) filename Hf)
      as (d' & ->).
    now apply basename_last_component.
  - assert (Hj : ~ In slash (lit "translation.json")).
    { intros H. apply existsb_eqb_In_N in H. discriminate H. }
    replace (translationFolder project ++ slash :: languageCode
               ++ slash :: lit "translation.json")
      with ((translationFolder project ++ slash :: languageCode)
              ++ slash :: lit "translation.json")
      by now rewrite <- app_assoc.
    destruct (replace_slashes_last (translationFolder project ++ slash :: languageCode)
                (lit "translation.json") Hj) as (d' & ->).
    apply basename_last_component; [discriminate|exact Hj].
Qed.

End PathFacts.

Section PathWitness.
Import Js Config Validation Samples.

Lemma built_paths_keep_filename_witness :
  basename (getSourceFilePath sample_project (lit "A01.md")) = lit "A01.md"
  /\ basename (getTranslationFilePath sample_project (lit "es-ES") (lit "A01.md"))
     = lit "A01.md"
  /\ basename (getMachineTranslationFilePath sample_project (lit "es-ES") (lit "A01.md"))
     = lit "A01.md"
  /\ basename (getTranslationMetadataPath sample_project (lit "es-ES"))
     = lit "translation.json".
Proof.
  exact (built_paths_keep_filename sample_project (lit "es-ES") (lit "A01.md") eq_refl).
Defined.

End PathWitness.

(** ** The admin list *)
Section AdminFacts.
Import Js Authorization.
Implicit Types (u v : list N).

Lemma existsb_eqb_In_list u (l : list (list N)) : existsb (eqb u) l = true <-> In u l.
Proof.
  rewrite existsb_exists. split.
  - intros (x & Hx & E). apply bool_decide_eq_true in E. now subst.
  - intros H. exists u. split; [exact H|]. now apply bool_decide_eq_true.
Qed.

(** X6. Whoever [isProjectAdmin] of validation.ts accepts is named by a
    trimmed entry of the comma-separated [ADMIN_USERS] variable: without the
    variable nobody is an admin, and a user name that contains a comma, or
    that begins or ends with white space, never is. *)
Theorem isProjectAdmin_entry (ADMIN_USERS : option (list N)) u (projectSlug : list N) :
  isProjectAdmin ADMIN_USERS u projectSlug = true ->
  exists v entry,
    ADMIN_USERS = Some v /\ In entry (split comma v) /\ u = trim entry
    /\ ~ In comma u /\ trim u = u.
Proof.
  unfold isProjectAdmin. destruct ADMIN_USERS as [v|]; [|discriminate].
  rewrite existsb_eqb_In_list, in_map_iff. intros (entry & <- & Hin).
  exists v, entry. split; [reflexivity|]. split; [exact Hin|]. split; [reflexivity|].
  split; [|apply trim_idem].
  intros H. apply trim_In in H. revert H. exact (split_pieces comma v entry Hin).
Qed.

Lemma isProjectAdmin_entry_witness :
  exists v entry,
    Some (lit "alice, bob") = Some v /\ In entry (split comma v)
    /\ lit "bob" = trim entry /\ ~ In comma (lit "bob") /\ trim (lit "bob") = lit "bob".
Proof.
  exact (isProjectAdmin_entry (Some (lit "alice, bob")) (lit "bob") (lit "top10") eq_refl).
Defined.

(** X7. The two admin checks differ in trimming only: a user that
    [isProjectAdmin] of config.ts accepts, and whose name carries no white
    space around it, is accepted by the one of validation.ts as well. *)
Theorem isProjectAdmin_config_validation (ADMIN_USERS : option (list N))
    u (projectSlug : list N) :
  Config.isProjectAdmin ADMIN_USERS u projectSlug = true ->
  trim u = u ->
  isProjectAdmin ADMIN_USERS u projectSlug = true.
Proof.
  unfold Config.isProjectAdmin, isProjectAdmin. destruct ADMIN_USERS as [v|]; [|discriminate].
  rewrite !existsb_eqb_In_list, in_map_iff. intros Hin Hu. exists u. auto.
Qed.

Lemma isProjectAdmin_config_validation_witness :
  isProjectAdmin (Some (lit "alice,bob")) (lit "bob") (lit "top10") = true.
Proof.
  apply (isProjectAdmin_config_validation (Some (lit "alice,bob")) (lit "bob") (lit "top10"));
    reflexivity.
Defined.

Lemma is_ws_not_comma (v : list N) : forallb is_ws v = true -> ~ In comma v.
Proof.
  intros H Hin. rewrite forallb_forall in H. apply H in Hin. discriminate Hin.
Qed.

Lemma trim_blank v : forallb is_ws v = true -> trim v = [].
Proof.
  intros H. unfold trim.
  replace (trimStart v) with (@nil N); [reflexivity|].
  rewrite <- (app_nil_r v). rewrite trimStart_ws by exact H. reflexivity.
Qed.

(** X8. An [ADMIN_USERS] variable that is set but blank (the empty string
    included) names one admin, the user with the empty name. *)
Theorem isProjectAdmin_blank v u (projectSlug : list N) :
  forallb is_ws v = true ->
  (isProjectAdmin (Some v) u projectSlug = true <-> u = []).
Proof.
  intros H. unfold isProjectAdmin.
  rewrite split_sep_last by now apply is_ws_not_comma.
  cbn [List.map existsb]. rewrite orb_false_r, trim_blank by exact H.
  unfold eqb. apply bool_decide_eq_true.
Qed.

Lemma isProjectAdmin_blank_witness :
  isProjectAdmin (Some []) [] (lit "top10") = true <-> @nil N = [].
Proof. exact (isProjectAdmin_blank [] [] (lit "top10") eq_refl). Defined.

End AdminFacts.

(** ** More on the rate limiter *)
Section RateLimitMore.
Import Validation Reference Notions.
Local Open Scope Z_scope.

(** X9. The limiter keeps the callers apart: a run of calls made for other
    identifiers leaves the entry of an identifier, present or absent, as it
    was. *)
Theorem run_other_identifiers (other : string) (cs : list RateCall) :
  forall store : gmap string RateEntry,
    Forall (fun c => who c <> other) cs ->
    snd (run cs store) !! other = store !! other.
Proof.
  induction cs as [|c cs IH]; intros store H; [reflexivity|].
  inversion H as [|c' cs' Hc Hcs]; subst c' cs'.
  cbn [run].
  destruct (checkRateLimit (at_time c) (who c) (with_limit c) (with_window c) store)
    as [res store'] eqn:Hstep.
  specialize (IH store' Hcs).
  destruct (run cs store') as [rs store''] eqn:Hrun.
  cbn [snd] in IH |- *. rewrite IH.
  replace store' with
    (snd (checkRateLimit (at_time c) (who c) (with_limit c) (with_window c) store))
    by (rewrite Hstep; reflexivity).
  apply checkRateLimit_other. exact Hc.
Qed.

Lemma run_other_identifiers_witness :
  snd (run [{| at_time := 5; who := "init:alice"; with_limit := 5; with_window := 1000 |}]
         (<["init:bob" := {| count := 2; resetAt := 900 |}]> ∅)) !! "init:bob"
  = (<["init:bob" := {| count := 2; resetAt := 900 |}]> ∅ : gmap string RateEntry)
      !! "init:bob".
Proof.
  apply (run_other_identifiers "init:bob").
  constructor; [discriminate|constructor].
Defined.

Lemma counted_store_empty : counted_store ∅.
Proof. intros k e H. rewrite lookup_empty in H. discriminate H. Qed.

Lemma counted_store_insert (store : gmap string RateEntry) (k : string) (e : RateEntry) :
  counted_store store -> 1 <= count e -> counted_store (<[k := e]> store).
Proof.
  intros Hs He k' e' H. destruct (decide (k = k')) as [->|Hne].
  - rewrite lookup_insert_eq in H. injection H as <-. exact He.
  - rewrite lookup_insert_ne in H by exact Hne. eapply Hs. exact H.
Qed.

Lemma counted_store_delete (store : gmap string RateEntry) (k : string) :
  counted_store store -> counted_store (delete k store).
Proof.
  intros Hs k' e' H. destruct (decide (k = k')) as [->|Hne].
  - rewrite lookup_delete_eq in H. discriminate H.
  - rewrite lookup_delete_ne in H by exact Hne. eapply Hs. exact H.
Qed.

Lemma checkRateLimit_remaining (now : Z) (identifier : string) (lim windowMs : Z)
    (store : gmap string RateEntry) :
  counted_store store -> 1 <= lim ->
  let '(r, store') := checkRateLimit now identifier lim windowMs store in
  (0 <= remaining r <= lim - 1 /\ limit r = lim
   /\ (success r = false -> remaining r = 0))
  /\ counted_store store'.
Proof.
  intros Hs Hlim. unfold checkRateLimit.
  destruct (store !! identifier) as [e|] eqn:E.
  - pose proof (Hs _ _ E) as He. destruct (resetAt e <? now).
    + cbn. split; [split; [lia|split; [reflexivity|discriminate]]|].
      apply counted_store_insert; [now apply counted_store_delete|cbn; lia].
    + cbn [count resetAt]. destruct (lim <? count e + 1) eqn:L.
      * cbn. split; [split; [lia|split; [reflexivity|reflexivity]]|].
        apply counted_store_insert; [exact Hs|cbn; lia].
      * apply Z.ltb_ge in L. cbn.
        split; [split; [lia|split; [reflexivity|discriminate]]|].
        apply counted_store_insert; [exact Hs|cbn; lia].
  - cbn. split; [split; [lia|split; [reflexivity|discriminate]]|].
    apply counted_store_insert; [exact Hs|cbn; lia].
Qed.

Lemma run_remaining_from (cs : list RateCall) : forall store : gmap string RateEntry,
  counted_store store ->
  Forall (fun c => 1 <= with_limit c) cs ->
  Forall2 (fun c r => 0 <= remaining r <= with_limit c - 1 /\ limit r = with_limit c
                      /\ (success r = false -> remaining r = 0))
    cs (fst (run cs store)).
Proof.
  induction cs as [|c cs IH]; intros store Hs H; [constructor|].
  inversion H as [|c' cs' Hc Hcs]; subst c' cs'.
  cbn [run].
  pose proof (checkRateLimit_remaining (at_time c) (who c) (with_limit c) (with_window c)
                store Hs Hc) as Hstep.
  destruct (checkRateLimit (at_time c) (who c) (with_limit c) (with_window c) store)
    as [res store'].
  destruct Hstep as [Hres Hs'].
  specialize (IH store' Hs' Hcs).
  destruct (run cs store') as [rs store'']. cbn [fst] in IH |- *.
  constructor; [exact Hres|exact IH].
Qed.

(** X10. From the empty store the limiter starts with, every call made with
    a limit of at least 1 reports a [remaining] between 0 and [limit - 1]
    and its own limit, and a refused call reports 0 remaining. *)
Theorem run_remaining (cs : list RateCall) :
  Forall (fun c => 1 <= with_limit c) cs ->
  Forall2 (fun c r => 0 <= remaining r <= with_limit c - 1 /\ limit r = with_limit c
                      /\ (success r = false -> remaining r = 0))
    cs (fst (run cs ∅)).
Proof. apply run_remaining_from. exact counted_store_empty. Qed.

Lemma run_remaining_witness :
  Forall2 (fun c r => 0 <= remaining r <= with_limit c - 1 /\ limit r = with_limit c
                      /\ (success r = false -> remaining r = 0))
    [{| at_time := 5; who := "init:alice"; with_limit := 1; with_window := 1000 |};
     {| at_time := 6; who := "init:alice"; with_limit := 1; with_window := 1000 |}]
    (fst (run
      [{| at_time := 5; who := "init:alice"; with_limit := 1; with_window := 1000 |};
       {| at_time := 6; who := "init:alice"; with_limit := 1; with_window := 1000 |}] ∅)).
Proof.
  apply run_remaining. repeat (constructor; [cbn; lia|]). constructor.
Defined.

(** X11. A caller whose window is used up is refused up to and including
    the instant at which the window ends, each refused call still being
    counted and the end of the window staying where it is; the first call
    after that instant is accepted and opens a new window of its own
    length. *)
Theorem checkRateLimit_expiry (now : Z) (identifier : string) (lim windowMs : Z)
    (store : gmap string RateEntry) (e : RateEntry) :
  store !! identifier = Some e ->
  lim <= count e ->
  let '(r, store') := checkRateLimit now identifier lim windowMs store in
  (now <= resetAt e ->
     success r = false /\ remaining r = 0 /\ reset r = resetAt e
     /\ store' !! identifier = Some {| count := count e + 1; resetAt := resetAt e |})
  /\ (resetAt e < now ->
     success r = true /\ remaining r = lim - 1 /\ reset r = now + windowMs
     /\ store' !! identifier = Some {| count := 1; resetAt := now + windowMs |}).
Proof.
  intros E Hfull. unfold checkRateLimit. rewrite E.
  destruct (resetAt e <? now) eqn:L.
  - apply Z.ltb_lt in L. cbn. split; [lia|]. intros _.
    repeat split. apply lookup_insert_eq.
  - apply Z.ltb_ge in L. cbn [count resetAt].
    replace (lim <? count e + 1) with true by (symmetry; apply Z.ltb_lt; lia).
    cbn. split; [|lia]. intros _. repeat split. apply lookup_insert_eq.
Qed.

Lemma checkRateLimit_expiry_witness :
  let store : gmap string RateEntry := <["init:alice" := {| count := 5; resetAt := 900 |}]> ∅ in
  success (fst (checkRateLimit 900 "init:alice" 5 1000 store)) = false
  /\ success (fst (checkRateLimit 901 "init:alice" 5 1000 store)) = true.
Proof.
  intros store.
  pose proof (checkRateLimit_expiry 900 "init:alice" 5 1000 store
                {| count := 5; resetAt := 900 |} eq_refl ltac:(cbn; lia)) as H1.
  pose proof (checkRateLimit_expiry 901 "init:alice" 5 1000 store
                {| count := 5; resetAt := 900 |} eq_refl ltac:(cbn; lia)) as H2.
  destruct (checkRateLimit 900 "init:alice" 5 1000 store) as [r1 s1].
  destruct (checkRateLimit 901 "init:alice" 5 1000 store) as [r2 s2].
  split.
  - apply (proj1 H1). cbn. lia.
  - apply (proj2 H2). cbn. lia.
Defined.

End RateLimitMore.

(** ** More on the retry loop *)
Section RequestMore.
Import GitHub Reference Notions.
Local Open Scope Z_scope.

Variable T : Type.
Variable checkRateLimits : T -> list string.
Variable fn : nat -> result Thrown T.

Lemma sleeps_success (response : T) :
  sleeps (Call :: List.map Warn (checkRateLimits response)) = [].
Proof.
  cbn [sleeps]. induction (checkRateLimits response) as [|w ws IH]; [reflexivity|exact IH].
Qed.

(** What every run of the loop satisfies, from any attempt on. *)
Lemma request_loop_shape (client : GitHubClient) (maxAttempts : Z) :
  forall (remaining a : nat),
    maxAttempts = Z.of_nat a + Z.of_nat remaining ->
    let '(trace, res) :=
      request_loop T checkRateLimits fn client maxAttempts remaining (Z.of_nat a) in
    (calls trace <= remaining)%nat
    /\ (res = Err Unexpected -> remaining = 0%nat)
    /\ (remaining <> 0%nat -> (1 <= calls trace)%nat)
    /\ sleeps trace
       = List.map (fun k => 2 ^ Z.of_nat (a + k) * retryDelay client)
           (seq 0 (calls trace - 1)).
Proof.
  induction remaining as [|r IH]; intros a Hmax.
  - cbn [request_loop]. change (calls []) with 0%nat.
    split; [lia|]. split; [reflexivity|]. split; [congruence|reflexivity].
  - cbn [request_loop]. rewrite Nat2Z.id. destruct (fn a) as [response|error].
    + rewrite calls_success, sleeps_success.
      split; [lia|]. split; [discriminate|]. split; [lia|reflexivity].
    + destruct (isRetryableStatus (or_default (thrown_status error) 0)
                && negb (Z.of_nat a =? maxAttempts - 1)) eqn:E.
      * apply andb_true_iff in E as [_ E]. apply negb_true_iff, Z.eqb_neq in E.
        specialize (IH (S a) ltac:(lia)).
        replace (Z.of_nat a + 1) with (Z.of_nat (S a)) by lia.
        destruct (request_loop T checkRateLimits fn client maxAttempts r (Z.of_nat (S a)))
          as [trace res].
        destruct IH as (Hle & Hun & Hone & Hsl).
        assert (Hr : r <> 0%nat) by lia. specialize (Hone Hr).
        rewrite calls_retry. cbn [sleeps]. rewrite Hsl.
        split; [lia|]. split; [intros ->; specialize (Hun eq_refl); lia|]. split; [lia|].
        replace (S (calls trace) - 1)%nat with (S (calls trace - 1)) by lia.
        cbn [seq List.map]. rewrite Nat.add_0_r. f_equal.
        rewrite <- seq_shift, List.map_map. apply List.map_ext.
        intros k. f_equal. f_equal. lia.
      * change (calls [Call]) with 1%nat.
        split; [lia|]. split; [discriminate|]. split; [lia|reflexivity].
Qed.

(** X12. [request] never invokes the wrapped operation more often than its
    budget allows.  With a budget of zero or less it does not invoke it at
    all and throws the plain "Unexpected error in request"; with a budget of
    at least one it invokes it at least once and never throws that error. *)
Theorem request_call_bound (client : GitHubClient) (retries : option Z) :
  let maxAttempts := match retries with Some r => r | None => maxRetries client end in
  let run := request T checkRateLimits fn client retries in
  (calls (fst run) <= Z.to_nat maxAttempts)%nat
  /\ (maxAttempts <= 0 -> run = ([], Err Unexpected))
  /\ (1 <= maxAttempts -> snd run <> Err Unexpected /\ (1 <= calls (fst run))%nat).
Proof.
  intros maxAttempts run. subst run. unfold request. fold maxAttempts.
  destruct (Z.le_gt_cases maxAttempts 0) as [Hle|Hgt].
  - replace (Z.to_nat maxAttempts) with 0%nat by lia. cbn [request_loop fst calls].
    split; [cbn; lia|]. split; [reflexivity|lia].
  - pose proof (request_loop_shape client maxAttempts (Z.to_nat maxAttempts) 0
                  ltac:(lia)) as H.
    change (Z.of_nat 0) with 0 in H.
    destruct (request_loop T checkRateLimits fn client maxAttempts
                (Z.to_nat maxAttempts) 0) as [trace res].
    destruct H as (Hcalls & Hun & Hone & _). cbn [fst snd].
    split; [exact Hcalls|]. split; [lia|]. intros _.
    split; [intros ->; specialize (Hun eq_refl); lia|apply Hone; lia].
Qed.

(** X13. The pauses between attempts double: the pause after the [k]-th
    failed attempt (counting from 0) lasts [2^k * retryDelay].  With a
    budget of at least one there is exactly one pause fewer than there are
    invocations; with a budget of zero or less there is no invocation and
    no pause. *)
Theorem request_backoff (client : GitHubClient) (retries : option Z) :
  let maxAttempts := match retries with Some r => r | None => maxRetries client end in
  let run := request T checkRateLimits fn client retries in
  sleeps (fst run)
  = List.map (fun k => 2 ^ Z.of_nat k * retryDelay client)
      (seq 0 (List.length (sleeps (fst run))))
  /\ (1 <= maxAttempts -> calls (fst run) = S (List.length (sleeps (fst run))))
  /\ (maxAttempts <= 0 -> calls (fst run) = 0%nat /\ sleeps (fst run) = []).
Proof.
  intros maxAttempts run. subst run. unfold request. fold maxAttempts.
  destruct (Z.le_gt_cases maxAttempts 0) as [Hle|Hgt].
  - replace (Z.to_nat maxAttempts) with 0%nat by lia. cbn [request_loop fst].
    split; [reflexivity|]. split; [lia|]. intros _. split; reflexivity.
  - pose proof (request_loop_shape client maxAttempts (Z.to_nat maxAttempts) 0
                  ltac:(lia)) as H.
    change (Z.of_nat 0) with 0 in H.
    destruct (request_loop T checkRateLimits fn client maxAttempts
                (Z.to_nat maxAttempts) 0) as [trace res].
    destruct H as (_ & _ & Hone & Hsl). cbn [fst].
    assert (Hlen : List.length (sleeps trace) = (calls trace - 1)%nat).
    { rewrite Hsl at 1. now rewrite length_map, length_seq. }
    rewrite Hlen. split; [exact Hsl|]. split; [|lia].
    intros _. specialize (Hone ltac:(lia)). lia.
Qed.

(** The first failure that is not retryable ends the loop. *)
Lemma request_loop_stops (client : GitHubClient) (maxAttempts : Z) (e : Thrown) :
  forall (k remaining a : nat),
    (forall i, (i < k)%nat -> exists e', fn (a + i) = Err e' /\ retryable e') ->
    fn (a + k) = Err e ->
    isRetryableStatus (or_default (thrown_status e) 0) = false ->
    (k < remaining)%nat ->
    maxAttempts = Z.of_nat a + Z.of_nat remaining ->
    exists trace,
      request_loop T checkRateLimits fn client maxAttempts remaining (Z.of_nat a)
        = (trace, Err (Typed (handleError e)))
      /\ calls trace = S k.
Proof.
  induction k as [|k IH]; intros remaining a Hfail He Hno Hlt Hmax.
  - destruct remaining as [|r]; [lia|]. cbn [request_loop].
    rewrite Nat2Z.id. rewrite Nat.add_0_r in He. rewrite He, Hno.
    exists [Call]. auto.
  - destruct remaining as [|r]; [lia|]. cbn [request_loop].
    rewrite Nat2Z.id.
    destruct (Hfail 0%nat ltac:(lia)) as (e0 & He0 & Hre).
    rewrite Nat.add_0_r in He0. rewrite He0.
    unfold retryable in Hre. rewrite Hre.
    replace (Z.of_nat a =? maxAttempts - 1) with false
      by (symmetry; apply Z.eqb_neq; lia).
    cbn [negb andb].
    destruct (IH r (S a)) as (trace & Hrun & Hcalls).
    + intros i Hi. destruct (Hfail (S i) ltac:(lia)) as (e' & He' & Hre').
      exists e'. split; [|exact Hre'].
      rewrite <- He'. f_equal. lia.
    + rewrite <- He. f_equal. lia.
    + exact Hno.
    + lia.
    + lia.
    + replace (Z.of_nat a + 1) with (Z.of_nat (S a)) by lia.
      rewrite Hrun. eexists. split; [reflexivity|].
      rewrite calls_retry. congruence.
Qed.

(** X14. A failure whose status is not one of 500, 502, 503, 504 is never
    retried: when the [k]-th invocation is the first to fail that way, the
    earlier ones having failed retryably, and the budget reaches it,
    [request] throws the translation of that failure after exactly [k + 1]
    invocations. *)
Theorem request_stops_at_permanent_failure (client : GitHubClient)
    (retries : option Z) (k : nat) (e : Thrown) :
  let maxAttempts := match retries with Some r => r | None => maxRetries client end in
  let run := request T checkRateLimits fn client retries in
  (forall i, (i < k)%nat -> exists e', fn i = Err e' /\ retryable e') ->
  fn k = Err e ->
  isRetryableStatus (or_default (thrown_status e) 0) = false ->
  Z.of_nat k < maxAttempts ->
  snd run = Err (Typed (handleError e)) /\ calls (fst run) = S k.
Proof.
  intros maxAttempts run Hfail He Hno Hk. subst run. unfold request. fold maxAttempts.
  destruct (request_loop_stops client maxAttempts e k (Z.to_nat maxAttempts) 0)
    as (trace & Hrun & Hcalls);
    [exact Hfail|exact He|exact Hno|lia|lia|].
  change (Z.of_nat 0) with 0 in Hrun. rewrite Hrun. auto.
Qed.

(** X15. A failure that carries no status (or the status 0) is reported as
    a [GitHubError] of status 500, the status of a retryable failure, but is
    itself not retried: [request] throws after the one invocation. *)
Theorem request_failure_without_status (client : GitHubClient)
    (retries : option Z) (e : Thrown) :
  let maxAttempts := match retries with Some r => r | None => maxRetries client end in
  let run := request T checkRateLimits fn client retries in
  or_default (thrown_status e) 0 = 0 ->
  fn 0%nat = Err e ->
  1 <= maxAttempts ->
  run = ([Call], Err (Typed (handleError e)))
  /\ status (handleError e) = 500
  /\ isRetryableStatus (status (handleError e)) = true
  /\ message (handleError e) = "GitHub is experiencing issues. Your work is saved locally."%string.
Proof.
  intros maxAttempts run H0 He Hmax. subst run. unfold request. fold maxAttempts.
  assert (Hs : or_default (thrown_status e) 500 = 500).
  { unfold or_default in *. destruct (thrown_status e) as [v|]; [|reflexivity].
    destruct (v =? 0) eqn:E; [reflexivity|]. apply Z.eqb_neq in E. lia. }
  split.
  - destruct (Z.to_nat maxAttempts) as [|r] eqn:En; [lia|].
    apply request_loop_gives_up; [exact He|]. rewrite H0. reflexivity.
  - unfold handleError. cbn [status message]. rewrite Hs. auto.
Qed.

End RequestMore.

Section RequestMoreWitness.
Import GitHub Reference Notions.
Local Open Scope Z_scope.

Lemma request_call_bound_witness :
  request unit (fun _ => []) (flaky 500 1 tt) createGitHubClient (Some 0)
    = ([], Err Unexpected)
  /\ snd (request unit (fun _ => []) (flaky 500 1 tt) createGitHubClient None)
     <> Err Unexpected.
Proof.
  split.
  - apply (proj1 (proj2 (request_call_bound unit (fun _ => []) (flaky 500 1 tt)
                           createGitHubClient (Some 0)))).
    cbn. lia.
  - apply (proj2 (proj2 (request_call_bound unit (fun _ => []) (flaky 500 1 tt)
                           createGitHubClient None))).
    cbn. lia.
Defined.

Lemma request_stops_at_permanent_failure_witness :
  snd (request unit (fun _ => [])
         (fun k => if (k <? 1)%nat then flaky 503 1 tt k else flaky 422 5 tt k)
         createGitHubClient None)
    = Err (Typed (handleError {| thrown_status := Some 422; thrown_response := None |}))
  /\ calls (fst (request unit (fun _ => [])
         (fun k => if (k <? 1)%nat then flaky 503 1 tt k else flaky 422 5 tt k)
         createGitHubClient None)) = 2%nat.
Proof.
  apply (request_stops_at_permanent_failure unit (fun _ => [])
           (fun k => if (k <? 1)%nat then flaky 503 1 tt k else flaky 422 5 tt k)
           createGitHubClient None 1
           {| thrown_status := Some 422; thrown_response := None |}).
  - intros i Hi. replace i with 0%nat by lia.
    exists {| thrown_status := Some 503; thrown_response := None |}.
    split; reflexivity.
  - reflexivity.
  - reflexivity.
  - cbn. lia.
Defined.

Lemma request_failure_without_status_witness :
  request unit (fun _ => [])
    (fun _ => Err {| thrown_status := None; thrown_response := None |})
    createGitHubClient None
  = ([Call], Err (Typed (handleError {| thrown_status := None; thrown_response := None |}))).
Proof.
  apply (request_failure_without_status unit (fun _ => [])
           (fun _ => Err {| thrown_status := None; thrown_response := None |})
           createGitHubClient None {| thrown_status := None; thrown_response := None |}).
  - reflexivity.
  - reflexivity.
  - cbn. lia.
Defined.

End RequestMoreWitness.

(** ** The rate-limit warnings *)
Section RateHeaderFacts.
Import Js RateHeaders.
Local Open Scope Z_scope.

(** X16. [checkRateLimits] never shows the "rate limit exceeded" warning
    alone: whenever it shows it, the "low quota" warning for the same
    response comes first, both headers are present and the remaining quota
    reads as 0. *)
Theorem checkRateLimits_exceeded (remaining reset : option (list N)) (t : list N) :
  In (Exceeded t) (checkRateLimits remaining reset) ->
  exists r,
    remaining = Some r /\ reset = Some t /\ parseInt r = Some 0
    /\ checkRateLimits remaining reset = [LowQuota r; Exceeded t].
Proof.
  unfold checkRateLimits. destruct remaining as [r|]; [|intros []].
  destruct (parseInt r) as [n|] eqn:P; cbn [below is_zero].
  - destruct (n =? 0) eqn:Z0.
    + apply Z.eqb_eq in Z0. subst n. change (0 <? 100) with true.
      destruct reset as [t'|].
      * destruct (Config.truthy (Some r)); cbn [andb app];
          [|intros []].
        destruct (Config.truthy (Some t')); cbn [In]; [|intros [H|[]]; discriminate H].
        intros [H|[H|[]]]; [discriminate H|]. injection H as ->.
        exists r. auto.
      * rewrite app_nil_r. destruct (Config.truthy (Some r) && true);
          [intros [H|[]]; discriminate H|intros []].
    + rewrite andb_false_r. destruct reset as [t'|]; cbn [andb]; rewrite app_nil_r;
        (destruct (Config.truthy (Some r) && (n <? 100));
           [intros [H|[]]; discriminate H|intros []]).
  - rewrite !andb_false_r. destruct reset; intros [].
Qed.

Lemma checkRateLimits_exceeded_witness :
  exists r,
    Some (lit "0") = Some r /\ Some (lit "1700000000") = Some (lit "1700000000")
    /\ parseInt r = Some 0
    /\ checkRateLimits (Some (lit "0")) (Some (lit "1700000000"))
       = [LowQuota r; Exceeded (lit "1700000000")].
Proof.
  apply (checkRateLimits_exceeded (Some (lit "0")) (Some (lit "1700000000"))
           (lit "1700000000")).
  cbn. right. left. reflexivity.
Defined.

End RateHeaderFacts.

(** ** The fork status summary *)
Section ForkStatusFacts.
Import Js ForkManagement ForkStatus.
Local Open Scope Z_scope.

(** X17. [getForkStatus] asks for a sync exactly when the fork is behind or
    has diverged, provided the comparison's counts are not negative; without
    a fork it reports no sync status and no need to sync. *)
Theorem getForkStatus_needsSync {Fork : Type} (fork : option Fork) (data : Comparison)
    (username upstreamOwner repo : list N) :
  0 <= or_zero (behind_by data) -> 0 <= or_zero (ahead_by data) ->
  exists summary,
    getForkStatus (Ok fork) (Ok data) username upstreamOwner repo = Ok summary
    /\ match fork with
       | None => hasFork summary = false /\ syncStatus summary = None
                 /\ needsSync summary = false
       | Some _ =>
           hasFork summary = true
           /\ exists s, syncStatus summary = Some s
                /\ (needsSync summary = true <-> status s = behind \/ status s = diverged)
       end.
Proof.
  intros Hb Ha. destruct fork as [f|]; cbn [getForkStatus checkForkSyncStatus].
  - eexists. split; [reflexivity|]. cbn [hasFork syncStatus needsSync behindBy].
    split; [reflexivity|]. eexists. split; [reflexivity|]. cbn [status].
    unfold classify. rewrite Z.ltb_lt.
    destruct (Z.eqb_spec (or_zero (behind_by data)) 0) as [Eb|Eb];
      destruct (Z.eqb_spec (or_zero (ahead_by data)) 0) as [Ea|Ea];
      destruct (Z.ltb_spec 0 (or_zero (behind_by data))) as [Lb|Lb];
      destruct (Z.ltb_spec 0 (or_zero (ahead_by data))) as [La|La];
      cbn [andb]; try lia;
      (split; [intros ?; auto; lia|intros [H|H]; try discriminate H; lia]).
  - eexists. split; [reflexivity|]. auto.
Qed.

Lemma getForkStatus_needsSync_witness :
  exists summary,
    getForkStatus (Ok (Some tt))
      (Ok {| behind_by := Some 2; ahead_by := None; commits := None |})
      (lit "alice") (lit "OWASP") (lit "Top10") = Ok summary
    /\ hasFork summary = true
    /\ exists s, syncStatus summary = Some s
         /\ (needsSync summary = true <-> status s = behind \/ status s = diverged).
Proof.
  apply (getForkStatus_needsSync (Some tt)
           {| behind_by := Some 2; ahead_by := None; commits := None |}
           (lit "alice") (lit "OWASP") (lit "Top10")); cbn; lia.
Defined.

End ForkStatusFacts.

(** ** How an update moves the counts *)
Section UpdateCounts.
Import Metadata Reference Notions MetadataNotions MetadataOps.
Local Open Scope Z_scope.

Implicit Types (m : TranslationMetadata) (u : PartialFileMetadata)
  (e : TranslationFileMetadata) (filename : string) (s : FileStatus)
  (o : list (string * TranslationFileMetadata)).

Lemma count_status_cons s e l :
  count_status s (e :: l) = indicator (status_eqb (status e) s) + count_status s l.
Proof.
  unfold count_status. cbn [List.filter].
  destruct (status_eqb (status e) s); cbn [indicator List.length]; lia.
Qed.

Lemma count_status_nil s : count_status s [] = 0.
Proof. reflexivity. Qed.

Lemma count_status_app s l l' :
  count_status s (l ++ l') = count_status s l + count_status s l'.
Proof.
  induction l as [|e l IH]; [rewrite count_status_nil; reflexivity|].
  cbn [app]. rewrite !count_status_cons, IH. lia.
Qed.

Lemma count_status_set_present s filename e e' o :
  Obj.get filename o = Some e ->
  count_status s (Obj.values (Obj.set filename e' o))
  = count_status s (Obj.values o)
    - indicator (status_eqb (status e) s) + indicator (status_eqb (status e') s).
Proof.
  induction o as [|[k v] o IH]; cbn [Obj.get Obj.set]; [discriminate|].
  destruct (String.eqb k filename).
  - intros [= ->]. cbn [Obj.values List.map snd]. rewrite !count_status_cons. lia.
  - intros H. cbn [Obj.values List.map snd]. rewrite !count_status_cons.
    unfold Obj.values in IH. rewrite (IH H). lia.
Qed.

Lemma count_status_set_absent s filename e' o :
  Obj.get filename o = None ->
  count_status s (Obj.values (Obj.set filename e' o))
  = count_status s (Obj.values o) + indicator (status_eqb (status e') s).
Proof.
  intros H. rewrite (set_absent filename e' o H). unfold Obj.values.
  rewrite List.map_app, count_status_app. cbn [List.map snd].
  rewrite count_status_cons, count_status_nil. lia.
Qed.

Lemma length_set_present {V : Type} (k : string) (v : V) (o : list (string * V)) :
  Obj.get k o <> None -> List.length (Obj.set k v o) = List.length o.
Proof.
  induction o as [|[k' v'] o IH]; cbn [Obj.get Obj.set]; [congruence|].
  destruct (String.eqb k' k); [reflexivity|]. intros H. cbn [List.length]. now rewrite IH.
Qed.

Lemma length_values {V : Type} (o : list (string * V)) :
  List.length (Obj.values o) = List.length o.
Proof. unfold Obj.values. apply length_map. Qed.

(** The counts after an update of a file that has an entry. *)
Lemma update_counts_present (a b : Z) m filename u e s :
  Obj.get filename (files m) = Some e ->
  List.length (files (updateFileMetadata a b m filename u)) = List.length (files m)
  /\ count_status s (Obj.values (files (updateFileMetadata a b m filename u)))
     = count_status s (Obj.values (files m))
       - indicator (status_eqb (status e) s)
       + indicator (status_eqb (override (u_status u) (status e)) s).
Proof.
  intros E. unfold updateFileMetadata. cbn [files]. rewrite E, E. split.
  - apply length_set_present. congruence.
  - rewrite (count_status_set_present s filename e) by exact E. reflexivity.
Qed.

(** X18. An update of a file whose name is not a member of
    [Object.prototype] moves that file from its old status to its new one
    and nothing else: [totalFiles] grows by one exactly when the file had
    no entry, and each of [completed], [inProgress] and [notStarted] loses
    the file if it was counted there and gains it if its new status (the
    update's, else the old one, else not-started) belongs there. *)
Theorem updateFileMetadata_counts (a b : Z) m filename u :
  ObjectPrototype.has filename = false ->
  let before := calculateStats (files m) in
  let after := stats (updateFileMetadata a b m filename u) in
  let new := status_after (files m) filename u in
  totalFiles after = totalFiles before + indicator (is_absent (Obj.get filename (files m)))
  /\ completed after = completed before
       - indicator (had_status (files m) filename complete)
       + indicator (status_eqb new complete)
  /\ inProgress after = inProgress before
       - indicator (had_status (files m) filename in_progress)
       + indicator (status_eqb new in_progress)
  /\ notStarted after = notStarted before
       - indicator (had_status (files m) filename not_started)
       + indicator (status_eqb new not_started).
Proof.
  intros _ before after new. subst before after new.
  unfold had_status, status_after.
  change (stats (updateFileMetadata a b m filename u))
    with (calculateStats (files (updateFileMetadata a b m filename u))).
  cbn [calculateStats totalFiles completed inProgress notStarted].
  rewrite !length_values.
  destruct (Obj.get filename (files m)) as [e|] eqn:E; cbn [is_absent indicator].
  - destruct (update_counts_present a b m filename u e complete E) as [Hlen ->].
    destruct (update_counts_present a b m filename u e in_progress E) as [_ ->].
    destruct (update_counts_present a b m filename u e not_started E) as [_ ->].
    rewrite Hlen. split; [lia|]. split; [reflexivity|]. split; reflexivity.
  - unfold updateFileMetadata. cbn [files]. rewrite E, get_set_same.
    assert (Hget : Obj.get filename (Obj.set filename (blank_entry false) (files m))
                   = Some (blank_entry false)) by apply get_set_same.
    rewrite (count_status_set_present complete filename (blank_entry false)) by exact Hget.
    rewrite (count_status_set_present in_progress filename (blank_entry false))
      by exact Hget.
    rewrite (count_status_set_present not_started filename (blank_entry false))
      by exact Hget.
    rewrite (count_status_set_absent complete filename) by exact E.
    rewrite (count_status_set_absent in_progress filename) by exact E.
    rewrite (count_status_set_absent not_started filename) by exact E.
    rewrite length_set_present by congruence.
    rewrite (set_absent filename _ _ E), length_app.
    cbn [merge_entry status blank_entry List.length].
    split; [lia|]. split; [|split]; destruct (override (u_status u) not_started);
      cbn [status_eqb indicator]; lia.
Qed.

Lemma updateFileMetadata_counts_witness :
  let m := sample_document in
  let before := calculateStats (files m) in
  let after := stats (updateFileMetadata 5 6 m "setup.md" (only_status complete)) in
  let new := status_after (files m) "setup.md" (only_status complete) in
  totalFiles after
  = totalFiles before + indicator (is_absent (Obj.get "setup.md"%string (files m)))
  /\ completed after = completed before
       - indicator (had_status (files m) "setup.md" complete)
       + indicator (status_eqb new complete)
  /\ inProgress after = inProgress before
       - indicator (had_status (files m) "setup.md" in_progress)
       + indicator (status_eqb new in_progress)
  /\ notStarted after = notStarted before
       - indicator (had_status (files m) "setup.md" not_started)
       + indicator (status_eqb new not_started).
Proof.
  exact (updateFileMetadata_counts 5 6 sample_document "setup.md"
           (only_status complete) eq_refl).
Defined.

Lemma stats_of_update (a b : Z) m filename u :
  stats (updateFileMetadata a b m filename u)
  = calculateStats (files (updateFileMetadata a b m filename u)).
Proof. reflexivity. Qed.

Lemma update_present (a b : Z) m filename u e :
  Obj.get filename (files m) = Some e ->
  Obj.get filename (files (updateFileMetadata a b m filename u))
  = Some (merge_entry a e u).
Proof.
  intros E. unfold updateFileMetadata. cbn [files]. rewrite E, E. apply get_set_same.
Qed.

(** X19. Saving a draft of a file after its pull request was recorded takes
    the file back out of the completed count.  For a file whose name is not
    a member of [Object.prototype], [markFileInProgress] applied to the
    document [markFileComplete] produced moves the file from [completed] to
    [inProgress], and, since it updates the status, the contributor and the
    commit only, leaves the entry with the pull request number and address
    and the [humanReviewed] flag of the completion. *)
Theorem markFileInProgress_after_markFileComplete (t1 t2 t3 t4 : Z) m filename
    (contributor commitSha prUrl contributor' commitSha' : string) (prNumber : Z) :
  ObjectPrototype.has filename = false ->
  exists m1 m2 e1 e2,
    markFileComplete t1 t2 (Some m) filename contributor commitSha prNumber prUrl = Ok m1
    /\ markFileInProgress t3 t4 (Some m1) filename contributor' commitSha' = Ok m2
    /\ Obj.get filename (files m1) = Some e1
    /\ Obj.get filename (files m2) = Some e2
    /\ (status e1 = complete /\ Metadata.prNumber e1 = Some prNumber
        /\ humanReviewed e1 = true)
    /\ (status e2 = in_progress /\ lastContributor e2 = Some contributor'
        /\ lastCommitSha e2 = Some commitSha'
        /\ Metadata.prNumber e2 = Some prNumber /\ Metadata.prUrl e2 = Some prUrl
        /\ humanReviewed e2 = true /\ wordCount e2 = wordCount e1)
    /\ totalFiles (stats m2) = totalFiles (stats m1)
    /\ completed (stats m2) = completed (stats m1) - 1
    /\ inProgress (stats m2) = inProgress (stats m1) + 1
    /\ notStarted (stats m2) = notStarted (stats m1).
Proof.
  intros _. unfold markFileComplete, markFileInProgress.
  set (u1 := {| u_status := Some complete; u_lastUpdated := None;
                u_lastContributor := Some (Some contributor);
                u_lastCommitSha := Some (Some commitSha);
                u_prNumber := Some (Some prNumber); u_prUrl := Some (Some prUrl);
                u_wordCount := None; u_machineTranslated := None;
                u_humanReviewed := Some true |}).
  set (u2 := {| u_status := Some in_progress; u_lastUpdated := None;
                u_lastContributor := Some (Some contributor');
                u_lastCommitSha := Some (Some commitSha');
                u_prNumber := None; u_prUrl := None;
                u_wordCount := None; u_machineTranslated := None;
                u_humanReviewed := None |}).
  set (m1 := updateFileMetadata t1 t2 m filename u1).
  destruct (updateFileMetadata_entry t1 t2 m filename u1) as (e0 & He1).
  fold m1 in He1.
  pose proof (update_present t3 t4 m1 filename u2 _ He1) as He2.
  destruct (update_counts_present t3 t4 m1 filename u2 _ complete He1) as [Hlen Hco].
  destruct (update_counts_present t3 t4 m1 filename u2 _ in_progress He1) as [_ Hin].
  destruct (update_counts_present t3 t4 m1 filename u2 _ not_started He1) as [_ Hno].
  cbn [merge_entry status u1 u2 u_status override status_eqb indicator] in Hco, Hin, Hno.
  exists m1, (updateFileMetadata t3 t4 m1 filename u2),
         (merge_entry t1 e0 u1), (merge_entry t3 (merge_entry t1 e0 u1) u2).
  split; [reflexivity|]. split; [reflexivity|]. split; [exact He1|]. split; [exact He2|].
  split; [cbn; auto|]. split; [cbn; repeat split|].
  change (stats (updateFileMetadata t3 t4 m1 filename u2))
    with (calculateStats (files (updateFileMetadata t3 t4 m1 filename u2))).
  change (stats m1) with (calculateStats (files m1)).
  cbn [calculateStats totalFiles completed inProgress notStarted].
  rewrite !length_values, Hlen, Hco, Hin, Hno.
  split; [reflexivity|]. split; [lia|]. split; lia.
Qed.

Lemma markFileInProgress_after_markFileComplete_witness :
  exists m1 m2 e1 e2,
    markFileComplete 1 2 (Some sample_document) "setup.md" "ana" "1f2e3d" 7
      "https://github.com/OWASP/Top10/pull/7" = Ok m1
    /\ markFileInProgress 3 4 (Some m1) "setup.md" "luis" "4c5b6a" = Ok m2
    /\ Obj.get "setup.md"%string (files m1) = Some e1
    /\ Obj.get "setup.md"%string (files m2) = Some e2
    /\ (status e1 = complete /\ Metadata.prNumber e1 = Some 7
        /\ humanReviewed e1 = true)
    /\ (status e2 = in_progress /\ lastContributor e2 = Some "luis"%string
        /\ lastCommitSha e2 = Some "4c5b6a"%string
        /\ Metadata.prNumber e2 = Some 7
        /\ Metadata.prUrl e2 = Some "https://github.com/OWASP/Top10/pull/7"%string
        /\ humanReviewed e2 = true /\ wordCount e2 = wordCount e1)
    /\ totalFiles (stats m2) = totalFiles (stats m1)
    /\ completed (stats m2) = completed (stats m1) - 1
    /\ inProgress (stats m2) = inProgress (stats m1) + 1
    /\ notStarted (stats m2) = notStarted (stats m1).
Proof.
  exact (markFileInProgress_after_markFileComplete 1 2 3 4 sample_document "setup.md"
           "ana" "1f2e3d" "https://github.com/OWASP/Top10/pull/7" "luis" "4c5b6a" 7
           eq_refl).
Defined.

End UpdateCounts.

(** ** Bounds on the statistics, and the initial entries *)
Section StatsBounds.
Import Metadata Reference.
Local Open Scope Z_scope.

Lemma words_where_bounds (p : TranslationFileMetadata -> bool)
    (l : list TranslationFileMetadata) :
  Forall (fun f => 0 <= wordCount f) l ->
  0 <= words_where p l <= words_where any_file l.
Proof.
  induction 1 as [|f l Hf _ IH]; cbn [words_where any_file]; [lia|].
  destruct (p f); lia.
Qed.

(** X20. When no file has a negative word count, the translated words are
    between zero and the total words, and the completed files between zero
    and the total files, so neither kind of progress exceeds the whole. *)
Theorem calculateStats_bounds (files : list (string * TranslationFileMetadata)) :
  Forall (fun f => 0 <= wordCount f) (Obj.values files) ->
  let s := calculateStats files in
  0 <= translatedWords s <= totalWords s
  /\ 0 <= completed s <= totalFiles s.
Proof.
  intros H s. subst s. cbn [calculateStats translatedWords totalWords completed totalFiles].
  rewrite !sum_words_where.
  change (fun f : TranslationFileMetadata => status_eqb (status f) complete)
    with (has_status complete).
  rewrite words_where_filter. split; [now apply words_where_bounds|].
  rewrite count_status_where. apply count_where_bounds.
Qed.

Lemma calculateStats_bounds_witness :
  let s := calculateStats (some_complete 1 3) in
  0 <= translatedWords s <= totalWords s /\ 0 <= completed s <= totalFiles s.
Proof.
  apply (calculateStats_bounds (some_complete 1 3)).
  repeat (constructor; [cbn; lia|]). constructor.
Defined.

Lemma initial_get (names : list string) (f : string) :
  forall acc : list (string * TranslationFileMetadata),
    Obj.get f (fold_left (fun acc filename => Obj.set filename (blank_entry true) acc)
                 names acc)
    = if existsb (String.eqb f) names then Some (blank_entry true) else Obj.get f acc.
Proof.
  induction names as [|n names IH]; intros acc; cbn [fold_left existsb]; [reflexivity|].
  rewrite IH. destruct (existsb (String.eqb f) names); [now rewrite orb_true_r|].
  rewrite orb_false_r. destruct (String.eqb_spec f n) as [->|Hne].
  - apply get_set_same.
  - apply get_set_other. congruence.
Qed.

Lemma keys_set_NoDup {V : Type} (k : string) (v : V) (o : list (string * V)) :
  List.NoDup (Obj.keys o) -> List.NoDup (Obj.keys (Obj.set k v o)).
Proof.
  intros H. destruct (Obj.get k o) as [v0|] eqn:E.
  - rewrite keys_set_present by congruence. exact H.
  - rewrite set_absent by exact E. unfold Obj.keys in *. rewrite map_app. cbn [List.map fst].
    apply NoDup_ListNoDup. apply NoDup_app. split; [now apply NoDup_ListNoDup|].
    split; [|apply NoDup_singleton].
    intros x Hx Hk. apply list_elem_of_singleton in Hk. subst x.
    apply list_elem_of_In in Hx. apply get_None_keys in E. contradiction.
Qed.

Lemma initial_NoDup (names : list string) :
  forall acc : list (string * TranslationFileMetadata),
    List.NoDup (Obj.keys acc) ->
    List.NoDup (Obj.keys (fold_left
      (fun acc filename => Obj.set filename (blank_entry true) acc) names acc)).
Proof.
  induction names as [|n names IH]; intros acc H; cbn [fold_left]; [exact H|].
  apply IH. now apply keys_set_NoDup.
Qed.

(** X21. Whatever the list of names, repeated names included, as long as
    [__proto__] is not one of them, the files object of the initial
    document has exactly one property of its own for each name of the list
    and none for any other name, each holding the untouched,
    machine-translated entry. *)
Theorem createInitial_entries (now : Z) (slug code name : string) (dir : Direction)
    (coord : string) (names : list string) (sha : string) :
  ~ In "__proto__"%string names ->
  let doc := createInitialTranslationMetadata now slug code name dir coord names sha in
  (forall f, Obj.get f (files doc)
             = if existsb (String.eqb f) names then Some (blank_entry true) else None)
  /\ List.NoDup (Obj.keys (files doc)).
Proof.
  intros _ doc. subst doc. cbn [createInitialTranslationMetadata files]. split.
  - intros f. apply initial_get.
  - apply initial_NoDup. constructor.
Qed.

Lemma createInitial_entries_witness :
  let names := ["intro.md"; "intro.md"; "setup.md"]%string in
  let doc := createInitialTranslationMetadata 0 "docs" "es-ES" "Spanish" ltr "maria"
               names "abc123" in
  (forall f, Obj.get f (files doc)
             = if existsb (String.eqb f) names then Some (blank_entry true) else None)
  /\ List.NoDup (Obj.keys (files doc)).
Proof.
  intros names.
  apply (createInitial_entries 0 "docs" "es-ES" "Spanish" ltr "maria" names "abc123").
  subst names. cbn [In]. intros [H|[H|[H|[]]]]; discriminate H.
Defined.

End StatsBounds.

(** ** Counting words *)
Section WordCountFacts.
Import Js JsText WordCount WordNotions.
Implicit Types (s a b code cur : list N) (p : N -> bool).

Lemma span_length_all p s : forallb p (firstn (span_length p s) s) = true.
Proof.
  induction s as [|c s IH]; [reflexivity|]. cbn [span_length].
  destruct (p c) eqn:E; [|reflexivity]. cbn [firstn forallb]. now rewrite E, IH.
Qed.

Lemma whiteSpaceAt_cons (c : N) s :
  whiteSpaceAt (c :: s) = if is_ws c then Some (S (span_length is_ws s)) else None.
Proof. unfold whiteSpaceAt. cbn [span_length]. destruct (is_ws c); reflexivity. Qed.

Lemma runs_leading_ws p (inside : bool) (w s : list N) :
  forallb (fun c => negb (p c)) w = true -> w <> [] ->
  runs p inside (w ++ s) = runs p false s.
Proof.
  induction w as [|c w IH] in inside |- *; [congruence|].
  cbn [forallb app runs]. intros H _. apply andb_true_iff in H as [Hc Hw].
  apply negb_true_iff in Hc. rewrite Hc.
  destruct w as [|d w]; [reflexivity|]. now apply IH.
Qed.

Lemma runs_trailing_ws p (inside : bool) (w s : list N) :
  forallb (fun c => negb (p c)) w = true ->
  runs p inside (s ++ w) = runs p inside s.
Proof.
  intros Hw. induction s as [|c s IH] in inside |- *; cbn [app runs].
  - destruct w as [|d w]; [reflexivity|].
    rewrite <- (app_nil_r (d :: w)), runs_leading_ws by (auto; discriminate).
    reflexivity.
  - destruct (p c); now rewrite IH.
Qed.

Lemma not_not_ws (w : list N) :
  forallb is_ws w = true -> forallb (fun c => negb (negb (is_ws c))) w = true.
Proof.
  intros H. rewrite forallb_forall in *. intros c Hc. now rewrite negb_involutive, H.
Qed.

(** Splitting at white space and dropping the empty pieces leaves one
    piece for each word. *)
Lemma splitBy_runs s : forall (skip : nat) cur,
  forallb is_ws (firstn skip s) = true ->
  (skip <> 0%nat -> cur = []) ->
  List.length (List.filter (fun word => (0 <? List.length word)%nat)
                 (splitBy whiteSpaceAt skip cur s))
  = (runs (fun c => negb (is_ws c)) (0 <? List.length cur)%nat s
     + if (0 <? List.length cur)%nat then 1 else 0)%nat.
Proof.
  induction s as [|c s IH]; intros skip cur Hws Hcur.
  - cbn [splitBy List.filter runs]. destruct (0 <? List.length cur)%nat; reflexivity.
  - cbn [splitBy runs]. destruct skip as [|k].
    + rewrite whiteSpaceAt_cons. destruct (is_ws c) eqn:E; cbn [negb].
      * pose proof (IH (span_length is_ws s) [] (span_length_all is_ws s)
                      ltac:(reflexivity)) as Hrec.
        change (0 <? List.length (@nil N))%nat with false in Hrec.
        cbn [List.filter].
        destruct (0 <? List.length cur)%nat; cbn [List.length]; rewrite Hrec; lia.
      * rewrite (IH 0%nat (cur ++ [c]) eq_refl ltac:(congruence)).
        rewrite length_app. cbn [List.length].
        replace (0 <? List.length cur + 1)%nat with true
          by (symmetry; apply Nat.ltb_lt; lia).
        destruct (0 <? List.length cur)%nat; lia.
    + cbn [firstn forallb] in Hws. apply andb_true_iff in Hws as [Hc Hws].
      rewrite (Hcur ltac:(discriminate)) in *. rewrite Hc. cbn [negb].
      rewrite (IH k [] Hws ltac:(reflexivity)). reflexivity.
Qed.

(** Collapsing white space keeps the words. *)
Lemma collapse_runs s : forall (skip : nat) (inside : bool),
  forallb is_ws (firstn skip s) = true ->
  (skip <> 0%nat -> inside = false) ->
  runs (fun c => negb (is_ws c)) inside (replaceAll whiteSpaceAt [space] skip s)
  = runs (fun c => negb (is_ws c)) inside s.
Proof.
  induction s as [|c s IH]; intros skip inside Hws Hin; [reflexivity|].
  cbn [replaceAll]. destruct skip as [|k].
  - rewrite whiteSpaceAt_cons. destruct (is_ws c) eqn:E.
    + cbn [app runs]. change (is_ws space) with true. rewrite E. cbn [negb].
      apply IH; [apply span_length_all|reflexivity].
    + cbn [runs]. rewrite E. cbn [negb]. f_equal. apply IH; [reflexivity|congruence].
  - cbn [firstn forallb] in Hws. apply andb_true_iff in Hws as [Hc Hws].
    rewrite (Hin ltac:(discriminate)). cbn [runs]. rewrite Hc. cbn [negb].
    apply IH; [exact Hws|reflexivity].
Qed.

Lemma trimEnd_suffix s : exists w, s = trimEnd s ++ w /\ forallb is_ws w = true.
Proof.
  unfold trimEnd. destruct (trimStart_prefix (rev s)) as (ws & Hs & Hws).
  exists (rev ws). split.
  - rewrite <- rev_app_distr, <- Hs. now rewrite rev_involutive.
  - rewrite forallb_forall in *. intros c Hc. apply Hws. now apply in_rev.
Qed.

Lemma trim_runs s :
  runs (fun c => negb (is_ws c)) false (trim s) = runs (fun c => negb (is_ws c)) false s.
Proof.
  unfold trim.
  destruct (trimEnd_suffix (trimStart s)) as (w & Hw & Hws).
  destruct (trimStart_prefix s) as (v & Hv & Hvs).
  rewrite Hv at 2. rewrite Hw at 2.
  destruct v as [|c v].
  - cbn [app]. symmetry. apply runs_trailing_ws. now apply not_not_ws.
  - rewrite runs_leading_ws by (try discriminate; now apply not_not_ws).
    symmetry. apply runs_trailing_ws. now apply not_not_ws.
Qed.

Lemma syntax_runs s (inside : bool) :
  runs (fun c => negb (is_ws c)) inside (replaceAll syntaxAt [space] 0 s)
  = runs word_unit inside s.
Proof.
  induction s as [|c s IH] in inside |- *; [reflexivity|].
  cbn [replaceAll syntaxAt]. unfold word_unit at 1. cbn [runs].
  destruct (is_syntax c) eqn:E.
  - cbn [app runs]. change (is_ws space) with true. cbn [negb].
    rewrite andb_false_r. apply IH.
  - cbn [runs negb]. rewrite andb_true_r. fold word_unit.
    destruct (negb (is_ws c)); now rewrite IH.
Qed.

(** A pattern that begins with a backtick leaves a text without backticks
    as it is. *)
Lemma replaceAll_plain (matchAt : list N -> option nat) (r : list N) a s :
  (forall c t, c <> backtick -> matchAt (c :: t) = None) ->
  ~ In backtick a ->
  replaceAll matchAt r 0 (a ++ s) = a ++ replaceAll matchAt r 0 s.
Proof.
  intros Hm. induction a as [|c a IH]; intros Ha; [reflexivity|].
  cbn [app replaceAll]. rewrite Hm by (intros ->; apply Ha; now left).
  rewrite IH; [reflexivity|]. intros H. apply Ha. now right.
Qed.

Lemma codeBlockAt_plain (c : N) t : c <> backtick -> codeBlockAt (c :: t) = None.
Proof.
  intros Hc. unfold codeBlockAt. change Translation.fence with [backtick; backtick; backtick].
  cbn [startsWith]. destruct (N.eqb_spec backtick c) as [E|_]; [congruence|reflexivity].
Qed.

Lemma inlineCodeAt_plain (c : N) t : c <> backtick -> inlineCodeAt (c :: t) = None.
Proof.
  intros Hc. unfold inlineCodeAt.
  destruct (N.eqb_spec c backtick) as [E|_]; [congruence|reflexivity].
Qed.

Lemma replaceAll_nil (matchAt : list N -> option nat) (r : list N) (skip : nat) :
  replaceAll matchAt r skip [] = [].
Proof. reflexivity. Qed.

Lemma plain_codeBlock a :
  ~ In backtick a -> replaceAll codeBlockAt [] 0 a = a.
Proof.
  intros Ha. rewrite <- (app_nil_r a) at 1.
  rewrite replaceAll_plain by (auto using codeBlockAt_plain).
  now rewrite replaceAll_nil, app_nil_r.
Qed.

Lemma plain_inlineCode a :
  ~ In backtick a -> replaceAll inlineCodeAt [] 0 a = a.
Proof.
  intros Ha. rewrite <- (app_nil_r a) at 1.
  rewrite replaceAll_plain by (auto using inlineCodeAt_plain).
  now rewrite replaceAll_nil, app_nil_r.
Qed.

Lemma countWords_runs_after s :
  countWords s
  = Z.of_nat (runs word_unit false
                (replaceAll inlineCodeAt [] 0 (replaceAll codeBlockAt [] 0 s))).
Proof.
  unfold countWords. f_equal.
  rewrite splitBy_runs by (reflexivity || congruence).
  change (0 <? List.length (@nil N))%nat with false. rewrite Nat.add_0_r.
  rewrite trim_runs, collapse_runs by (reflexivity || congruence).
  apply syntax_runs.
Qed.

(** X22. In a text without backticks, [countWords] counts the words: the
    maximal stretches of units that are neither white space nor one of the
    markdown characters [# * _ [ ] ( )]. *)
Theorem countWords_plain_text s :
  ~ In backtick s -> countWords s = Z.of_nat (runs word_unit false s).
Proof.
  intros Hs. rewrite countWords_runs_after.
  now rewrite plain_codeBlock, plain_inlineCode.
Qed.

Lemma countWords_plain_text_witness :
  countWords (lit "**Bold** and *italic* text")
  = Z.of_nat (runs word_unit false (lit "**Bold** and *italic* text")).
Proof.
  apply (countWords_plain_text (lit "**Bold** and *italic* text")).
  intros H. apply existsb_eqb_In_N in H. discriminate H.
Defined.

Lemma replaceAll_skip (matchAt : list N -> option nat) (r : list N) (x s : list N) :
  replaceAll matchAt r (List.length x) (x ++ s) = replaceAll matchAt r 0 s.
Proof.
  induction x as [|c x IH]; [destruct s; reflexivity|]. cbn [List.length app replaceAll].
  exact IH.
Qed.

Lemma indexOf_fence code b :
  ~ In backtick code ->
  indexOf (code ++ Translation.fence ++ b) Translation.fence = Some (List.length code).
Proof.
  induction code as [|c code IH]; intros H.
  - change (indexOf ([] ++ Translation.fence ++ b) Translation.fence)
      with (if startsWith b [] then Some 0%nat
            else option_map S (indexOf ([backtick; backtick] ++ b) Translation.fence)).
    destruct b; reflexivity.
  - change ((c :: code) ++ Translation.fence ++ b)
      with (c :: code ++ Translation.fence ++ b).
    cbn [indexOf]. rewrite IH by (intros Hin; apply H; now right).
    change Translation.fence with [backtick; backtick; backtick]. cbn [startsWith].
    destruct (N.eqb_spec backtick c) as [E|_]; [exfalso; apply H; now left|].
    reflexivity.
Qed.

Lemma codeBlock_removed code b :
  ~ In backtick code ->
  replaceAll codeBlockAt [] 0 (Translation.fence ++ code ++ Translation.fence ++ b)
  = replaceAll codeBlockAt [] 0 b.
Proof.
  intros H.
  change (Translation.fence ++ code ++ Translation.fence ++ b)
    with (backtick :: [backtick; backtick] ++ code ++ Translation.fence ++ b).
  cbn [replaceAll]. unfold codeBlockAt at 1.
  change (startsWith (backtick :: [backtick; backtick] ++ code ++ Translation.fence ++ b)
            Translation.fence)
    with (startsWith (code ++ Translation.fence ++ b) []).
  replace (startsWith (code ++ Translation.fence ++ b) []) with true
    by (destruct (code ++ Translation.fence ++ b); reflexivity).
  change (skipn 3 (backtick :: [backtick; backtick] ++ code ++ Translation.fence ++ b))
    with (code ++ Translation.fence ++ b).
  rewrite indexOf_fence by exact H. cbn [option_map Nat.add app].
  rewrite <- (replaceAll_skip codeBlockAt [] ([backtick; backtick] ++ code ++ Translation.fence) b).
  rewrite <- !app_assoc. f_equal.
  rewrite !length_app. change (List.length Translation.fence) with 3%nat.
  cbn [List.length]. lia.
Qed.

(** X23. A fenced code block adds nothing to the count: the words of a text
    with a block in it are those of the text with the block cut out, when
    neither what precedes the block nor the block's content holds a
    backtick. *)
Theorem countWords_skips_code_block a code b :
  ~ In backtick a -> ~ In backtick code ->
  countWords (a ++ Translation.fence ++ code ++ Translation.fence ++ b)
  = countWords (a ++ b).
Proof.
  intros Ha Hc. rewrite !countWords_runs_after.
  rewrite (replaceAll_plain codeBlockAt [] a
             (Translation.fence ++ code ++ Translation.fence ++ b))
    by (auto using codeBlockAt_plain).
  rewrite (replaceAll_plain codeBlockAt [] a b) by (auto using codeBlockAt_plain).
  rewrite codeBlock_removed by exact Hc. reflexivity.
Qed.

Lemma countWords_skips_code_block_witness :
  countWords (lit "Run " ++ Translation.fence ++ lit "npm test" ++ Translation.fence
                ++ lit " first")
  = countWords (lit "Run " ++ lit " first").
Proof.
  apply (countWords_skips_code_block (lit "Run ") (lit "npm test") (lit " first"));
    intros H; apply existsb_eqb_In_N in H; discriminate H.
Defined.

End WordCountFacts.

(** ** The splitter loses no text *)
Section SplitConservation.
Import Js Translation Reference SplitNotions.
Implicit Types (st : SplitState) (line : list N) (ls : list (list N)).

Lemma gathered_push st : gathered (push st) = gathered st.
Proof.
  unfold gathered, push. cbn [sections currentSection].
  rewrite concat_app. cbn [concat]. now rewrite !app_nil_r.
Qed.

Lemma gathered_append line st :
  gathered (append_line line st) = gathered st ++ line ++ [newline].
Proof. unfold gathered, append_line. cbn [sections currentSection]. now rewrite app_assoc. Qed.

Lemma gathered_toggle st : gathered (toggle st) = gathered st.
Proof. reflexivity. Qed.

Lemma gathered_step st line :
  gathered (split_step st line) = gathered st ++ line ++ [newline].
Proof.
  unfold split_step.
  repeat match goal with
         | |- context [if ?b then _ else _] => destruct b
         end;
    rewrite ?gathered_push, ?gathered_append, ?gathered_toggle, ?gathered_push;
    reflexivity.
Qed.

Lemma gathered_fold ls : forall st,
  gathered (fold_left split_step ls st) = gathered st ++ text_of ls.
Proof.
  induction ls as [|l ls IH]; intros st; cbn [fold_left].
  - unfold text_of. cbn. now rewrite app_nil_r.
  - rewrite IH, gathered_step.
    change (text_of (l :: ls)) with ((l ++ [newline]) ++ text_of ls).
    now rewrite <- !app_assoc.
Qed.

Lemma join_split (markdown : list N) : join_lines (split newline markdown) = markdown.
Proof.
  induction markdown as [|c s IH]; [reflexivity|]. cbn [split].
  destruct (N.eqb_spec c newline) as [->|_].
  - destruct (split newline s) as [|w ws] eqn:E; [now apply split_cons_nonempty in E|].
    change (join_lines ([] :: w :: ws)) with (newline :: join_lines (w :: ws)).
    now rewrite IH.
  - destruct (split newline s) as [|w ws] eqn:E; [now apply split_cons_nonempty in E|].
    rewrite <- IH. destruct ws; reflexivity.
Qed.

Lemma nonempty_false (s : list N) : nonempty s = false -> s = [].
Proof. destruct s; [reflexivity|discriminate]. Qed.

Lemma sections_text (markdown : list N) :
  exists blank,
    join (splitMarkdownSections markdown) ++ blank = markdown ++ [newline]
    /\ trim blank = [].
Proof.
  rewrite splitMarkdownSections_finish.
  set (st := fold_left split_step (split newline markdown) split_init).
  assert (H : gathered st = markdown ++ [newline]).
  { subst st. rewrite gathered_fold. cbn [gathered split_init sections concat app].
    rewrite text_of_join by apply split_cons_nonempty. now rewrite join_split. }
  unfold finish, join. destruct (nonempty (trim (currentSection st))) eqn:E.
  - exists []. split; [|reflexivity].
    rewrite app_nil_r, concat_app. cbn [concat]. rewrite app_nil_r. exact H.
  - exists (currentSection st). split; [exact H|]. now apply nonempty_false.
Qed.

Lemma whole_lines_push st :
  whole_lines st -> currentSection st <> [] -> whole_lines (push st).
Proof.
  intros [Hs [Hc|Hc]] Hne; [contradiction|]. split; [|now left].
  unfold push. cbn [sections]. apply Forall_app. split; [exact Hs|].
  constructor; [exact Hc|constructor].
Qed.

Lemma whole_lines_append line st : whole_lines st -> whole_lines (append_line line st).
Proof.
  intros [Hs _]. split; [exact Hs|]. right. unfold append_line. cbn [currentSection].
  exists (currentSection st ++ line). now rewrite <- app_assoc.
Qed.

Lemma append_nonempty line st : currentSection (append_line line st) <> [].
Proof.
  unfold append_line. cbn [currentSection]. intros H.
  apply app_eq_nil in H as [_ H]. apply app_eq_nil in H as [_ H]. discriminate.
Qed.

Lemma whole_lines_toggle st : whole_lines st -> whole_lines (toggle st).
Proof. intros H. exact H. Qed.

Lemma nonempty_true (s : list N) : nonempty s = true -> s <> [].
Proof. destruct s; [discriminate|intros _; discriminate]. Qed.

Lemma whole_lines_step st line : whole_lines st -> whole_lines (split_step st line).
Proof.
  intros H. unfold split_step. destruct (is_fence_line line).
  - assert (H1 : whole_lines (if nonempty (currentSection st) then push st else st)).
    { destruct (nonempty (currentSection st)) eqn:E; [|exact H].
      apply whole_lines_push; [exact H|now apply nonempty_true]. }
    set (st1 := if nonempty (currentSection st) then push st else st) in *.
    cbv zeta. destruct (negb _).
    + apply whole_lines_push; [|apply append_nonempty].
      now apply whole_lines_append, whole_lines_toggle.
    + now apply whole_lines_append, whole_lines_toggle.
  - destruct (inCodeBlock st); [now apply whole_lines_append|].
    cbv zeta. destruct (_ || _); [|now apply whole_lines_append].
    destruct (nonempty _); [|now apply whole_lines_append].
    apply whole_lines_push; [now apply whole_lines_append|apply append_nonempty].
Qed.

Lemma whole_lines_fold ls : forall st,
  whole_lines st -> whole_lines (fold_left split_step ls st).
Proof.
  induction ls as [|l ls IH]; intros st H; [exact H|].
  cbn [fold_left]. now apply IH, whole_lines_step.
Qed.

Lemma sections_whole_lines (markdown : list N) :
  Forall (fun s => exists t, s = t ++ [newline]) (splitMarkdownSections markdown).
Proof.
  rewrite splitMarkdownSections_finish.
  set (st := fold_left split_step (split newline markdown) split_init).
  assert (H : whole_lines st).
  { subst st. apply whole_lines_fold. split; [constructor|now left]. }
  unfold finish. destruct (nonempty (trim (currentSection st))) eqn:E; [|apply H].
  destruct H as [Hs [Hc|Hc]].
  - rewrite Hc in E. discriminate.
  - apply Forall_app. split; [exact Hs|]. constructor; [exact Hc|constructor].
Qed.

(** X24. [splitMarkdownSections] cuts a document at line ends and loses no
    text: every section is a run of whole lines, its last newline
    included, and the sections put end to end give back the document
    followed by one newline, up to a last stretch of white space that is
    dropped. *)
Theorem splitMarkdownSections_keeps_text (markdown : list N) :
  Forall (fun s => exists t, s = t ++ [newline]) (splitMarkdownSections markdown)
  /\ exists blank,
       join (splitMarkdownSections markdown) ++ blank = markdown ++ [newline]
       /\ trim blank = [].
Proof.
  split; [apply sections_whole_lines|].
  rewrite splitMarkdownSections_finish.
  set (st := fold_left split_step (split newline markdown) split_init).
  assert (H : gathered st = markdown ++ [newline]).
  { subst st. rewrite gathered_fold. cbn [gathered split_init sections concat app].
    rewrite text_of_join by apply split_cons_nonempty. now rewrite join_split. }
  unfold finish, join. destruct (nonempty (trim (currentSection st))) eqn:E.
  - exists []. split; [|reflexivity].
    rewrite app_nil_r, concat_app. cbn [concat]. rewrite app_nil_r. exact H.
  - exists (currentSection st). split; [exact H|]. now apply nonempty_false.
Qed.

Lemma all_sections_echo (lang : string) (target : MapValue) (secs : list (list N)) :
  LANGUAGE_MAP lang = Some target ->
  all_sections echo_translator lang secs = Ok secs.
Proof.
  intros Hl. induction secs as [|s secs IH]; [reflexivity|].
  cbn [all_sections]. rewrite IH. unfold translateSection, translateText, echo_translator.
  rewrite Hl. destruct (shouldSkipTranslation s); reflexivity.
Qed.

(** X25. With a translation service that hands every text back unchanged,
    and a language code for which [LANGUAGE_MAP] has a value,
    [translateMarkdown] returns the document followed by one newline, less
    a last stretch of white space. *)
Theorem translateMarkdown_echo (markdown : list N) (lang : string) (target : MapValue) :
  LANGUAGE_MAP lang = Some target ->
  exists out blank,
    translateMarkdown echo_translator markdown lang = Ok out
    /\ out ++ blank = markdown ++ [newline]
    /\ trim blank = [].
Proof.
  intros Hl. unfold translateMarkdown. rewrite (all_sections_echo lang target) by exact Hl.
  destruct (sections_text markdown) as (blank & H & Hb). eauto.
Qed.

Lemma translateMarkdown_echo_witness :
  exists out blank,
    translateMarkdown echo_translator (lit "Hello world") "es-ES" = Ok out
    /\ out ++ blank = lit "Hello world" ++ [newline]
    /\ trim blank = [].
Proof. exact (translateMarkdown_echo (lit "Hello world") "es-ES" (Code "ES") eq_refl). Defined.

(** When every text is refused with the same message, the sections that
    are not skipped are rejected, each with that message. *)
Lemma all_sections_failing (translator : option (list N -> MapValue -> result string (list N)))
    (lang msg : string) (secs : list (list N)) :
  (forall text, translateText translator text lang = Err msg) ->
  all_sections translator lang secs
  = if forallb shouldSkipTranslation secs then Ok secs
    else Err (List.map (fun _ => msg)
                (List.filter (fun s => negb (shouldSkipTranslation s)) secs)).
Proof.
  intros Hfail. induction secs as [|s secs IH]; [reflexivity|].
  cbn [all_sections forallb List.filter]. unfold translateSection. rewrite IH.
  destruct (shouldSkipTranslation s); cbn [andb negb].
  - destruct (forallb shouldSkipTranslation secs); reflexivity.
  - rewrite Hfail. destruct (forallb shouldSkipTranslation secs) eqn:E; [|reflexivity].
    cbn [List.map]. f_equal. f_equal.
    clear IH. induction secs as [|s' secs IH]; [reflexivity|].
    cbn [forallb] in E. apply andb_true_iff in E as [E1 E2].
    cbn [List.filter]. rewrite E1. cbn [negb]. now apply IH.
Qed.

(** X26. Without an API key, or for a language code for which
    [LANGUAGE_MAP] has no value, [translateMarkdown] still succeeds on a
    document all of whose sections are skipped (code blocks, addresses, text
    without a three-letter word), returning the sections unchanged.  On any
    other document it throws: every section that is not skipped is
    rejected with the same message, the cause wrapped twice. *)
Theorem translateMarkdown_unavailable
    (deepl : list N -> MapValue -> result string (list N))
    (markdown : list N) (lang : string) :
  let secs := splitMarkdownSections markdown in
  let rejected := List.filter (fun s => negb (shouldSkipTranslation s)) secs in
  translateMarkdown None markdown lang
  = (if forallb shouldSkipTranslation secs then Ok (join secs)
     else Err (List.map
                 (fun _ => "Failed to translate markdown: Failed to translate text: "
                           ++ "DeepL API key not configured. "
                           ++ "Please set DEEPL_API_KEY environment variable.")%string
                 rejected))
  /\ (LANGUAGE_MAP lang = None ->
      translateMarkdown (Some deepl) markdown lang
      = if forallb shouldSkipTranslation secs then Ok (join secs)
        else Err (List.map
                    (fun _ => "Failed to translate markdown: Failed to translate text: "
                              ++ "Unsupported language: " ++ lang)%string
                    rejected))
  /\ (forallb shouldSkipTranslation secs = false -> rejected <> []).
Proof.
  intros secs rejected. subst secs rejected. unfold translateMarkdown. split; [|split].
  - rewrite (all_sections_failing None lang
               "Failed to translate text: DeepL API key not configured. Please set DEEPL_API_KEY environment variable.")
      by reflexivity.
    destruct (forallb shouldSkipTranslation (splitMarkdownSections markdown));
      [reflexivity|]. now rewrite List.map_map.
  - intros Hl.
    rewrite (all_sections_failing (Some deepl) lang
               ("Failed to translate text: " ++ ("Unsupported language: " ++ lang))%string)
      by (intros text; unfold translateText; now rewrite Hl).
    destruct (forallb shouldSkipTranslation (splitMarkdownSections markdown));
      [reflexivity|]. now rewrite List.map_map.
  - generalize (splitMarkdownSections markdown). intros secs.
    induction secs as [|s secs IH]; cbn [forallb List.filter]; [discriminate|].
    destruct (shouldSkipTranslation s); cbn [andb negb]; [exact IH|discriminate].
Qed.

Lemma translateMarkdown_unavailable_witness :
  translateMarkdown (Some (fun text _ => Ok text)) (lit "Hello world") "en-US"
  = Err ["Failed to translate markdown: Failed to translate text: Unsupported language: en-US"%string].
Proof.
  exact (proj1 (proj2 (translateMarkdown_unavailable (fun text _ => Ok text)
                         (lit "Hello world") "en-US")) eq_refl).
Defined.

End SplitConservation.

(** ** The bookkeeping of [initializeLanguage] *)
Section InitializeFacts.
Import Initialize InitializeNotions.
Local Open Scope Z_scope.

Variable processFile : SourceFile -> result string unit.
Variable onProgress
  : option (list LanguageInitProgress -> LanguageInitProgress -> result string unit).

Lemma report_counters (file : SourceFile) (s : ProgressStatus) (st : LoopState) :
  filesProcessed (fst (report onProgress file s st)) = filesProcessed st
  /\ errors (fst (report onProgress file s st)) = errors st.
Proof. unfold report. destruct onProgress; split; reflexivity. Qed.

(** Whatever the callback does, a file moves each counter by one at most,
    and moves one of them. *)
Lemma process_step_counts (st : LoopState) (file : SourceFile) :
  let st' := fst (process_step processFile onProgress st file) in
  filesProcessed st <= filesProcessed st' <= filesProcessed st + 1
  /\ (List.length (errors st) <= List.length (errors st')
      <= List.length (errors st) + 1)%nat
  /\ filesProcessed st + Z.of_nat (List.length (errors st)) + 1
     <= filesProcessed st' + Z.of_nat (List.length (errors st')).
Proof.
  unfold process_step, try_file.
  destruct (report onProgress file translating st) as [st1 r1] eqn:E1.
  pose proof (report_counters file translating st) as [F1 R1].
  rewrite E1 in F1, R1. cbn [fst] in F1, R1.
  assert (Hcatch : forall (st2 : LoopState) (message : string),
            filesProcessed st <= filesProcessed st2 <= filesProcessed st + 1 ->
            errors st2 = errors st ->
            let st' := fst (report onProgress file
                              (error ("Failed to process " ++ file_name file ++ ": "
                                      ++ message)%string)
                              {| filesProcessed := filesProcessed st2;
                                 errors := errors st2
                                           ++ [("Failed to process " ++ file_name file ++ ": "
                                                ++ message)%string];
                                 progress := progress st2 |}) in
            filesProcessed st <= filesProcessed st' <= filesProcessed st + 1
            /\ (List.length (errors st) <= List.length (errors st')
                <= List.length (errors st) + 1)%nat
            /\ filesProcessed st + Z.of_nat (List.length (errors st)) + 1
               <= filesProcessed st' + Z.of_nat (List.length (errors st'))).
  { intros st2 message Hf He. cbn zeta.
    match goal with
    | |- context [report onProgress file ?s ?x] =>
        pose proof (report_counters file s x) as [F R]; rewrite F, R
    end.
    cbn [filesProcessed errors]. rewrite He, length_app. cbn [List.length]. lia. }
  destruct r1 as [[]|message].
  - destruct (processFile file) as [[]|message].
    + match goal with
      | |- context [report onProgress file complete ?x] =>
          destruct (report onProgress file complete x) as [st2 r2] eqn:E2;
          pose proof (report_counters file complete x) as [F2 R2];
          rewrite E2 in F2, R2; cbn [fst filesProcessed errors] in F2, R2
      end.
      destruct r2 as [[]|message].
      * cbn [fst]. rewrite F2, R2, F1, R1. lia.
      * apply Hcatch; [lia|congruence].
    + apply Hcatch; [lia|exact R1].
  - apply Hcatch; [lia|exact R1].
Qed.

Lemma process_files_counts (files : list SourceFile) : forall st : LoopState,
  let run := process_files processFile onProgress files st in
  filesProcessed st <= filesProcessed (fst run)
    <= filesProcessed st + Z.of_nat (List.length files)
  /\ (List.length (errors st) <= List.length (errors (fst run))
      <= List.length (errors st) + List.length files)%nat
  /\ (snd run = Ok tt ->
      filesProcessed st + Z.of_nat (List.length (errors st))
        + Z.of_nat (List.length files)
      <= filesProcessed (fst run) + Z.of_nat (List.length (errors (fst run)))).
Proof.
  induction files as [|file files IH]; intros st; cbn [process_files List.length].
  - cbn [fst snd]. lia.
  - pose proof (process_step_counts st file) as Hstep. cbn zeta in Hstep.
    destruct (process_step processFile onProgress st file) as [st1 [[]|message]];
      cbn [fst] in Hstep.
    + specialize (IH st1). cbn zeta in IH.
      destruct IH as (I1 & I2 & I3). split; [lia|]. split; [lia|].
      intros Hok. specialize (I3 Hok). lia.
    + cbn [fst snd]. split; [lia|]. split; [lia|discriminate].
Qed.

(** With a callback that returns from every call, the loop runs to its end
    and counts every file once. *)
Lemma process_files_quiet (files : list SourceFile) :
  never_throws onProgress ->
  forall st : LoopState,
    let run := process_files processFile onProgress files st in
    snd run = Ok tt
    /\ filesProcessed (fst run)
       = filesProcessed st
         + Z.of_nat (List.length (List.filter (processed processFile) files))
    /\ List.length (errors (fst run))
       = (List.length (errors st)
          + List.length (List.filter (fun f => negb (processed processFile f)) files))%nat
    /\ progress (fst run)
       = progress st ++ calls_for_files onProgress processFile files.
Proof.
  intros Hq. induction files as [|file files IH]; intros st;
    cbn [process_files List.filter].
  - cbn [fst snd List.length]. split; [reflexivity|]. split; [lia|]. split; [lia|].
    unfold calls_for_files. destruct onProgress; cbn [flat_map]; now rewrite app_nil_r.
  - assert (Hstep : process_step processFile onProgress st file
                    = ({| filesProcessed :=
                            filesProcessed st
                            + (if processed processFile file then 1 else 0);
                          errors :=
                            errors st
                            ++ (match processFile file with
                                | Ok _ => []
                                | Err message =>
                                    [("Failed to process " ++ file_name file ++ ": "
                                      ++ message)%string]
                                end);
                          progress :=
                            progress st
                            ++ calls_for_files onProgress processFile [file] |},
                       Ok tt)).
    { unfold process_step, try_file, report, calls_for_files, processed, reports_of.
      unfold never_throws in Hq. destruct onProgress as [callback|].
      - rewrite !Hq. cbn [flat_map]. destruct (processFile file) as [[]|message];
          cbn [filesProcessed errors progress]; rewrite ?Hq;
          rewrite ?app_nil_r, <- ?app_assoc; cbn [app];
          destruct st; cbn [filesProcessed errors progress];
          rewrite ?Z.add_0_r; reflexivity.
      - destruct (processFile file) as [[]|message];
          cbn [filesProcessed errors progress];
          rewrite ?app_nil_r; destruct st; cbn [filesProcessed errors progress];
          rewrite ?Z.add_0_r; reflexivity. }
    rewrite Hstep. specialize (IH {| filesProcessed :=
                            filesProcessed st
                            + (if processed processFile file then 1 else 0);
                          errors :=
                            errors st
                            ++ (match processFile file with
                                | Ok _ => []
                                | Err message =>
                                    [("Failed to process " ++ file_name file ++ ": "
                                      ++ message)%string]
                                end);
                          progress :=
                            progress st
                            ++ calls_for_files onProgress processFile [file] |}).
    cbn zeta in IH. cbn [filesProcessed errors progress] in IH.
    destruct IH as (I0 & I1 & I2 & I3).
    split; [exact I0|]. rewrite I1, I2, I3. unfold processed.
    split; [|split].
    + destruct (processFile file) as [[]|message]; cbn [negb List.length]; lia.
    + rewrite length_app.
      destruct (processFile file) as [[]|message]; cbn [negb List.length]; lia.
    + rewrite <- app_assoc. f_equal. unfold calls_for_files.
      destruct onProgress; [|reflexivity]. cbn [flat_map]. now rewrite app_nil_r.
Qed.

Lemma filter_partition {A : Type} (p : A -> bool) (l : list A) :
  (List.length (List.filter p l) + List.length (List.filter (fun x => negb (p x)) l)
   = List.length l)%nat.
Proof.
  induction l as [|x l IH]; [reflexivity|]. cbn [List.filter].
  destruct (p x); cbn [negb List.length]; lia.
Qed.

Lemma filter_none {A : Type} (p : A -> bool) (l : list A) :
  List.length (List.filter (fun x => negb (p x)) l) = 0%nat <-> forallb p l = true.
Proof.
  induction l as [|x l IH]; [cbn; tauto|]. cbn [List.filter forallb].
  destruct (p x); cbn [negb andb List.length]; [exact IH|].
  split; [lia|discriminate].
Qed.

(** X27. When [initializeLanguage] returns, no counter exceeds the number
    of source files, every file is counted at least once, in
    [filesProcessed] or by a message in [errors], and [success] tells
    whether [errors] is empty; this holds whatever the progress callback
    does.  When the callback is absent or returns from every call, every
    file is counted exactly once: [filesProcessed] counts the files whose
    processing completed, [errors] holds one message for each of the
    others, [success] tells whether there is none of those, and the
    callback, if there is one, was called twice for each file in turn, with
    [translating] and then with [complete] or [error]. *)
Theorem initializeLanguage_accounts
    (sourceBranch : result string string) (createBranch : result (Z * string) unit)
    (files : list SourceFile) (isAvailable : bool) (saved : result string unit)
    (owner repo branchName : string)
    (calls : list LanguageInitProgress) (r : InitializeLanguageResult) :
  initializeLanguage processFile onProgress sourceBranch createBranch (Ok files)
    isAvailable saved owner repo branchName = (calls, Ok r) ->
  (0 <= result_filesProcessed r <= Z.of_nat (List.length files)
   /\ (List.length (result_errors r) <= List.length files)%nat
   /\ Z.of_nat (List.length files)
      <= result_filesProcessed r + Z.of_nat (List.length (result_errors r))
   /\ (success r = true <-> result_errors r = []))
  /\ (never_throws onProgress ->
      result_filesProcessed r
        = Z.of_nat (List.length (List.filter (processed processFile) files))
      /\ result_filesProcessed r + Z.of_nat (List.length (result_errors r))
         = Z.of_nat (List.length files)
      /\ (success r = true <-> forallb (processed processFile) files = true)
      /\ calls = calls_for_files onProgress processFile files).
Proof.
  unfold initializeLanguage.
  destruct sourceBranch as [sha|m]; [|discriminate].
  destruct (match createBranch with
            | Ok _ => None
            | Err (status, message) => if status =? 422 then None else Some message
            end); [discriminate|].
  destruct isAvailable; cbn [negb]; [|discriminate].
  pose proof (process_files_counts files
                {| filesProcessed := 0; errors := []; progress := [] |}) as Hc.
  pose proof (fun Hq => process_files_quiet files Hq
                {| filesProcessed := 0; errors := []; progress := [] |}) as Hq.
  cbn zeta in Hc, Hq. cbn [filesProcessed errors progress List.length app] in Hc, Hq.
  destruct (process_files processFile onProgress files
              {| filesProcessed := 0; errors := []; progress := [] |})
    as [st [[]|message]]; [|discriminate].
  cbn [fst snd] in Hc, Hq.
  destruct saved as [[]|m]; [|discriminate].
  intros [= <- <-]. cbn [result_filesProcessed result_errors success].
  destruct Hc as (B1 & B2 & B3). specialize (B3 eq_refl). split.
  - split; [lia|]. split; [lia|]. split; [lia|].
    rewrite Nat.eqb_eq. destruct (errors st); cbn [List.length]; split;
      congruence || lia.
  - intros Hquiet. destruct (Hq Hquiet) as (_ & Q1 & Q2 & Q3).
    pose proof (filter_partition (processed processFile) files) as Hall.
    split; [lia|]. split; [lia|]. split; [|exact Q3].
    rewrite Nat.eqb_eq, Q2. apply filter_none.
Qed.

End InitializeFacts.

Section InitializeWitness.
Import Initialize InitializeNotions InitializeSamples.
Local Open Scope Z_scope.

Lemma initializeLanguage_accounts_witness :
  (0 <= result_filesProcessed sample_result <= Z.of_nat (List.length sample_files)
   /\ (List.length (result_errors sample_result) <= List.length sample_files)%nat
   /\ Z.of_nat (List.length sample_files)
      <= result_filesProcessed sample_result
         + Z.of_nat (List.length (result_errors sample_result))
   /\ (success sample_result = true <-> result_errors sample_result = []))
  /\ (result_filesProcessed sample_result
        = Z.of_nat (List.length (List.filter (processed sample_processFile) sample_files))
      /\ result_filesProcessed sample_result
         + Z.of_nat (List.length (result_errors sample_result))
         = Z.of_nat (List.length sample_files)
      /\ (success sample_result = true
          <-> forallb (processed sample_processFile) sample_files = true)
      /\ calls_for_files sample_onProgress sample_processFile sample_files
         = calls_for_files sample_onProgress sample_processFile sample_files).
Proof.
  destruct (initializeLanguage_accounts sample_processFile sample_onProgress
              (Ok "abc"%string) (Err (422, "Reference already exists"%string))
              sample_files true (Ok tt) "OWASP" "Top10" "translations/es-ES"
              (calls_for_files sample_onProgress sample_processFile sample_files)
              sample_result eq_refl) as [Hany Hquiet].
  split; [exact Hany|]. apply Hquiet. intros calls call. reflexivity.
Defined.

End InitializeWitness.

(** ** Errors on their way to the client *)
Section ApiUtilsFacts.
Import Js ApiUtils Validation.
Local Open Scope Z_scope.

Lemma sanitizeFilename_messages (filename : list N) (msg : string) :
  sanitizeFilename filename = Err msg ->
  msg = "Invalid filename: path traversal detected"%string
  \/ msg = "Invalid filename: contains prohibited characters"%string
  \/ msg = "Invalid filename: cannot be empty"%string.
Proof.
  rewrite sanitizeFilename_decides.
  repeat match goal with
         | |- context [if ?b then _ else _] => destruct b
         end; intros [= <-]; auto.
Qed.

(** X28. What [withErrorHandling] answers to the errors of the layers
    below.  Every error [sanitizeFilename] throws, a path traversal
    included, is answered as an internal error with status 500; so is the
    "access token not available" error of the routes, whose message
    begins with but is not "Authentication required", the one message
    answered with 401; the error of [requireProjectAdmin] is answered with
    403 and its own message. *)
Theorem handle_library_errors (isProduction : bool) (e : Thrown) :
  (forall filename msg,
      sanitizeFilename filename = Err msg -> thrown_message e = Some (lit msg) ->
      status (handle isProduction e) = 500 /\ code (handle isProduction e) = INTERNAL_ERROR)
  /\ (thrown_message e = Some (lit "Authentication required: Access token not available") ->
      status (handle isProduction e) = 500)
  /\ (thrown_message e = Some (lit "Authentication required") ->
      status (handle isProduction e) = 401)
  /\ (forall ADMIN_USERS username projectSlug msg,
      Authorization.requireProjectAdmin ADMIN_USERS username projectSlug = Err msg ->
      thrown_message e = Some (lit msg) ->
      status (handle isProduction e) = 403
      /\ message (handle isProduction e) = Some (lit msg)).
Proof.
  split; [|split; [|split]].
  - intros filename msg H Hm. unfold handle. rewrite Hm.
    apply sanitizeFilename_messages in H. destruct H as [H|[H|H]]; subst msg;
      destruct isProduction; split; reflexivity.
  - intros Hm. unfold handle. rewrite Hm. destruct isProduction; reflexivity.
  - intros Hm. unfold handle. rewrite Hm. destruct isProduction; reflexivity.
  - intros env u p msg H Hm. unfold Authorization.requireProjectAdmin in H.
    destruct (negb (Authorization.isProjectAdmin env u p)); [|discriminate].
    injection H as <-. unfold handle. rewrite Hm.
    destruct isProduction; split; reflexivity.
Qed.

Lemma handle_library_errors_witness :
  status (handle true {| thrown_message := Some (lit "Invalid filename: path traversal detected");
                         thrown_stack := None; thrown_name := Some (lit "Error") |}) = 500.
Proof.
  exact (proj1 (proj1 (handle_library_errors true
           {| thrown_message := Some (lit "Invalid filename: path traversal detected");
              thrown_stack := None; thrown_name := Some (lit "Error") |})
           (lit "../../etc/passwd") "Invalid filename: path traversal detected"%string
           eq_refl eq_refl)).
Defined.

(** X29. In production, the response to a thrown error never carries the
    details of the error, and a response with status 500 never carries its
    message; the responses with status 400, 403 and 404 carry the message
    as it was thrown. *)
Theorem handle_in_production (e : Thrown) :
  let r := handle true e in
  details r = None
  /\ (status r = 500 -> message r = Some (lit "An internal error occurred"))
  /\ (status r = 400 \/ status r = 403 \/ status r = 404 ->
      message r = thrown_message e).
Proof.
  intros r. subst r. unfold handle.
  repeat match goal with
         | |- context [if ?b then _ else _] => destruct b
         end; cbn; (split; [reflexivity|]); split; intros H;
    try reflexivity; try discriminate H;
    repeat (destruct H as [H|H]; try discriminate H).
Qed.

Lemma handle_in_production_witness :
  message (handle true {| thrown_message := Some (lit "ENOENT: /srv/config/projects/x.json");
                          thrown_stack := None; thrown_name := None |})
  = Some (lit "An internal error occurred").
Proof.
  exact (proj1 (proj2 (handle_in_production
           {| thrown_message := Some (lit "ENOENT: /srv/config/projects/x.json");
              thrown_stack := None; thrown_name := None |})) eq_refl).
Defined.

End ApiUtilsFacts.

(** ** The content hash of the autosave *)
Section HashFacts.
Import Js Autosave AutosaveNotions.
Local Open Scope Z_scope.

Lemma toInt32_range (z : Z) : - 2 ^ 31 <= toInt32 z < 2 ^ 31.
Proof.
  unfold toInt32. pose proof (Z.mod_pos_bound (z + 2 ^ 31) (2 ^ 32) ltac:(lia)). lia.
Qed.

Lemma toInt32_shift (z k : Z) : toInt32 (z + 2 ^ 32 * k) = toInt32 z.
Proof.
  unfold toInt32. f_equal.
  replace (z + 2 ^ 32 * k + 2 ^ 31) with (z + 2 ^ 31 + k * 2 ^ 32) by lia.
  apply Z_mod_plus_full.
Qed.

Lemma toInt32_quotient (z : Z) : exists k, toInt32 z = z + 2 ^ 32 * k.
Proof.
  exists (- ((z + 2 ^ 31) / 2 ^ 32)). unfold toInt32.
  pose proof (Z.div_mod (z + 2 ^ 31) (2 ^ 32) ltac:(lia)). lia.
Qed.

Lemma toInt32_idem (z : Z) : toInt32 (toInt32 z) = toInt32 z.
Proof.
  destruct (toInt32_quotient z) as (k & Hk). rewrite Hk at 1. apply toInt32_shift.
Qed.

Lemma hash_step_polynomial (H : Z) (c : N) :
  hash_step (toInt32 H) c = toInt32 (31 * H + Z.of_N c).
Proof.
  unfold hash_step. rewrite Z.land_diag, Z.shiftl_mul_pow2 by lia.
  rewrite toInt32_idem.
  destruct (toInt32_quotient H) as (k & ->).
  destruct (toInt32_quotient ((H + 2 ^ 32 * k) * 2 ^ 5)) as (k' & ->).
  replace ((H + 2 ^ 32 * k) * 2 ^ 5 + 2 ^ 32 * k' - (H + 2 ^ 32 * k) + Z.of_N c)
    with (31 * H + Z.of_N c + 2 ^ 32 * (31 * k + k')) by lia.
  apply toInt32_shift.
Qed.

Lemma fold_left_step {A B : Type} (f : A -> B -> A) (x : B) (l : list B) (a : A) :
  fold_left f (x :: l) a = fold_left f l (f a x).
Proof. reflexivity. Qed.

Lemma hash_fold (content : list N) : forall H : Z,
  fold_left hash_step content (toInt32 H) = toInt32 (polynomial H content).
Proof.
  induction content as [|c content IH]; intros H.
  - unfold polynomial. reflexivity.
  - unfold polynomial. rewrite !fold_left_step, hash_step_polynomial.
    apply IH.
Qed.

(** X30. The number behind [generateFileHash] is the polynomial hash of the
    content's code units with multiplier 31, reduced to a signed integer of
    32 bits; in particular it always lies between [-2^31] and [2^31 - 1]. *)
Theorem hash_value_polynomial (content : list N) :
  hash_value content = toInt32 (polynomial 0 content)
  /\ - 2 ^ 31 <= hash_value content < 2 ^ 31.
Proof.
  assert (H : hash_value content = toInt32 (polynomial 0 content)).
  { unfold hash_value. change 0 with (toInt32 0) at 1. apply hash_fold. }
  split; [exact H|]. rewrite H. apply toInt32_range.
Qed.

End HashFacts.
